(** * Verification of [scripts/latest_version.py]

    The module turns the column-aligned text printed by [winget list] and
    [winget upgrade] into records and reconciles the two tables.  This
    development embeds the three pure functions of the module

      - [parse_winget_upgrade_output]
      - [parse_winget_list_output]
      - [merge_installed_with_upgradable]

    together with the Python [str] operations they are built from, and
    proves the properties stated about them. *)

From Stdlib Require Import ZArith NArith Lia Bool String Ascii.
From stdpp Require Import base option list gmap.

Local Open Scope Z_scope.

(** * Python strings

    A Python [str] is a sequence of Unicode code points; a code point is
    modelled as a number of type [N] and a string as the list of its code
    points.  Lengths and indices are Python integers ([Z]): [str.find]
    answers [-1] and slices accept negative bounds. *)

Module Py.

Definition char : Type := N.
Definition str : Type := list char.

(** Reading a literal of the development as a Python string. *)
Definition lit (s : string) : str :=
  List.map N_of_ascii (list_ascii_of_string s).

(** [len] of a string or of a list. *)
Definition len {A} (s : list A) : Z := Z.of_nat (length s).

(** Truth value of a string used as a condition: non-empty. *)
Definition truthy (s : str) : bool :=
  match s with [] => false | _ :: _ => true end.

(** [Py_UNICODE_ISSPACE]: the characters [str.strip()] and [str.split()]
    treat as whitespace. *)
Definition isspace (c : char) : bool :=
  ((9 <=? c) && (c <=? 13) || (28 <=? c) && (c <=? 32)
   || (c =? 133) || (c =? 160) || (c =? 5760)
   || (8192 <=? c) && (c <=? 8202)
   || (c =? 8232) || (c =? 8233) || (c =? 8239) || (c =? 8287)
   || (c =? 12288))%N.

(** [Py_UNICODE_ISLINEBREAK]: the line boundaries of [str.splitlines()]. *)
Definition islinebreak (c : char) : bool :=
  ((10 <=? c) && (c <=? 13) || (28 <=? c) && (c <=? 30)
   || (c =? 133) || (c =? 8232) || (c =? 8233))%N.

(** ** strip *)

Fixpoint lstrip (s : str) : str :=
  match s with
  | [] => []
  | c :: t => if isspace c then lstrip t else s
  end.

Definition rstrip (s : str) : str := rev (lstrip (rev s)).

Definition strip (s : str) : str := rstrip (lstrip s).

(** ** splitlines

    [acc] holds, reversed, the characters of the line being read.  A line is
    emitted at each line boundary, ["\r\n"] counting as one boundary; at the
    end of the text the pending line is emitted only when it is non-empty,
    so a final line boundary opens no further line. *)

Fixpoint splitlines_from (acc : str) (s : str) : list str :=
  match s with
  | [] => match acc with [] => [] | _ :: _ => [rev acc] end
  | c :: t =>
      if islinebreak c then
        rev acc ::
          match t with
          | c' :: t' =>
              if ((c =? 13) && (c' =? 10))%N then splitlines_from [] t'
              else splitlines_from [] t
          | [] => splitlines_from [] t
          end
      else splitlines_from (c :: acc) t
  end.

Definition splitlines (s : str) : list str := splitlines_from [] s.

(** ** split (no argument) and join *)

Fixpoint split_from (acc : str) (s : str) : list str :=
  match s with
  | [] => match acc with [] => [] | _ :: _ => [rev acc] end
  | c :: t =>
      if isspace c then
        match acc with
        | [] => split_from [] t
        | _ :: _ => rev acc :: split_from [] t
        end
      else split_from (c :: acc) t
  end.

Definition split (s : str) : list str := split_from [] s.

Fixpoint join (sep : str) (parts : list str) : str :=
  match parts with
  | [] => []
  | [p] => p
  | p :: ps => p ++ sep ++ join sep ps
  end.

(** ** startswith, in, find *)

Fixpoint startswith (s prefix : str) : bool :=
  match prefix, s with
  | [], _ => true
  | _ :: _, [] => false
  | p :: ps, c :: t => (p =? c)%N && startswith t ps
  end.

(** [sub in s] *)
Fixpoint contains (sub s : str) : bool :=
  startswith s sub ||
  match s with
  | [] => false
  | _ :: t => contains sub t
  end.

(** [s.find(sub)], searching from the position [i] the text [s] starts at. *)
Fixpoint find_from (i : Z) (sub s : str) : Z :=
  if startswith s sub then i
  else match s with
       | [] => -1
       | _ :: t => find_from (i + 1) sub t
       end.

Definition find (s sub : str) : Z := find_from 0 sub s.

(** ** Indexing and slicing (strings and lists alike) *)

(** [s[i]]: a negative index counts from the end; out of range raises
    [IndexError], modelled as [None]. *)
Definition getitem {A} (s : list A) (i : Z) : option A :=
  let j := if i <? 0 then i + len s else i in
  if (j <? 0) || (len s <=? j) then None else nth_error s (Z.to_nat j).

(** Bound of a slice: negative bounds count from the end, and the result is
    clamped to [0 .. len s]. *)
Definition slice_bound {A} (s : list A) (i : Z) : Z :=
  if i <? 0 then Z.max (i + len s) 0 else Z.min i (len s).

(** [s[lo:hi]] *)
Definition slice {A} (s : list A) (lo hi : Z) : list A :=
  let a := slice_bound s lo in
  let b := slice_bound s hi in
  firstn (Z.to_nat (b - a)) (skipn (Z.to_nat a) s).

(** [s[lo:]] *)
Definition slice_from {A} (s : list A) (lo : Z) : list A :=
  skipn (Z.to_nat (slice_bound s lo)) s.

(** ** encode, replace, isdigit *)

(** [s.encode('ascii', 'ignore').decode('ascii')]: every code point that has
    no ASCII encoding is dropped. *)
Definition ascii_ignore (s : str) : str :=
  List.filter (fun c => (c <? 128)%N) s.

(** [s.replace(c, '')] for a one-character pattern [c]. *)
Definition remove_char (c : char) (s : str) : str :=
  List.filter (fun x => negb (x =? c)%N) s.

(** [s.isdigit()] on ASCII text, where the digits are ['0'] .. ['9'].  The
    parsers call it on tokens of fields that went through [ascii_ignore]
    only (see [cleanup_tokens_ascii] below). *)
Definition isdigit (s : str) : bool :=
  truthy s && forallb (fun c => (48 <=? c) && (c <=? 57))%N s.

(** [a != b] *)
Definition neqb (a b : str) : bool := negb (bool_decide (a = b)).

End Py.

Import Py.

(** * Records

    The dictionaries the module builds have fixed keys; each shape is a
    record.  [app.get(k)] used as a condition is the truth value of the
    field. *)

Module PackageRecord.
Record t : Type := mk
  { name : str; id : str; current_version : str }.
End PackageRecord.

Module UpgradeRecord.
Record t : Type := mk
  { name : str; id : str; current_version : str; available_version : str }.
End UpgradeRecord.

Module ReconciledRecord.
Record t : Type := mk
  { name : str; id : str; current_version : str;
      latest_version : str; update_available : bool }.
End ReconciledRecord.

(** * Pieces shared by the two parsers *)

Definition kw_Name : str := lit "Name".
Definition kw_Id : str := lit "Id".
Definition kw_Version : str := lit "Version".
Definition kw_Available : str := lit "Available".
Definition kw_Source : str := lit "Source".
Definition Unknown : str := lit "Unknown".

(** The characters the source names: space, dash, dot and the broken bar U+00A6. *)
Definition ch_space : char := 32%N.
Definition ch_dash : char := 45%N.
Definition ch_dot : char := 46%N.
Definition ch_bar : char := 166%N.

(** ["Name" in line and "Id" in line and "Version" in line] *)
Definition is_header (line : str) : bool :=
  contains kw_Name line && contains kw_Id line && contains kw_Version line.

(** The [enumerate] loop looking for the header: the first line that
    qualifies, with [data_start_index = i + 2]. *)
Fixpoint find_header (i : Z) (lines : list str) : option (str * Z) :=
  match lines with
  | [] => None
  | line :: rest =>
      if is_header line then Some (line, i + 2)
      else find_header (i + 1) rest
  end.

(** [not line.strip() or line.startswith("-")] *)
Definition skipped (line : str) : bool :=
  negb (truthy (strip line)) || startswith line [ch_dash].

(** [len(line) > name_start and line[name_start] != ' '], the index being
    evaluated only when the length test succeeds. *)
Definition starts_entry (line : str) (name_start : Z) : option bool :=
  if len line >? name_start then
    c ← getitem line name_start; Some (negb (c =? ch_space)%N)
  else Some false.

(** [x.encode('ascii', 'ignore').decode('ascii').strip()] *)
Definition clean (x : str) : str := strip (ascii_ignore x).

(** [' '.join(x.split())] *)
Definition compact (x : str) : str := join [ch_space] (split x).

(** ['.' in part or part.replace('.', '').replace('-', '').isdigit()] *)
Definition looks_like_version (part : str) : bool :=
  contains [ch_dot] part
  || isdigit (remove_char ch_dash (remove_char ch_dot part)).

(** The [for part in parts: ... break] scan: the first qualifying part. *)
Fixpoint first_version_like (parts : list str) : option str :=
  match parts with
  | [] => None
  | part :: rest =>
      if looks_like_version part then Some part
      else first_version_like rest
  end.

(** The version cleanup of the second pass (lines 118-139 and 219-231). *)
Definition cleanup_version (v : str) : str :=
  let version := strip (remove_char ch_bar v) in
  let version_parts := split version in
  match version_parts with
  | [] => version
  | _ :: _ =>
      match first_version_like version_parts with
      | Some part => part
      | None =>
          match version_parts with
          | part0 :: _ => part0
          | [] => Unknown
          end
      end
  end.

(** * parse_winget_list_output *)

Record ListColumns : Type := mkListColumns
  { l_name_start : Z; l_id_start : Z; l_version_start : Z; l_source_start : Z }.

Definition list_columns (header_line : str) : ListColumns :=
  {| l_name_start := find header_line kw_Name;
     l_id_start := find header_line kw_Id;
     l_version_start := find header_line kw_Version;
     l_source_start := find header_line kw_Source |}.

(** The three slices of a line that starts an entry (lines 186-188). *)
Definition list_name_field (c : ListColumns) (line : str) : str :=
  if l_id_start c >? l_name_start c
  then strip (slice line (l_name_start c) (l_id_start c))
  else strip (slice_from line (l_name_start c)).

Definition list_id_field (c : ListColumns) (line : str) : str :=
  if l_version_start c >? l_id_start c
  then strip (slice line (l_id_start c) (l_version_start c))
  else [].

Definition list_version_field (c : ListColumns) (line : str) : str :=
  if l_source_start c >? l_version_start c
  then strip (slice line (l_version_start c) (l_source_start c))
  else strip (slice_from line (l_version_start c)).

Definition list_new_entry (c : ListColumns) (line : str) : PackageRecord.t :=
  {| PackageRecord.name := clean (list_name_field c line);
     PackageRecord.id := clean (list_id_field c line);
     PackageRecord.current_version :=
       compact (clean (list_version_field c line)) |}.

(** [if current_app and current_app.get("name") and
        current_app.get("current_version"): apps.append(current_app)] *)
Definition list_flush (apps : list PackageRecord.t)
    (current_app : option PackageRecord.t) : list PackageRecord.t :=
  match current_app with
  | Some app =>
      if truthy (PackageRecord.name app)
         && truthy (PackageRecord.current_version app)
      then apps ++ [app] else apps
  | None => apps
  end.

(** The loop over the data lines, threading [apps] and [current_app];
    [None] is an exception escaping the loop. *)
Fixpoint list_scan (c : ListColumns) (lines : list str)
    (apps : list PackageRecord.t) (current_app : option PackageRecord.t)
    : option (list PackageRecord.t * option PackageRecord.t) :=
  match lines with
  | [] => Some (apps, current_app)
  | line :: rest =>
      if skipped line then list_scan c rest apps current_app
      else
        b ← starts_entry line (l_name_start c);
        if b : bool
        then list_scan c rest (list_flush apps current_app)
               (Some (list_new_entry c line))
        else list_scan c rest apps current_app
  end.

(** The second pass (lines 212-234). *)
Fixpoint list_validate (apps : list PackageRecord.t) : list PackageRecord.t :=
  match apps with
  | [] => []
  | app :: rest =>
      if truthy (PackageRecord.name app)
         && truthy (PackageRecord.current_version app)
         && (len (PackageRecord.name app) >? 1)
      then
        {| PackageRecord.name := PackageRecord.name app;
           PackageRecord.id := PackageRecord.id app;
           PackageRecord.current_version :=
             cleanup_version (PackageRecord.current_version app) |}
        :: list_validate rest
      else list_validate rest
  end.

(** The records accumulated by the first pass, before the second one. *)
Definition list_accumulate (header_line : str) (data_start_index : Z)
    (lines : list str) : option (list PackageRecord.t) :=
  let c := list_columns header_line in
  '(apps, current_app) ← list_scan c (slice_from lines data_start_index) [] None;
  Some (list_flush apps current_app).

Definition parse_winget_list_output (output : str)
    : option (list PackageRecord.t) :=
  let lines := splitlines (strip output) in
  if len lines <? 3 then Some []
  else
    match find_header 0 lines with
    | None => Some []
    | Some (header_line, data_start_index) =>
        apps ← list_accumulate header_line data_start_index lines;
        Some (list_validate apps)
    end.

(** * parse_winget_upgrade_output *)

Record UpgradeColumns : Type := mkUpgradeColumns
  { u_name_start : Z; u_id_start : Z; u_version_start : Z;
    u_available_start : Z; u_source_start : Z }.

Definition upgrade_columns (header_line : str) : UpgradeColumns :=
  {| u_name_start := find header_line kw_Name;
     u_id_start := find header_line kw_Id;
     u_version_start := find header_line kw_Version;
     u_available_start := find header_line kw_Available;
     u_source_start := find header_line kw_Source |}.

(** The four slices of a line that starts an entry (lines 80-83). *)
Definition upgrade_name_field (c : UpgradeColumns) (line : str) : str :=
  if u_id_start c >? u_name_start c
  then strip (slice line (u_name_start c) (u_id_start c))
  else strip (slice_from line (u_name_start c)).

Definition upgrade_id_field (c : UpgradeColumns) (line : str) : str :=
  if u_version_start c >? u_id_start c
  then strip (slice line (u_id_start c) (u_version_start c))
  else [].

Definition upgrade_version_field (c : UpgradeColumns) (line : str) : str :=
  if u_available_start c >? u_version_start c
  then strip (slice line (u_version_start c) (u_available_start c))
  else [].

Definition upgrade_available_field (c : UpgradeColumns) (line : str) : str :=
  if u_source_start c >? u_available_start c
  then strip (slice line (u_available_start c) (u_source_start c))
  else strip (slice_from line (u_available_start c)).

Definition upgrade_new_entry (c : UpgradeColumns) (line : str)
    : UpgradeRecord.t :=
  {| UpgradeRecord.name := clean (upgrade_name_field c line);
     UpgradeRecord.id := clean (upgrade_id_field c line);
     UpgradeRecord.current_version :=
       compact (clean (upgrade_version_field c line));
     UpgradeRecord.available_version :=
       compact (clean (upgrade_available_field c line)) |}.

Definition upgrade_flush (apps : list UpgradeRecord.t)
    (current_app : option UpgradeRecord.t) : list UpgradeRecord.t :=
  match current_app with
  | Some app =>
      if truthy (UpgradeRecord.name app)
         && truthy (UpgradeRecord.current_version app)
      then apps ++ [app] else apps
  | None => apps
  end.

Fixpoint upgrade_scan (c : UpgradeColumns) (lines : list str)
    (apps : list UpgradeRecord.t) (current_app : option UpgradeRecord.t)
    : option (list UpgradeRecord.t * option UpgradeRecord.t) :=
  match lines with
  | [] => Some (apps, current_app)
  | line :: rest =>
      if skipped line then upgrade_scan c rest apps current_app
      else
        b ← starts_entry line (u_name_start c);
        if b : bool
        then upgrade_scan c rest (upgrade_flush apps current_app)
               (Some (upgrade_new_entry c line))
        else upgrade_scan c rest apps current_app
  end.

(** The second pass (lines 110-143). *)
Fixpoint upgrade_validate (apps : list UpgradeRecord.t)
    : list UpgradeRecord.t :=
  match apps with
  | [] => []
  | app :: rest =>
      if truthy (UpgradeRecord.name app)
         && truthy (UpgradeRecord.current_version app)
         && truthy (UpgradeRecord.available_version app)
         && (len (UpgradeRecord.name app) >? 1)
      then
        {| UpgradeRecord.name := UpgradeRecord.name app;
           UpgradeRecord.id := UpgradeRecord.id app;
           UpgradeRecord.current_version :=
             cleanup_version (UpgradeRecord.current_version app);
           UpgradeRecord.available_version :=
             cleanup_version (UpgradeRecord.available_version app) |}
        :: upgrade_validate rest
      else upgrade_validate rest
  end.

Definition upgrade_accumulate (header_line : str) (data_start_index : Z)
    (lines : list str) : option (list UpgradeRecord.t) :=
  let c := upgrade_columns header_line in
  '(apps, current_app) ←
     upgrade_scan c (slice_from lines data_start_index) [] None;
  Some (upgrade_flush apps current_app).

Definition parse_winget_upgrade_output (output : str)
    : option (list UpgradeRecord.t) :=
  let lines := splitlines (strip output) in
  if len lines <? 3 then Some []
  else
    match find_header 0 lines with
    | None => Some []
    | Some (header_line, data_start_index) =>
        apps ← upgrade_accumulate header_line data_start_index lines;
        Some (upgrade_validate apps)
    end.

(** * merge_installed_with_upgradable *)

(** The dictionary [upgrade_lookup]: every upgradable record with a
    non-empty id is stored under its id, a later one replacing an earlier
    one with the same id. *)
Definition upgrade_lookup (upgradable_apps : list UpgradeRecord.t)
    : gmap str UpgradeRecord.t :=
  foldl (fun m app =>
           if truthy (UpgradeRecord.id app)
           then <[UpgradeRecord.id app := app]> m else m)
        ∅ upgradable_apps.

(** One turn of the merge loop: the record appended for [app]. *)
Definition merge_app (lookup : gmap str UpgradeRecord.t)
    (app : PackageRecord.t) : ReconciledRecord.t :=
  let app_id := PackageRecord.id app in
  match lookup !! app_id with
  | Some upgrade_info =>
      let current_ver := PackageRecord.current_version app in
      let latest_ver := UpgradeRecord.available_version upgrade_info in
      let update_needed :=
        neqb current_ver latest_ver && neqb latest_ver Unknown
        && neqb current_ver Unknown in
      {| ReconciledRecord.name := PackageRecord.name app;
         ReconciledRecord.id := PackageRecord.id app;
         ReconciledRecord.current_version := PackageRecord.current_version app;
         ReconciledRecord.latest_version := latest_ver;
         ReconciledRecord.update_available := update_needed |}
  | None =>
      {| ReconciledRecord.name := PackageRecord.name app;
         ReconciledRecord.id := PackageRecord.id app;
         ReconciledRecord.current_version := PackageRecord.current_version app;
         ReconciledRecord.latest_version := PackageRecord.current_version app;
         ReconciledRecord.update_available := false |}
  end.

(** The merge loop, appending to [apps_with_latest]. *)
Fixpoint merge_loop (lookup : gmap str UpgradeRecord.t)
    (installed_apps : list PackageRecord.t)
    (apps_with_latest : list ReconciledRecord.t) : list ReconciledRecord.t :=
  match installed_apps with
  | [] => apps_with_latest
  | app :: rest =>
      merge_loop lookup rest (apps_with_latest ++ [merge_app lookup app])
  end.

Definition merge_installed_with_upgradable
    (installed_apps : list PackageRecord.t)
    (upgradable_apps : list UpgradeRecord.t) : list ReconciledRecord.t :=
  merge_loop (upgrade_lookup upgradable_apps) installed_apps [].

(** * The first pass on its own

    The records held by [apps] when the second pass starts: none on the two
    early returns. *)

Definition list_accumulated (output : str) : option (list PackageRecord.t) :=
  let lines := splitlines (strip output) in
  if len lines <? 3 then Some []
  else
    match find_header 0 lines with
    | None => Some []
    | Some (header_line, data_start_index) =>
        list_accumulate header_line data_start_index lines
    end.

Definition upgrade_accumulated (output : str)
    : option (list UpgradeRecord.t) :=
  let lines := splitlines (strip output) in
  if len lines <? 3 then Some []
  else
    match find_header 0 lines with
    | None => Some []
    | Some (header_line, data_start_index) =>
        upgrade_accumulate header_line data_start_index lines
    end.

(** * The version refinement as the specification words it

    Split the cleaned field on whitespace; take the first token that
    contains a dot or that, once its dots and dashes are removed, is a run
    of decimal digits; failing that the first token; failing that the
    string ["Unknown"]. *)

Definition spec_is_digit (c : char) : bool := ((48 <=? c) && (c <=? 57))%N.

Definition spec_token_qualifies (token : str) : bool :=
  existsb (λ c, (c =? ch_dot)%N) token
  || (let stripped :=
        List.filter (λ c, negb ((c =? ch_dot) || (c =? ch_dash))%N) token in
      truthy stripped && forallb spec_is_digit stripped).

Definition spec_refine_version (cleaned_field : str) : str :=
  let tokens := split cleaned_field in
  match List.find spec_token_qualifies tokens with
  | Some token => token
  | None =>
      match tokens with
      | first :: _ => first
      | [] => Unknown
      end
  end.

(** Text made of ASCII characters only. *)
Definition is_ascii (s : str) : Prop := Forall (λ c, (c < 128)%N) s.

(** [part] occurs in [s] as a run of consecutive characters. *)
Definition infix (part s : str) : Prop :=
  ∃ before after, s = before ++ part ++ after.

(** [ls'] has no more lines than [ls], and each of its lines lies within a
    line of [ls]. *)
Definition lines_within (ls' ls : list str) : Prop :=
  (length ls' ≤ length ls)%nat
  ∧ ∀ l', l' ∈ ls' → ∃ l, l ∈ ls ∧ infix l' l.

(** * Sample tables and records *)

Definition nl : str := [10%N].

Definition sample_header : str := lit "Name   Id   Version".
Definition sample_row : str := lit "7-Zip  7zip.7zip  23.01".
Definition sample_rule : str := lit "-------------------".

Definition sample_list : str :=
  sample_header ++ nl ++ sample_rule ++ nl ++ sample_row.

Definition sample_record : PackageRecord.t :=
  PackageRecord.mk (lit "7-Zip") (lit "7zip.") (lit "23.01").

Definition sample_upgrade_table : str :=
  lit "Name     Id       Version  Available  Source" ++ nl
  ++ lit "---------------------------------------------" ++ nl
  ++ lit "Foo Bar  Foo.Bar  1.0      2.0        winget".

Definition sample_upgrade_record : UpgradeRecord.t :=
  UpgradeRecord.mk (lit "Foo Bar") (lit "Foo.Bar") (lit "1.0") (lit "2.0").

(** The same table with a first row that stops before the Available
    column. *)
Definition sample_upgrade_gap : str :=
  lit "Name     Id       Version  Available  Source" ++ nl
  ++ lit "---------------------------------------------" ++ nl
  ++ lit "Old Tool Old.Tool 0.9" ++ nl
  ++ lit "Foo Bar  Foo.Bar  1.0      2.0        winget".

Definition gap_record : UpgradeRecord.t :=
  UpgradeRecord.mk (lit "Old Tool") (lit "Old.Tool") (lit "0.9") [].

(** The record the scenario of the specification expects from
    [sample_list]. *)
Definition expected_sample_record : PackageRecord.t :=
  PackageRecord.mk (lit "7-Zip") (lit "7zip.7zip") (lit "23.01").

(** An upgrade table whose header has no Available column. *)
Definition no_available_header : str :=
  lit "Name     Id       Version  Source".
Definition no_available_row : str :=
  lit "Foo Bar  Foo.Bar  1.0      winget".
Definition no_available_table : str :=
  no_available_header ++ nl ++ lit "--------------------------------" ++ nl
  ++ no_available_row.

(** Headers without Source column, and a row for each. *)
Definition no_source_list_header : str := lit "Name     Id       Version".
Definition no_source_list_row : str := lit "Foo Bar  Foo.Bar  1.0 beta".
Definition no_source_upgrade_header : str :=
  lit "Name     Id       Version  Available".
Definition no_source_upgrade_row : str :=
  lit "Foo Bar  Foo.Bar  1.0      2.0 rc1".

(** A header and one row, without separator line: two lines. *)
Definition two_line_table : str :=
  lit "Name     Id       Version" ++ nl ++ lit "Foo Bar  Foo.Bar  1.0".

(** The same two lines inside blank ones. *)
Definition padded_two_line_table : str :=
  nl ++ nl ++ two_line_table ++ nl ++ nl.

(** A table whose header is not in English. *)
Definition no_header_table : str :=
  lit "Nom      Id       Version" ++ nl
  ++ lit "------------------------" ++ nl
  ++ lit "Foo Bar  Foo.Bar  1.0".

Definition hit_app : PackageRecord.t :=
  PackageRecord.mk (lit "Foo") (lit "Foo.Bar") (lit "1.0").

Definition hit_upgrade : UpgradeRecord.t :=
  UpgradeRecord.mk (lit "Foo") (lit "Foo.Bar") (lit "1.0") (lit "2.0").

Definition other_upgrade : UpgradeRecord.t :=
  UpgradeRecord.mk (lit "Baz") (lit "Baz.Qux") (lit "3.1") (lit "3.2").

(** An upgradable record without id: never stored in the dictionary. *)
Definition anonymous_upgrade : UpgradeRecord.t :=
  UpgradeRecord.mk (lit "Nameless") [] (lit "0.1") (lit "0.2").

Definition anonymous_app : PackageRecord.t :=
  PackageRecord.mk (lit "Local tool") [] (lit "0.1").

(** The installed record a merged record was built from. *)
Definition installed_part (r : ReconciledRecord.t) : PackageRecord.t :=
  {| PackageRecord.name := ReconciledRecord.name r;
     PackageRecord.id := ReconciledRecord.id r;
     PackageRecord.current_version := ReconciledRecord.current_version r |}.

(** * The commands and main

    [subprocess.run(..., check=True)] either completes and gives the text
    the command printed, or raises [CalledProcessError] when the command
    exits with an error, or raises something else (the program is missing,
    its output cannot be decoded).  [get_installed_apps] and
    [get_upgradable_apps] catch [CalledProcessError] only and then answer
    [None]. *)

Inductive run_outcome : Type :=
  | Completed (stdout : str)
  | CalledProcessError
  | OtherException.

(** The outer [option] is the exception that escapes, the inner one
    Python's [None]. *)
Definition get_installed_apps (winget_list : run_outcome)
    : option (option str) :=
  match winget_list with
  | Completed stdout => Some (Some stdout)
  | CalledProcessError => Some None
  | OtherException => None
  end.

Definition get_upgradable_apps (winget_upgrade : run_outcome)
    : option (option str) :=
  match winget_upgrade with
  | Completed stdout => Some (Some stdout)
  | CalledProcessError => Some None
  | OtherException => None
  end.

(** The loop of lines 293-299: every app without update information. *)
Fixpoint without_update_info (all_apps : list PackageRecord.t)
    (apps_with_latest : list ReconciledRecord.t) : list ReconciledRecord.t :=
  match all_apps with
  | [] => apps_with_latest
  | app :: rest =>
      without_update_info rest
        (apps_with_latest ++
         [{| ReconciledRecord.name := PackageRecord.name app;
             ReconciledRecord.id := PackageRecord.id app;
             ReconciledRecord.current_version :=
               PackageRecord.current_version app;
             ReconciledRecord.latest_version :=
               PackageRecord.current_version app;
             ReconciledRecord.update_available := false |}])
  end.

(** [main]: the value it hands to [json.dumps], given what the two commands
    do; the upgrade command is run only when the installed apps were
    parsed. *)
Definition main (winget_list winget_upgrade : run_outcome)
    : option (list ReconciledRecord.t) :=
  installed ← get_installed_apps winget_list;
  match installed with
  | None => Some []
  | Some installed_text =>
      if negb (truthy installed_text) then Some []
      else
        all_apps ← parse_winget_list_output installed_text;
        match all_apps with
        | [] => Some []
        | _ :: _ =>
            upgradable ← get_upgradable_apps winget_upgrade;
            match upgradable with
            | None => Some (without_update_info all_apps [])
            | Some upgradable_text =>
                if negb (truthy upgradable_text)
                then Some (without_update_info all_apps [])
                else
                  outdated_apps ← parse_winget_upgrade_output upgradable_text;
                  Some (merge_installed_with_upgradable all_apps
                          outdated_apps)
            end
        end
  end.

(** An installed table with two rows, the first of which is in
    [sample_upgrade_table]. *)
Definition sample_installed_table : str :=
  lit "Name     Id       Version" ++ nl
  ++ lit "------------------------" ++ nl
  ++ lit "Foo Bar  Foo.Bar  1.0" ++ nl
  ++ lit "Baz      Baz.Qux  3.1".

Definition sample_installed_records : list PackageRecord.t :=
  [ PackageRecord.mk (lit "Foo Bar") (lit "Foo.Bar") (lit "1.0");
    PackageRecord.mk (lit "Baz") (lit "Baz.Qux") (lit "3.1") ].

Definition sample_reconciled_outdated : ReconciledRecord.t :=
  ReconciledRecord.mk (lit "Foo Bar") (lit "Foo.Bar") (lit "1.0")
    (lit "2.0") true.

Definition sample_reconciled_current : ReconciledRecord.t :=
  ReconciledRecord.mk (lit "Baz") (lit "Baz.Qux") (lit "3.1")
    (lit "3.1") false.

(** A version as the parsers return it: one non-empty word of ASCII
    characters. *)
Definition is_token (s : str) : Prop :=
  s ≠ [] ∧ is_ascii s ∧ Forall (λ c, isspace c = false) s.

(** One when an entry is being held by the loop. *)
Definition pending {A} (current_app : option A) : nat :=
  match current_app with Some _ => 1 | None => 0 end.


(** * Tables laid out in columns

    The layout the parsers are written for: every field starts at the
    offset of its keyword in the header line and is filled up with spaces
    to the width of its column. *)

Definition pad (width : nat) (field : str) : str :=
  field ++ repeat ch_space (width - length field).

(** Printable ASCII characters, the space included. *)
Definition printable (s : str) : bool :=
  forallb (λ c, (32 <=? c) && (c <=? 126))%N s.

(** No space at either end. *)
Definition trimmed (s : str) : bool :=
  match s with
  | [] => true
  | c :: _ => negb (c =? ch_space)%N && negb (List.last s c =? ch_space)%N
  end.

(** One non-empty word of printable characters. *)
Definition word (s : str) : bool :=
  truthy s && forallb (λ c, (33 <=? c) && (c <=? 126))%N s.

(** A line that holds no line boundary. *)
Definition one_line (s : str) : bool :=
  forallb (λ c, negb (islinebreak c)) s.

Definition list_table_header (w1 w2 : nat) : str :=
  pad w1 kw_Name ++ pad w2 kw_Id ++ kw_Version.

Definition list_table_row (w1 w2 : nat) (r : PackageRecord.t) : str :=
  pad w1 (PackageRecord.name r) ++ pad w2 (PackageRecord.id r)
  ++ PackageRecord.current_version r.

Definition list_table (w1 w2 : nat) (rule : str)
    (rows : list PackageRecord.t) : str :=
  join nl (list_table_header w1 w2 :: rule
           :: List.map (list_table_row w1 w2) rows).

(** What a row must be like to be read back: a name of two characters at
    least that does not start with a dash, name and id within their
    columns and without space at either end, a version of one word. *)
Definition list_row_ok (w1 w2 : nat) (r : PackageRecord.t) : bool :=
  printable (PackageRecord.name r) && trimmed (PackageRecord.name r)
  && (2 <=? length (PackageRecord.name r))%nat
  && (length (PackageRecord.name r) <=? w1)%nat
  && negb (startswith (PackageRecord.name r) [ch_dash])
  && printable (PackageRecord.id r) && trimmed (PackageRecord.id r)
  && (length (PackageRecord.id r) <=? w2)%nat
  && word (PackageRecord.current_version r).

Definition upgrade_table_header (w1 w2 w3 w4 : nat) : str :=
  pad w1 kw_Name ++ pad w2 kw_Id ++ pad w3 kw_Version
  ++ pad w4 kw_Available ++ kw_Source.

Definition upgrade_table_row (w1 w2 w3 w4 : nat) (source : str)
    (r : UpgradeRecord.t) : str :=
  pad w1 (UpgradeRecord.name r) ++ pad w2 (UpgradeRecord.id r)
  ++ pad w3 (UpgradeRecord.current_version r)
  ++ pad w4 (UpgradeRecord.available_version r) ++ source.

Definition upgrade_table (w1 w2 w3 w4 : nat) (rule source : str)
    (rows : list UpgradeRecord.t) : str :=
  join nl (upgrade_table_header w1 w2 w3 w4 :: rule
           :: List.map (upgrade_table_row w1 w2 w3 w4 source) rows).

Definition upgrade_row_ok (w1 w2 w3 w4 : nat) (r : UpgradeRecord.t) : bool :=
  printable (UpgradeRecord.name r) && trimmed (UpgradeRecord.name r)
  && (2 <=? length (UpgradeRecord.name r))%nat
  && (length (UpgradeRecord.name r) <=? w1)%nat
  && negb (startswith (UpgradeRecord.name r) [ch_dash])
  && printable (UpgradeRecord.id r) && trimmed (UpgradeRecord.id r)
  && (length (UpgradeRecord.id r) <=? w2)%nat
  && word (UpgradeRecord.current_version r)
  && (length (UpgradeRecord.current_version r) <=? w3)%nat
  && word (UpgradeRecord.available_version r)
  && (length (UpgradeRecord.available_version r) <=? w4)%nat.

(** * get_download_url.py: extract_download_url

    The function reads what [winget show] printed, or [None] when the
    command failed, and answers the URL of the home page or of the
    download, or [None]. *)

Definition kw_Homepage : str := lit "Homepage:".
Definition kw_Download_URL : str := lit "Download URL:".
Definition not_available : str := lit "N/A".
Definition ch_colon : char := 58%N.

(** [s.split(sep, 1)] for a separator of one character: the text before
    the first separator and the text after it, or the text alone. *)
Fixpoint split_once_from (sep : char) (acc s : str) : list str :=
  match s with
  | [] => [rev acc]
  | c :: t =>
      if (c =? sep)%N then [rev acc; t]
      else split_once_from sep (c :: acc) t
  end.

Definition split_once (sep : char) (s : str) : list str :=
  split_once_from sep [] s.

(** [line.split(":", 1)[1].strip()]; the index raises when the line has no
    colon. *)
Definition url_after_colon (line : str) : option str :=
  part ← getitem (split_once ch_colon line) 1; Some (strip part).

(** The first loop (lines 41-48): [Some (Some url)] is the [break] with
    [download_url = url], [Some None] the end of the loop. *)
Fixpoint scan_labelled (lines : list str) : option (option str) :=
  match lines with
  | [] => Some None
  | line :: rest =>
      let line := strip line in
      if startswith line kw_Homepage || startswith line kw_Download_URL
      then
        url ← url_after_colon line;
        if truthy url && neqb url not_available then Some (Some url)
        else scan_labelled rest
      else scan_labelled rest
  end.

(** The second loop (lines 52-58). *)
Fixpoint scan_homepage (lines : list str) : option (option str) :=
  match lines with
  | [] => Some None
  | line :: rest =>
      let line := strip line in
      if startswith line kw_Homepage
      then
        url ← url_after_colon line;
        if truthy url && neqb url not_available then Some (Some url)
        else scan_homepage rest
      else scan_homepage rest
  end.

Definition extract_download_url (app_info : option str)
    : option (option str) :=
  match app_info with
  | None => Some None
  | Some info =>
      if negb (truthy info) then Some None
      else
        let lines := splitlines info in
        download_url ← scan_labelled lines;
        match download_url with
        | Some url =>
            if truthy url then Some (Some url) else scan_homepage lines
        | None => scan_homepage lines
        end
  end.

(** The URL a line shows, if any: the line, stripped, starts with one of
    the two labels and what follows the label, stripped, is neither empty
    nor ["N/A"]. *)
Definition shown_url (line : str) : option str :=
  let line := strip line in
  let after (label : str) :=
    let url := strip (skipn (length label) line) in
    if truthy url && neqb url not_available then Some url else None in
  if startswith line kw_Homepage then after kw_Homepage
  else if startswith line kw_Download_URL then after kw_Download_URL
  else None.

(** The first URL shown by a line of the list. *)
Fixpoint first_shown_url (lines : list str) : option str :=
  match lines with
  | [] => None
  | line :: rest =>
      match shown_url line with
      | Some url => Some url
      | None => first_shown_url rest
      end
  end.

(** What [winget show] prints for an app, reduced to three lines. *)
Definition sample_app_info : str :=
  lit "Found 7-Zip [7zip.7zip]" ++ nl
  ++ lit "Version: 23.01" ++ nl
  ++ lit "  Homepage: https://www.7-zip.org/".

(** * Commands run and statuses sent

    The agents and the installer scripts run commands with
    [subprocess.run(..., check=True)] and post status updates.  Their
    functions are modelled as actions on a log of these two kinds of
    events; an action ends with a value or with an exception.  What the
    functions print is left out, printing being taken to succeed. *)

Inductive exn : Type :=
  | CalledProcessErrorExn (stdout stderr : str)
  | TimeoutExpiredExn
  | FileNotFoundExn (message : str)
  | OtherExn (message : str).

Inductive event : Type :=
  | Ran (command : list str)
  | Sent (status message : str).

(** What running a command does: it completes with exit status 0 and the
    text it printed, or [subprocess.run] raises. *)
Definition runner : Type := list str → str + exn.

Definition action (A : Type) : Type := list event → (A + exn) * list event.

#[global] Instance action_ret : MRet action := λ A x log, (inl x, log).

#[global] Instance action_bind : MBind action := λ A B f m log,
  match m log with
  | (inl x, log') => f x log'
  | (inr e, log') => (inr e, log')
  end.

(** [subprocess.run(command, capture_output=True, text=True, check=True)] *)
Definition subprocess_run (run : runner) (command : list str) : action str :=
  λ log, (run command, log ++ [Ran command]).

(** [self.send_status(status, message)]: the update is posted; whatever
    happens to the request is caught inside. *)
Definition send_status (status message : str) : action unit :=
  λ log, (inl tt, log ++ [Sent status message]).

(** [try: body except ...: handler]: [handler e] is [None] when no
    [except] clause catches [e]. *)
Definition try_except {A} (body : action A)
    (handler : exn → option (action A)) : action A :=
  λ log,
    match body log with
    | (inl x, log') => (inl x, log')
    | (inr e, log') =>
        match handler e with
        | Some h => h log'
        | None => (inr e, log')
        end
    end.

Definition st_INSTALLING : str := lit "INSTALLING".
Definition st_SUCCESS : str := lit "SUCCESS".
Definition st_FAILED : str := lit "FAILED".
Definition m_WINGET : str := lit "WINGET".
Definition m_CHOCOLATEY : str := lit "CHOCOLATEY".
Definition m_APT : str := lit "APT".
Definition m_BREW : str := lit "BREW".
Definition m_MANUAL : str := lit "MANUAL".
Definition sys_WINDOWS : str := lit "WINDOWS".
Definition sys_LINUX : str := lit "LINUX".
Definition sys_MACOS : str := lit "MACOS".

(** * auto_agent.py: AutoAgent.install_application *)


Definition winget_command (verb flag app_id : str) : list str :=
  [lit "winget"; verb; flag; app_id;
   lit "--accept-source-agreements"; lit "--accept-package-agreements"].

Definition winget_upgrade_command (flag app_id : str) : list str :=
  winget_command (lit "upgrade") flag app_id.

Definition choco_upgrade_command (app_id : str) : list str :=
  [lit "choco"; lit "upgrade"; app_id; lit "-y"].

Definition install_application (run : runner)
    (app_name app_id installation_method : str) : action bool :=
  _ ← send_status st_INSTALLING (lit "Installing " ++ app_name);
  try_except
    (if bool_decide (installation_method = m_WINGET) then
       try_except
         (_ ← subprocess_run run (winget_upgrade_command (lit "--id") app_id);
          _ ← send_status st_SUCCESS
                (lit "Successfully installed " ++ app_name);
          mret true)
         (λ e, match e with
               | CalledProcessErrorExn _ _ =>
                   Some
                     (_ ← subprocess_run run
                            (winget_upgrade_command (lit "--name") app_id);
                      _ ← send_status st_SUCCESS
                            (lit "Successfully installed " ++ app_name);
                      mret true)
               | _ => None
               end)
     else if bool_decide (installation_method = m_CHOCOLATEY) then
       _ ← subprocess_run run (choco_upgrade_command app_id);
       _ ← send_status st_SUCCESS
             (lit "Successfully installed " ++ app_name
              ++ lit " via Chocolatey");
       mret true
     else
       _ ← send_status st_FAILED
             (lit "Unsupported installation method: " ++ installation_method);
       mret false)
    (λ e, Some
       match e with
       | TimeoutExpiredExn =>
           _ ← send_status st_FAILED
                 (lit "Installation timed out for " ++ app_name);
           mret false
       | CalledProcessErrorExn _ _ =>
           _ ← send_status st_FAILED
                 (lit "Installation failed for " ++ app_name);
           mret false
       | _ =>
           _ ← send_status st_FAILED
                 (lit "Unexpected error installing " ++ app_name);
           mret false
       end).

(** A runner for the examples: [winget upgrade --id] exits with an error,
    everything else completes. *)
Definition sample_runner : runner :=
  λ command,
    if bool_decide (command !! 2%nat = Some (lit "--id"))
    then inr (CalledProcessErrorExn [] (lit "No package found"))
    else inl (lit "ok").

(** * install_update.py: install_app_update

    The dictionary returned has one of two shapes: [success] true with
    [message] and [output], or [success] false with [error] and
    [details].  [str_e] stands for Python's [str(e)]. *)




(** * get_download_url.py: get_app_info and get_download_url *)

Definition winget_show_command (flag app_id : str) : list str :=
  [lit "winget"; lit "show"; flag; app_id].

Definition get_app_info (run : runner) (app_id : str) : action (option str) :=
  try_except
    (stdout ← subprocess_run run (winget_show_command (lit "--id") app_id);
     mret (Some stdout))
    (λ e,
       match e with
       | CalledProcessErrorExn _ _ =>
           Some
             (try_except
                (stdout ← subprocess_run run
                            (winget_show_command (lit "--name") app_id);
                 mret (Some stdout))
                (λ e,
                   match e with
                   | CalledProcessErrorExn _ _ => Some (mret None)
                   | _ => None
                   end))
       | _ => None
       end).

(** The two shapes of the dictionary [get_download_url] returns. *)
Inductive download_result : Type :=
  | Shown (app_id : str) (download_url : option str) (message : str)
  | NotShown (app_id : str) (error : str).

(** A pure function that raised, inside an action. *)
Definition raised_or {A} (result : option A) : action A :=
  λ log,
    match result with
    | Some x => (inl x, log)
    | None => (inr (OtherExn (lit "list index out of range")), log)
    end.

Definition get_download_url (str_e : exn → str) (run : runner)
    (app_id : str) : action download_result :=
  try_except
    (app_info ← get_app_info run app_id;
     if match app_info with Some info => truthy info | None => false end
     then
       download_url ← raised_or (extract_download_url app_info);
       mret (Shown app_id download_url
               (if match download_url with
                   | Some url => truthy url
                   | None => false
                   end
                then lit "Download URL found for " ++ app_id
                else lit "No download URL found for " ++ app_id))
     else
       mret (NotShown app_id
               (lit "Could not find app information for " ++ app_id)))
    (λ e,
       Some
         (mret
            (NotShown app_id
               (lit "Error getting download URL for " ++ app_id ++ lit ": "
                ++ str_e e)))).

(** * remote_agent.py: what the agent advertises and what it dispatches *)

Definition detect_system (platform_system_upper : str) : str :=
  if bool_decide (platform_system_upper = sys_WINDOWS) then sys_WINDOWS
  else if bool_decide (platform_system_upper = sys_LINUX) then sys_LINUX
  else if bool_decide (platform_system_upper = lit "DARWIN") then sys_MACOS
  else lit "UNKNOWN".

Definition check_command (run : runner) (command : str) : action bool :=
  try_except
    (_ ← subprocess_run run [command; lit "--version"]; mret true)
    (λ e,
       match e with
       | CalledProcessErrorExn _ _ | FileNotFoundExn _ | TimeoutExpiredExn =>
           Some (mret false)
       | OtherExn _ => None
       end).

(** [if found: capabilities.append(capability)] *)
Definition appended_if (found : bool) (capability : str) : list str :=
  if found then [capability] else [].

Definition detect_capabilities (run : runner) (system : str)
    : action (list str) :=
  capabilities ←
    (if bool_decide (system = sys_WINDOWS) then
       winget ← check_command run (lit "winget");
       choco ← check_command run (lit "choco");
       mret (appended_if winget m_WINGET ++ appended_if choco m_CHOCOLATEY)
     else if bool_decide (system = sys_LINUX) then
       apt ← check_command run (lit "apt");
       brew ← check_command run (lit "brew");
       mret (appended_if apt m_APT ++ appended_if brew m_BREW)
     else if bool_decide (system = sys_MACOS) then
       brew ← check_command run (lit "brew");
       mret (appended_if brew m_BREW)
     else mret []);
  mret (capabilities ++ [m_MANUAL]).

(** The methods [execute_installation] can hand a request to. *)
Inductive installer : Type :=
  | install_with_winget
  | install_with_chocolatey
  | install_with_apt
  | install_with_brew
  | install_manual.

(** The [if]/[elif] chain of [execute_installation] (lines 123-134): the
    method a request is handed to, [None] for the final [else], which
    only sets the error text. *)
Definition installer_for (installation_method system : str)
    : option installer :=
  if bool_decide (installation_method = m_WINGET)
     && bool_decide (system = sys_WINDOWS) then Some install_with_winget
  else if bool_decide (installation_method = m_CHOCOLATEY)
          && bool_decide (system = sys_WINDOWS)
  then Some install_with_chocolatey
  else if bool_decide (installation_method = m_APT)
          && bool_decide (system = sys_LINUX) then Some install_with_apt
  else if bool_decide (installation_method = m_BREW)
  then Some install_with_brew
  else if bool_decide (installation_method = m_MANUAL)
  then Some install_manual
  else None.

(** The capability under which each method is advertised. *)
Definition installer_capability (i : installer) : str :=
  match i with
  | install_with_winget => m_WINGET
  | install_with_chocolatey => m_CHOCOLATEY
  | install_with_apt => m_APT
  | install_with_brew => m_BREW
  | install_manual => m_MANUAL
  end.

(** * The string operations on small inputs *)

Example splitlines_crlf :
  splitlines (lit "a" ++ [13; 10; 10]%N ++ lit "b" ++ nl)
  = [lit "a"; []; lit "b"].
Proof. reflexivity. Qed.

Example splitlines_mixed :
  splitlines (lit "a" ++ [13%N] ++ lit "b" ++ [13; 10]%N ++ lit "c"
              ++ [10; 13]%N ++ lit "d")
  = [lit "a"; lit "b"; lit "c"; []; lit "d"].
Proof. reflexivity. Qed.

Example splitlines_empty : splitlines [] = [] ∧ splitlines nl = [[]].
Proof. split; reflexivity. Qed.

Example split_runs :
  split (lit "  a " ++ [9%N] ++ lit " b" ++ nl) = [lit "a"; lit "b"].
Proof. reflexivity. Qed.

Example strip_both_ends :
  strip (lit " " ++ [9%N] ++ lit " a b " ++ nl) = lit "a b".
Proof. reflexivity. Qed.

Example find_first :
  find (lit "Name   Id") (lit "Id") = 7 ∧ find (lit "abc") (lit "x") = -1.
Proof. split; reflexivity. Qed.

Example slice_bounds :
  slice (lit "abcdef") 2 4 = lit "cd"
  ∧ slice (lit "abcdef") 4 2 = []
  ∧ slice (lit "abcdef") (-3) (-1) = lit "de"
  ∧ slice (lit "ab") 7 9 = []
  ∧ slice_from (lit "abc") (-1) = lit "c"
  ∧ slice_from (lit "abc") 5 = [].
Proof. repeat split; reflexivity. Qed.

Example getitem_range :
  getitem (lit "abc") 2 = Some 99%N ∧ getitem (lit "abc") 3 = None
  ∧ getitem (lit "abc") (-1) = Some 99%N ∧ getitem (lit "abc") (-4) = None.
Proof. repeat split; reflexivity. Qed.

Example looks_like_version_samples :
  looks_like_version (lit "23.01") = true
  ∧ looks_like_version (lit "1-2") = true
  ∧ looks_like_version (lit "-") = false
  ∧ looks_like_version (lit "7zip") = false.
Proof. repeat split; reflexivity. Qed.

(** The broken bar between two versions goes with the other non-ASCII
    characters, and the first dotted token is selected. *)
Example cleanup_broken_bar :
  cleanup_version
    (compact (clean (lit "1.2.0 " ++ [ch_bar] ++ lit " 1.2.1")))
  = lit "1.2.0".
Proof. reflexivity. Qed.

(** * Lemmas on the string operations *)

Section StringLemmas.

Implicit Types (s t acc sub : str) (c : char).

Lemma Forall_rev_iff {A} (P : A → Prop) (l : list A) :
  Forall P (rev l) ↔ Forall P l.
Proof.
  rewrite !Forall_forall. split; intros H x Hx; apply H;
    apply list_elem_of_In; apply list_elem_of_In in Hx.
  - by apply in_rev in Hx.
  - by apply in_rev.
Qed.

Lemma rev_nonempty t : t ≠ [] → ∃ a r, rev t = a :: r.
Proof.
  intros Hne. destruct (rev t) as [|a r] eqn:Hr; [|eauto].
  apply (f_equal (@length _)) in Hr. rewrite length_rev in Hr.
  destruct t; [done | discriminate].
Qed.

Lemma rev_cons_nonempty (a : char) acc : rev (a :: acc) ≠ [].
Proof. simpl. by destruct (rev acc). Qed.

Lemma lstrip_decomp s :
  ∃ ws, s = ws ++ lstrip s ∧ Forall (λ c, isspace c = true) ws.
Proof.
  induction s as [|c s IH]; simpl.
  - exists []. split; [done | constructor].
  - destruct (isspace c) eqn:Hc.
    + destruct IH as (ws & Heq & Hws). exists (c :: ws). split.
      * simpl. by rewrite <- Heq.
      * by constructor.
    + exists []. split; [done | constructor].
Qed.

Lemma rstrip_decomp s :
  ∃ ws, s = rstrip s ++ ws ∧ Forall (λ c, isspace c = true) ws.
Proof.
  destruct (lstrip_decomp (rev s)) as (ws & Heq & Hws).
  exists (rev ws). split; [|by apply Forall_rev_iff].
  unfold rstrip. rewrite <- rev_app_distr, <- Heq. by rewrite rev_involutive.
Qed.

Lemma split_from_ws acc ws :
  Forall (λ c, isspace c = true) ws → split_from acc ws = split_from acc [].
Proof.
  intros Hws. revert acc. induction Hws as [|c ws Hc _ IH]; intros acc; [done|].
  simpl. rewrite Hc. destruct acc; [apply (IH [])|].
  by rewrite (IH []).
Qed.

Lemma split_from_app_ws acc s ws :
  Forall (λ c, isspace c = true) ws →
  split_from acc (s ++ ws) = split_from acc s.
Proof.
  intros Hws. revert acc. induction s as [|c s IH]; intros acc.
  - by apply split_from_ws.
  - simpl. destruct (isspace c); [|apply IH].
    destruct acc; by rewrite IH.
Qed.

Lemma split_lstrip s : split (lstrip s) = split s.
Proof.
  unfold split. induction s as [|c s IH]; [done|].
  simpl. destruct (isspace c) eqn:Hc; [done|].
  simpl. by rewrite Hc.
Qed.

Lemma split_rstrip s : split (rstrip s) = split s.
Proof.
  destruct (rstrip_decomp s) as (ws & Heq & Hws).
  rewrite Heq at 2. unfold split. by rewrite split_from_app_ws.
Qed.

Lemma split_strip s : split (strip s) = split s.
Proof. unfold strip. by rewrite split_rstrip, split_lstrip. Qed.

(** Tokens are non-empty and free of whitespace. *)
Lemma split_from_tokens acc s :
  Forall (λ c, isspace c = false) acc →
  Forall (λ t, t ≠ [] ∧ Forall (λ c, isspace c = false) t) (split_from acc s).
Proof.
  revert acc. induction s as [|c s IH]; intros acc Hacc; cbn [split_from].
  - destruct acc as [|a acc]; repeat constructor.
    + apply rev_cons_nonempty.
    + by apply Forall_rev_iff.
  - destruct (isspace c) eqn:Hc; [|apply IH; by constructor].
    destruct acc as [|a acc]; [apply IH; constructor|].
    constructor; [|apply IH; constructor].
    split; [apply rev_cons_nonempty | by apply Forall_rev_iff].
Qed.

Lemma split_tokens s :
  Forall (λ t, t ≠ [] ∧ Forall (λ c, isspace c = false) t) (split s).
Proof. apply split_from_tokens. constructor. Qed.

Lemma split_from_app_token acc t s :
  Forall (λ c, isspace c = false) t →
  split_from acc (t ++ s) = split_from (rev t ++ acc) s.
Proof.
  intros Ht. revert acc. induction Ht as [|c t Hc _ IH]; intros acc; [done|].
  simpl. rewrite Hc, IH. by rewrite <- app_assoc.
Qed.

(** Splitting the space-joined tokens gives the tokens back. *)
Lemma split_join toks :
  Forall (λ t, t ≠ [] ∧ Forall (λ c, isspace c = false) t) toks →
  split (join [ch_space] toks) = toks.
Proof.
  unfold split. induction 1 as [|t toks [Hne Ht] Htoks IH]; [done|].
  destruct (rev_nonempty t Hne) as (a & r & Hr).
  assert (rev (a :: r) = t) as Ht'. { by rewrite <- Hr, rev_involutive. }
  destruct toks as [|t' toks].
  - simpl. rewrite <- (app_nil_r t) at 1.
    rewrite split_from_app_token by done.
    rewrite app_nil_r, Hr. cbn [split_from]. by rewrite Ht'.
  - change (join [ch_space] (t :: t' :: toks))
      with (t ++ ch_space :: join [ch_space] (t' :: toks)).
    rewrite split_from_app_token by done.
    rewrite app_nil_r, Hr. cbn [split_from].
    change (isspace ch_space) with true. cbn iota.
    by rewrite IH, Ht'.
Qed.

Lemma split_compact s : split (compact s) = split s.
Proof. unfold compact. apply split_join, split_tokens. Qed.

Lemma find_from_found i sub s :
  contains sub s = true → i ≤ find_from i sub s.
Proof.
  revert i. induction s as [|c s IH]; intros i; cbn [contains find_from].
  - destruct (startswith [] sub); [lia | done].
  - destruct (startswith (c :: s) sub); cbn [orb]; [lia|].
    intros H. specialize (IH (i + 1) H). lia.
Qed.

Lemma find_from_absent i sub s :
  contains sub s = false → find_from i sub s = -1.
Proof.
  revert i. induction s as [|c s IH]; intros i; cbn [contains find_from].
  - by destruct (startswith [] sub).
  - destruct (startswith (c :: s) sub); cbn [orb]; [done | apply IH].
Qed.

Lemma find_from_lower i sub s : -1 ≤ i → -1 ≤ find_from i sub s.
Proof.
  revert i. induction s as [|c s IH]; intros i Hi; cbn [find_from].
  - destruct (startswith [] sub); lia.
  - destruct (startswith (c :: s) sub); [lia | apply IH; lia].
Qed.

(** [sub in s] holds exactly when [s.find(sub)] is an offset. *)
Lemma find_found s sub : contains sub s = true → 0 ≤ find s sub.
Proof. apply find_from_found. Qed.

Lemma find_absent s sub : contains sub s = false → find s sub = -1.
Proof. apply find_from_absent. Qed.

Lemma find_lower s sub : -1 ≤ find s sub.
Proof. apply find_from_lower. lia. Qed.

Lemma getitem_in_range {A} (s : list A) i :
  0 ≤ i → i < len s → is_Some (getitem s i).
Proof.
  intros H0 Hlt. unfold getitem. cbv zeta.
  destruct (Z.ltb_spec i 0) as [?|_]; [lia|].
  destruct (Z.ltb_spec i 0) as [?|_]; [lia|].
  destruct (Z.leb_spec (len s) i) as [?|_]; [lia|]. cbn [orb].
  destruct (nth_error s (Z.to_nat i)) as [a|] eqn:Hn; [by exists a|].
  apply nth_error_None in Hn. unfold len in Hlt. lia.
Qed.

Lemma slice_from_nonneg {A} (s : list A) i :
  0 ≤ i → slice_from s i = skipn (Z.to_nat i) s.
Proof.
  intros Hi. unfold slice_from, slice_bound.
  destruct (i <? 0) eqn:Hneg; [lia|].
  destruct (Z.min_spec i (len s)) as [[_ ->]|[Hle ->]]; [done|].
  unfold len in *. rewrite Nat2Z.id.
  rewrite !skipn_all2; [done | lia | lia].
Qed.

End StringLemmas.

(** * The parsers raise no exception *)

Lemma starts_entry_total line name_start :
  0 ≤ name_start → is_Some (starts_entry line name_start).
Proof.
  intros H0. unfold starts_entry.
  destruct (len line >? name_start) eqn:Hlen; [|eauto].
  destruct (getitem_in_range line name_start) as [c Hc]; [lia | lia |].
  rewrite Hc. simpl. eauto.
Qed.

Lemma list_scan_total c lines apps current_app :
  0 ≤ l_name_start c → is_Some (list_scan c lines apps current_app).
Proof.
  intros H0. revert apps current_app.
  induction lines as [|line rest IH]; intros apps current_app; simpl; [eauto|].
  destruct (skipped line); [apply IH|].
  destruct (starts_entry_total line _ H0) as [b ->]. simpl.
  destruct b; apply IH.
Qed.

Lemma upgrade_scan_total c lines apps current_app :
  0 ≤ u_name_start c → is_Some (upgrade_scan c lines apps current_app).
Proof.
  intros H0. revert apps current_app.
  induction lines as [|line rest IH]; intros apps current_app; simpl; [eauto|].
  destruct (skipped line); [apply IH|].
  destruct (starts_entry_total line _ H0) as [b ->]. simpl.
  destruct b; apply IH.
Qed.

Lemma find_header_is_header i lines header_line data_start_index :
  find_header i lines = Some (header_line, data_start_index) →
  is_header header_line = true ∧ header_line ∈ lines.
Proof.
  revert i. induction lines as [|line rest IH]; intros i; simpl; [done|].
  destruct (is_header line) eqn:Hh.
  - intros [= <- <-]. split; [done | left].
  - intros H. destruct (IH _ H). split; [done | by right].
Qed.

Lemma find_header_index i lines header_line data_start_index :
  find_header i lines = Some (header_line, data_start_index) →
  i + 2 ≤ data_start_index.
Proof.
  revert i. induction lines as [|line rest IH]; intros i; simpl; [done|].
  destruct (is_header line).
  - intros [= <- <-]. lia.
  - intros H. apply IH in H. lia.
Qed.

Lemma is_header_name_start header_line :
  is_header header_line = true → 0 ≤ find header_line kw_Name.
Proof.
  unfold is_header. rewrite !andb_true_iff. intros [[H _] _].
  by apply find_found.
Qed.

Lemma list_accumulate_total header_line data_start_index lines :
  is_header header_line = true →
  is_Some (list_accumulate header_line data_start_index lines).
Proof.
  intros Hh. unfold list_accumulate.
  destruct (list_scan_total (list_columns header_line)
              (slice_from lines data_start_index) [] None) as [[apps cur] ->].
  - simpl. by apply is_header_name_start.
  - simpl. eauto.
Qed.

Lemma upgrade_accumulate_total header_line data_start_index lines :
  is_header header_line = true →
  is_Some (upgrade_accumulate header_line data_start_index lines).
Proof.
  intros Hh. unfold upgrade_accumulate.
  destruct (upgrade_scan_total (upgrade_columns header_line)
              (slice_from lines data_start_index) [] None) as [[apps cur] ->].
  - simpl. by apply is_header_name_start.
  - simpl. eauto.
Qed.

(** C9.  For every input text both parsers return a sequence of records:
    the only operation of theirs that can raise, the index
    [line[name_start]], is always in range, and every loop is a traversal of
    a finite list. *)
Theorem parsers_never_raise (output : str) :
  (∃ records, parse_winget_list_output output = Some records)
  ∧ (∃ records, parse_winget_upgrade_output output = Some records).
Proof.
  split.
  - unfold parse_winget_list_output.
    destruct (len (splitlines (strip output)) <? 3); [eauto|].
    destruct (find_header 0 (splitlines (strip output)))
      as [[header_line data_start_index]|] eqn:Hfind; [|eauto].
    apply find_header_is_header in Hfind as [Hh _].
    destruct (list_accumulate_total header_line data_start_index
                (splitlines (strip output)) Hh) as [apps ->].
    simpl. eauto.
  - unfold parse_winget_upgrade_output.
    destruct (len (splitlines (strip output)) <? 3); [eauto|].
    destruct (find_header 0 (splitlines (strip output)))
      as [[header_line data_start_index]|] eqn:Hfind; [|eauto].
    apply find_header_is_header in Hfind as [Hh _].
    destruct (upgrade_accumulate_total header_line data_start_index
                (splitlines (strip output)) Hh) as [apps ->].
    simpl. eauto.
Qed.

(** * The reconciler *)

Lemma merge_loop_map lookup installed_apps apps_with_latest :
  merge_loop lookup installed_apps apps_with_latest
  = apps_with_latest ++ List.map (merge_app lookup) installed_apps.
Proof.
  revert apps_with_latest.
  induction installed_apps as [|app rest IH]; intros acc; simpl.
  - by rewrite app_nil_r.
  - by rewrite IH, <- app_assoc.
Qed.

Lemma merge_lookup installed_apps upgradable_apps (i : nat) app :
  installed_apps !! i = Some app →
  merge_installed_with_upgradable installed_apps upgradable_apps !! i
  = Some (merge_app (upgrade_lookup upgradable_apps) app).
Proof.
  intros Hi. unfold merge_installed_with_upgradable.
  rewrite merge_loop_map. simpl.
  change (List.map ?f ?l) with (f <$> l).
  by rewrite list_lookup_fmap, Hi.
Qed.

Lemma upgrade_lookup_snoc upgradable_apps app :
  upgrade_lookup (upgradable_apps ++ [app])
  = if truthy (UpgradeRecord.id app)
    then <[UpgradeRecord.id app := app]> (upgrade_lookup upgradable_apps)
    else upgrade_lookup upgradable_apps.
Proof. unfold upgrade_lookup. by rewrite foldl_app. Qed.

Lemma truthy_nonempty (s : str) : truthy s = true ↔ s ≠ [].
Proof. by destruct s. Qed.

(** What the dictionary holds under a key: the last upgradable record that
    carries this (non-empty) id. *)
Lemma upgrade_lookup_Some upgradable_apps (k : str) matched :
  upgrade_lookup upgradable_apps !! k = Some matched →
  ∃ before after,
    upgradable_apps = before ++ matched :: after
    ∧ UpgradeRecord.id matched = k
    ∧ truthy k = true
    ∧ Forall (λ x, UpgradeRecord.id x ≠ k) after.
Proof.
  induction upgradable_apps as [|app rest IH] using rev_ind.
  - unfold upgrade_lookup. simpl. by rewrite lookup_empty.
  - rewrite upgrade_lookup_snoc.
    destruct (truthy (UpgradeRecord.id app)) eqn:Hid.
    + destruct (decide (UpgradeRecord.id app = k)) as [Heq|Hne].
      * subst k. rewrite lookup_insert_eq. intros [= <-].
        exists rest, []. by repeat split.
      * rewrite lookup_insert_ne by done. intros H.
        destruct (IH H) as (before & after & -> & Hk & Ht & Hall).
        exists before, (after ++ [app]).
        rewrite <- app_assoc. repeat split; try done.
        apply Forall_app. split; [done|]. by repeat constructor.
    + intros H.
      destruct (IH H) as (before & after & -> & Hk & Ht & Hall).
      exists before, (after ++ [app]).
      rewrite <- app_assoc. repeat split; try done.
      apply Forall_app. split; [done|]. repeat constructor.
      intros Heq. rewrite Heq, Ht in Hid. done.
Qed.

Lemma upgrade_lookup_is_Some upgradable_apps u :
  u ∈ upgradable_apps → truthy (UpgradeRecord.id u) = true →
  is_Some (upgrade_lookup upgradable_apps !! UpgradeRecord.id u).
Proof.
  induction upgradable_apps as [|app rest IH] using rev_ind.
  - intros H. by apply elem_of_nil in H.
  - intros Hin Ht. rewrite upgrade_lookup_snoc.
    apply elem_of_app in Hin as [Hin|Hin].
    + destruct (truthy (UpgradeRecord.id app)); [|by apply IH].
      destruct (decide (UpgradeRecord.id app = UpgradeRecord.id u)) as [->|Hne].
      * rewrite lookup_insert_eq. eauto.
      * rewrite lookup_insert_ne by done. by apply IH.
    + apply list_elem_of_singleton in Hin as ->.
      rewrite Ht, lookup_insert_eq. eauto.
Qed.

Lemma upgrade_lookup_None upgradable_apps (k : str) :
  (k = [] ∨ ∀ u, u ∈ upgradable_apps →
              truthy (UpgradeRecord.id u) = true → UpgradeRecord.id u ≠ k) →
  upgrade_lookup upgradable_apps !! k = None.
Proof.
  intros Hk.
  destruct (upgrade_lookup upgradable_apps !! k) as [m|] eqn:Hm; [|done].
  apply upgrade_lookup_Some in Hm as (before & after & -> & Hid & Ht & _).
  destruct Hk as [->|Hk]; [done|].
  exfalso. apply (Hk m); [|by rewrite Hid|done].
  apply elem_of_app. right. left.
Qed.

Lemma neqb_true (a b : str) : neqb a b = true ↔ a ≠ b.
Proof.
  unfold neqb. rewrite negb_true_iff.
  destruct (decide (a = b)) as [->|Hne].
  - rewrite bool_decide_eq_true_2 by done. split; [done | by intros []].
  - by rewrite bool_decide_eq_false_2.
Qed.

(** C1.  An installed record whose id is the non-empty id of an upgradable
    record is matched to the record the dictionary holds for that id, the
    last upgradable record carrying it (the record itself when no other has
    the same id).  The merged record takes [latest_version] from the matched
    record's [available_version], and [update_available] is true exactly
    when the current version differs from it and neither of the two is the
    string ["Unknown"]. *)
Theorem merge_hit (installed_apps : list PackageRecord.t)
    (upgradable_apps : list UpgradeRecord.t) (i j : nat)
    (app : PackageRecord.t) (u : UpgradeRecord.t) :
  installed_apps !! i = Some app →
  upgradable_apps !! j = Some u →
  truthy (UpgradeRecord.id u) = true →
  UpgradeRecord.id u = PackageRecord.id app →
  ∃ matched before after r,
    upgrade_lookup upgradable_apps !! PackageRecord.id app = Some matched
    ∧ upgradable_apps = before ++ matched :: after
    ∧ UpgradeRecord.id matched = PackageRecord.id app
    ∧ Forall (λ x, UpgradeRecord.id x ≠ PackageRecord.id app) after
    ∧ ((∀ x, x ∈ upgradable_apps →
             UpgradeRecord.id x = PackageRecord.id app → x = u) →
       matched = u)
    ∧ merge_installed_with_upgradable installed_apps upgradable_apps !! i
      = Some r
    ∧ ReconciledRecord.latest_version r
      = UpgradeRecord.available_version matched
    ∧ (ReconciledRecord.update_available r = true ↔
       PackageRecord.current_version app ≠ ReconciledRecord.latest_version r
       ∧ PackageRecord.current_version app ≠ Unknown
       ∧ ReconciledRecord.latest_version r ≠ Unknown).
Proof.
  intros Hi Hj Ht Hid.
  assert (u ∈ upgradable_apps) as Hin by (by eapply list_elem_of_lookup_2).
  destruct (upgrade_lookup_is_Some _ _ Hin Ht) as [matched Hm].
  rewrite Hid in Hm.
  destruct (upgrade_lookup_Some _ _ _ Hm) as (before & after & Heq & Hk & _ & Hall).
  exists matched, before, after,
    (merge_app (upgrade_lookup upgradable_apps) app).
  split; [done|]. split; [done|]. split; [done|]. split; [done|].
  split.
  { intros Huniq. apply Huniq; [|done].
    rewrite Heq. apply elem_of_app. right. left. }
  split; [by apply merge_lookup|].
  unfold merge_app. rewrite Hm. simpl. split; [done|].
  rewrite !andb_true_iff, !neqb_true. tauto.
Qed.


Lemma merge_hit_witness :
  ∃ r, merge_installed_with_upgradable [hit_app] [other_upgrade; hit_upgrade]
         !! 0%nat = Some r
       ∧ ReconciledRecord.latest_version r = lit "2.0"
       ∧ ReconciledRecord.update_available r = true.
Proof.
  destruct (merge_hit [hit_app] [other_upgrade; hit_upgrade] 0 1
              hit_app hit_upgrade eq_refl eq_refl eq_refl eq_refl)
    as (matched & before & after & r & _ & _ & _ & _ & Huniq & Hr & Hl & Hu).
  assert (matched = hit_upgrade) as ->.
  { apply Huniq. intros x Hx Hid.
    apply elem_of_cons in Hx as [->|Hx]; [discriminate Hid|].
    by apply list_elem_of_singleton in Hx. }
  exists r. split; [exact Hr|]. split; [exact Hl|].
  apply Hu. rewrite Hl. repeat split; discriminate.
Defined.

(** C2.  An installed record whose id is not the non-empty id of any
    upgradable record (in particular one whose id is empty, upgradable
    records without id never being stored in the dictionary) gets its own
    [current_version] as [latest_version], and [update_available] false. *)
Theorem merge_miss (installed_apps : list PackageRecord.t)
    (upgradable_apps : list UpgradeRecord.t) (i : nat)
    (app : PackageRecord.t) :
  installed_apps !! i = Some app →
  (PackageRecord.id app = []
   ∨ ∀ u, u ∈ upgradable_apps → truthy (UpgradeRecord.id u) = true →
          UpgradeRecord.id u ≠ PackageRecord.id app) →
  ∃ r,
    merge_installed_with_upgradable installed_apps upgradable_apps !! i
    = Some r
    ∧ ReconciledRecord.latest_version r = PackageRecord.current_version app
    ∧ ReconciledRecord.update_available r = false.
Proof.
  intros Hi Hmiss.
  exists (merge_app (upgrade_lookup upgradable_apps) app).
  split; [by apply merge_lookup|].
  unfold merge_app. by rewrite (upgrade_lookup_None _ _ Hmiss).
Qed.

Lemma merge_miss_witness :
  (∃ r, merge_installed_with_upgradable [hit_app; anonymous_app]
          [anonymous_upgrade; other_upgrade] !! 1%nat = Some r
        ∧ ReconciledRecord.latest_version r = lit "0.1"
        ∧ ReconciledRecord.update_available r = false)
  ∧ (∃ r, merge_installed_with_upgradable [hit_app; anonymous_app]
            [anonymous_upgrade; other_upgrade] !! 0%nat = Some r
          ∧ ReconciledRecord.latest_version r = lit "1.0"
          ∧ ReconciledRecord.update_available r = false).
Proof.
  split.
  - apply (merge_miss [hit_app; anonymous_app]
             [anonymous_upgrade; other_upgrade] 1 anonymous_app eq_refl).
    left. reflexivity.
  - apply (merge_miss [hit_app; anonymous_app]
             [anonymous_upgrade; other_upgrade] 0 hit_app eq_refl).
    right. intros u Hu Ht.
    apply elem_of_cons in Hu as [->|Hu]; [discriminate Ht|].
    apply list_elem_of_singleton in Hu as ->. discriminate.
Defined.

(** C3.  The merged sequence has the length of the installed sequence and
    its records are, in the same order, the installed records (each with
    the two new fields): nothing is added, dropped or moved. *)
Theorem merge_keeps_records (installed_apps : list PackageRecord.t)
    (upgradable_apps : list UpgradeRecord.t) :
  length (merge_installed_with_upgradable installed_apps upgradable_apps)
  = length installed_apps
  ∧ List.map installed_part
      (merge_installed_with_upgradable installed_apps upgradable_apps)
    = installed_apps.
Proof.
  unfold merge_installed_with_upgradable. rewrite merge_loop_map. simpl.
  split; [apply length_map|].
  rewrite List.map_map.
  induction installed_apps as [|[n d v] rest IH]; [done|].
  simpl. rewrite IH. f_equal.
  unfold merge_app, installed_part.
  by destruct (upgrade_lookup upgradable_apps !! _).
Qed.

(** * Invariants of the accumulated records *)

Lemma lstrip_Forall (P : char → Prop) s : Forall P s → Forall P (lstrip s).
Proof.
  destruct (lstrip_decomp s) as (ws & Heq & _). rewrite Heq at 1.
  intros H. by apply Forall_app in H as [_ H].
Qed.

Lemma strip_Forall (P : char → Prop) s : Forall P s → Forall P (strip s).
Proof.
  intros H. unfold strip, rstrip.
  apply Forall_rev_iff, lstrip_Forall, Forall_rev_iff. by apply lstrip_Forall.
Qed.

Lemma ascii_ignore_is_ascii s : is_ascii (ascii_ignore s).
Proof.
  unfold is_ascii, ascii_ignore. apply Forall_forall. intros c Hc.
  apply list_elem_of_In, filter_In in Hc as [_ Hc]. by apply N.ltb_lt.
Qed.

Lemma clean_is_ascii s : is_ascii (clean s).
Proof. apply strip_Forall, ascii_ignore_is_ascii. Qed.

Lemma split_from_Forall (P : char → Prop) acc s :
  Forall P acc → Forall P s → Forall (Forall P) (split_from acc s).
Proof.
  intros Hacc Hs. revert acc Hacc.
  induction Hs as [|c s Hc Hs IH]; intros acc Hacc; simpl.
  - destruct acc; repeat constructor. by apply Forall_rev_iff.
  - destruct (isspace c).
    + destruct acc; [by apply IH|].
      constructor; [by apply Forall_rev_iff | by apply IH].
    + apply IH. by constructor.
Qed.

Lemma join_Forall (P : char → Prop) sep parts :
  Forall P sep → Forall (Forall P) parts → Forall P (join sep parts).
Proof.
  intros Hsep. induction 1 as [|p ps Hp Hps IH]; [constructor|].
  destruct ps as [|p' ps]; [done|].
  change (join sep (p :: p' :: ps)) with (p ++ sep ++ join sep (p' :: ps)).
  rewrite !Forall_app. by repeat split.
Qed.

Lemma compact_is_ascii s : is_ascii s → is_ascii (compact s).
Proof.
  intros Hs. apply join_Forall.
  - repeat constructor.
  - apply split_from_Forall; [constructor | done].
Qed.

(** The fields of a new entry hold ASCII text only, so that [str.isdigit]
    meets no digit other than ['0'] .. ['9'] and [replace] no broken bar. *)
Lemma new_entry_ascii y : is_ascii (compact (clean y)).
Proof. apply compact_is_ascii, clean_is_ascii. Qed.

Lemma remove_char_absent c s :
  Forall (λ x, x ≠ c) s → remove_char c s = s.
Proof.
  induction 1 as [|x s Hx _ IH]; [done|].
  unfold remove_char in *. simpl.
  destruct (N.eqb_spec x c); [done|]. simpl. by rewrite IH.
Qed.

Lemma remove_bar_ascii s : is_ascii s → remove_char ch_bar s = s.
Proof.
  intros Hs. apply remove_char_absent.
  eapply Forall_impl; [exact Hs|]. unfold ch_bar. intros x Hx. simpl in Hx. lia.
Qed.

Lemma join_nil_inv sep parts : join sep parts ≠ [] → parts ≠ [].
Proof. by destruct parts. Qed.

(** ** The source's token test and the specification's *)

Lemma contains_char c s :
  contains [c] s = existsb (λ x, (x =? c)%N) s.
Proof.
  induction s as [|x s IH]; [done|].
  cbn [contains existsb startswith]. rewrite IH.
  rewrite (N.eqb_sym c x).
  by destruct s; rewrite andb_true_r.
Qed.

Lemma remove_dot_dash s :
  remove_char ch_dash (remove_char ch_dot s)
  = List.filter (λ c, negb ((c =? ch_dot) || (c =? ch_dash))%N) s.
Proof.
  unfold remove_char. induction s as [|x s IH]; [done|].
  simpl. destruct (x =? ch_dot)%N; simpl; [done|].
  destruct (x =? ch_dash)%N; simpl; by rewrite IH.
Qed.

Lemma looks_like_version_spec part :
  looks_like_version part = spec_token_qualifies part.
Proof.
  unfold looks_like_version, spec_token_qualifies.
  by rewrite contains_char, remove_dot_dash.
Qed.

Lemma first_version_like_spec parts :
  first_version_like parts = List.find spec_token_qualifies parts.
Proof.
  induction parts as [|p ps IH]; [done|].
  simpl. rewrite looks_like_version_spec, IH. done.
Qed.

Lemma first_version_like_In parts part :
  first_version_like parts = Some part → part ∈ parts.
Proof.
  induction parts as [|p ps IH]; [done|]. simpl.
  destruct (looks_like_version p).
  - intros [= ->]. left.
  - intros H. right. by apply IH.
Qed.

(** On the version field of an accumulated record that passes the filter,
    the cleanup of the second pass is the refinement of the specification,
    and it selects a (non-empty) token. *)
Lemma cleanup_version_compact y :
  truthy (compact (clean y)) = true →
  cleanup_version (compact (clean y))
  = spec_refine_version (compact (clean y))
  ∧ cleanup_version (compact (clean y)) ∈ split (compact (clean y)).
Proof.
  intros Hv. unfold cleanup_version, spec_refine_version.
  rewrite remove_bar_ascii by apply new_entry_ascii.
  rewrite split_strip.
  destruct (split (compact (clean y))) as [|t0 ts] eqn:Hsplit.
  - exfalso. rewrite split_compact in Hsplit.
    unfold compact in Hv. rewrite Hsplit in Hv. done.
  - rewrite first_version_like_spec.
    destruct (List.find spec_token_qualifies (t0 :: ts)) as [t|] eqn:Hf.
    + split; [done|].
      rewrite <- first_version_like_spec in Hf.
      by apply first_version_like_In.
    + split; [done | left].
Qed.

Lemma cleanup_version_nonempty y :
  truthy (compact (clean y)) = true →
  cleanup_version (compact (clean y)) ≠ [].
Proof.
  intros Hv. destruct (cleanup_version_compact y Hv) as [_ Hin].
  pose proof (split_tokens (compact (clean y))) as Htok.
  rewrite Forall_forall in Htok. by destruct (Htok _ Hin).
Qed.

(** The tokens the second pass examines are ASCII text. *)
Lemma cleanup_tokens_ascii y :
  Forall is_ascii
    (split (strip (remove_char ch_bar (compact (clean y))))).
Proof.
  rewrite remove_bar_ascii by apply new_entry_ascii.
  rewrite split_strip.
  apply split_from_Forall; [constructor | apply new_entry_ascii].
Qed.

(** ** What the first pass accumulates

    The two scanning loops have the same shape; so have the proofs that a
    property of every new entry holds of every accumulated record. *)

Ltac flush_preserves :=
  intros Happs Hcur;
  match goal with
  | |- Forall _ (_ _ ?cur) => destruct cur as [a|]; [|done]
  end;
  cbn beta iota delta [list_flush upgrade_flush];
  destruct (_ && _); [|done];
  apply Forall_app; split; [done|];
  repeat constructor; by apply Hcur.

Ltac scan_preserves flush_inv Hnew :=
  match goal with
  | |- ∀ apps cur apps' cur', ?scan ?c ?lines apps cur = _ → _ =>
      induction lines as [|line rest IH]; intros apps cur apps' cur';
      cbn [list_scan upgrade_scan];
      [ by intros [= <- <-]
      | destruct (skipped line); [apply IH|];
        destruct (starts_entry line _) as [[|]|]; cbn;
        [|apply IH|done];
        intros Hscan Happs Hcur; eapply IH; [exact Hscan| |];
        [ by apply flush_inv | intros a [= <-]; apply Hnew ] ]
  end.

Section ListFirstPass.

Variable c : ListColumns.
Variable P : PackageRecord.t → Prop.
Hypothesis P_new_entry : ∀ line, P (list_new_entry c line).

Lemma list_flush_inv apps current_app :
  Forall P apps → (∀ a, current_app = Some a → P a) →
  Forall P (list_flush apps current_app).
Proof. flush_preserves. Qed.

Lemma list_scan_inv lines :
  ∀ apps current_app apps' current_app',
    list_scan c lines apps current_app = Some (apps', current_app') →
    Forall P apps → (∀ a, current_app = Some a → P a) →
    Forall P apps' ∧ (∀ a, current_app' = Some a → P a).
Proof. scan_preserves list_flush_inv P_new_entry. Qed.

End ListFirstPass.

Section UpgradeFirstPass.

Variable c : UpgradeColumns.
Variable P : UpgradeRecord.t → Prop.
Hypothesis P_new_entry : ∀ line, P (upgrade_new_entry c line).

Lemma upgrade_flush_inv apps current_app :
  Forall P apps → (∀ a, current_app = Some a → P a) →
  Forall P (upgrade_flush apps current_app).
Proof. flush_preserves. Qed.

Lemma upgrade_scan_inv lines :
  ∀ apps current_app apps' current_app',
    upgrade_scan c lines apps current_app = Some (apps', current_app') →
    Forall P apps → (∀ a, current_app = Some a → P a) →
    Forall P apps' ∧ (∀ a, current_app' = Some a → P a).
Proof. scan_preserves upgrade_flush_inv P_new_entry. Qed.

End UpgradeFirstPass.

Lemma list_accumulated_inv output apps :
  list_accumulated output = Some apps →
  Forall (λ app, ∃ c line, app = list_new_entry c line) apps.
Proof.
  unfold list_accumulated.
  destruct (len _ <? 3); [by intros [= <-]|].
  destruct (find_header 0 _) as [[header_line data_start_index]|];
    [|by intros [= <-]].
  unfold list_accumulate.
  destruct (list_scan _ _ [] None) as [[apps0 cur]|] eqn:Hscan; [|done].
  simpl. intros [= <-].
  eapply (list_scan_inv _ (λ app, ∃ c line, app = list_new_entry c line))
    in Hscan as [Happs Hcur]; [by apply list_flush_inv|eauto|done|done].
Qed.

Lemma parse_list_two_passes output :
  parse_winget_list_output output
  = apps ← list_accumulated output; Some (list_validate apps).
Proof.
  unfold parse_winget_list_output, list_accumulated.
  destruct (len _ <? 3); [done|].
  by destruct (find_header 0 _) as [[header_line data_start_index]|].
Qed.

Lemma upgrade_accumulated_inv output apps :
  upgrade_accumulated output = Some apps →
  Forall (λ app, ∃ c line, app = upgrade_new_entry c line) apps.
Proof.
  unfold upgrade_accumulated.
  destruct (len _ <? 3); [by intros [= <-]|].
  destruct (find_header 0 _) as [[header_line data_start_index]|];
    [|by intros [= <-]].
  unfold upgrade_accumulate.
  destruct (upgrade_scan _ _ [] None) as [[apps0 cur]|] eqn:Hscan; [|done].
  simpl. intros [= <-].
  eapply (upgrade_scan_inv _ (λ app, ∃ c line, app = upgrade_new_entry c line))
    in Hscan as [Happs Hcur]; [by apply upgrade_flush_inv|eauto|done|done].
Qed.

Lemma parse_upgrade_two_passes output :
  parse_winget_upgrade_output output
  = apps ← upgrade_accumulated output; Some (upgrade_validate apps).
Proof.
  unfold parse_winget_upgrade_output, upgrade_accumulated.
  destruct (len _ <? 3); [done|].
  by destruct (find_header 0 _) as [[header_line data_start_index]|].
Qed.

(** ** What the second pass keeps *)

Lemma list_validate_elem apps r :
  r ∈ list_validate apps →
  ∃ app, app ∈ apps
    ∧ truthy (PackageRecord.name app) = true
    ∧ truthy (PackageRecord.current_version app) = true
    ∧ 1 < len (PackageRecord.name app)
    ∧ r = {| PackageRecord.name := PackageRecord.name app;
             PackageRecord.id := PackageRecord.id app;
             PackageRecord.current_version :=
               cleanup_version (PackageRecord.current_version app) |}.
Proof.
  induction apps as [|app rest IH]; simpl.
  - intros H. by apply elem_of_nil in H.
  - destruct (truthy (PackageRecord.name app)) eqn:Hn;
      destruct (truthy (PackageRecord.current_version app)) eqn:Hv;
      destruct (len (PackageRecord.name app) >? 1) eqn:Hl; simpl;
      try (intros H; destruct (IH H) as (a & Ha & Hrest);
           exists a; split; [by right | done]).
    intros H. apply elem_of_cons in H as [->|H].
    + exists app. repeat split; try done; [left | lia].
    + destruct (IH H) as (a & Ha & Hrest). exists a. split; [by right | done].
Qed.

Lemma upgrade_validate_elem apps r :
  r ∈ upgrade_validate apps →
  ∃ app, app ∈ apps
    ∧ truthy (UpgradeRecord.name app) = true
    ∧ truthy (UpgradeRecord.current_version app) = true
    ∧ truthy (UpgradeRecord.available_version app) = true
    ∧ 1 < len (UpgradeRecord.name app)
    ∧ r = {| UpgradeRecord.name := UpgradeRecord.name app;
             UpgradeRecord.id := UpgradeRecord.id app;
             UpgradeRecord.current_version :=
               cleanup_version (UpgradeRecord.current_version app);
             UpgradeRecord.available_version :=
               cleanup_version (UpgradeRecord.available_version app) |}.
Proof.
  induction apps as [|app rest IH]; simpl.
  - intros H. by apply elem_of_nil in H.
  - destruct (truthy (UpgradeRecord.name app)) eqn:Hn;
      destruct (truthy (UpgradeRecord.current_version app)) eqn:Hv;
      destruct (truthy (UpgradeRecord.available_version app)) eqn:Ha;
      destruct (len (UpgradeRecord.name app) >? 1) eqn:Hl; simpl;
      try (intros H; destruct (IH H) as (a & Hin & Hrest);
           exists a; split; [by right | done]).
    intros H. apply elem_of_cons in H as [->|H].
    + exists app. repeat split; try done; [left | lia].
    + destruct (IH H) as (a & Hin & Hrest). exists a. split; [by right | done].
Qed.

Lemma upgrade_validate_app apps1 apps2 :
  upgrade_validate (apps1 ++ apps2)
  = upgrade_validate apps1 ++ upgrade_validate apps2.
Proof.
  induction apps1 as [|app rest IH]; [done|]. simpl.
  destruct (_ && _); [|done]. simpl. by rewrite IH.
Qed.

(** Every record the list parser returns comes from an accumulated record
    that passed the filter, with its version cleaned up. *)
Lemma list_output_origin output records r :
  parse_winget_list_output output = Some records → r ∈ records →
  ∃ apps c line,
    list_accumulated output = Some apps
    ∧ list_new_entry c line ∈ apps
    ∧ truthy (PackageRecord.current_version (list_new_entry c line)) = true
    ∧ 1 < len (PackageRecord.name (list_new_entry c line))
    ∧ PackageRecord.name r = PackageRecord.name (list_new_entry c line)
    ∧ PackageRecord.id r = PackageRecord.id (list_new_entry c line)
    ∧ PackageRecord.current_version r
      = cleanup_version
          (PackageRecord.current_version (list_new_entry c line)).
Proof.
  rewrite parse_list_two_passes.
  destruct (list_accumulated output) as [apps|] eqn:Hacc; [|done].
  simpl. intros [= <-] Hr.
  apply list_validate_elem in Hr as (app & Hin & _ & Hv & Hl & ->).
  pose proof (list_accumulated_inv _ _ Hacc) as Hinv.
  rewrite Forall_forall in Hinv.
  destruct (Hinv _ Hin) as (c & line & ->).
  exists apps, c, line. by repeat split.
Qed.

Lemma upgrade_output_origin output records r :
  parse_winget_upgrade_output output = Some records → r ∈ records →
  ∃ apps c line,
    upgrade_accumulated output = Some apps
    ∧ upgrade_new_entry c line ∈ apps
    ∧ truthy (UpgradeRecord.current_version (upgrade_new_entry c line)) = true
    ∧ truthy (UpgradeRecord.available_version (upgrade_new_entry c line))
      = true
    ∧ 1 < len (UpgradeRecord.name (upgrade_new_entry c line))
    ∧ UpgradeRecord.name r = UpgradeRecord.name (upgrade_new_entry c line)
    ∧ UpgradeRecord.id r = UpgradeRecord.id (upgrade_new_entry c line)
    ∧ UpgradeRecord.current_version r
      = cleanup_version
          (UpgradeRecord.current_version (upgrade_new_entry c line))
    ∧ UpgradeRecord.available_version r
      = cleanup_version
          (UpgradeRecord.available_version (upgrade_new_entry c line)).
Proof.
  rewrite parse_upgrade_two_passes.
  destruct (upgrade_accumulated output) as [apps|] eqn:Hacc; [|done].
  simpl. intros [= <-] Hr.
  apply upgrade_validate_elem in Hr as (app & Hin & _ & Hv & Ha & Hl & ->).
  pose proof (upgrade_accumulated_inv _ _ Hacc) as Hinv.
  rewrite Forall_forall in Hinv.
  destruct (Hinv _ Hin) as (c & line & ->).
  exists apps, c, line. by repeat split.
Qed.

(** * The records the parsers return *)

(** C4.  Every record returned by either parser has a name of more than
    one character and a non-empty current version. *)
Theorem parsed_records_valid (output : str) :
  (∀ records r,
     parse_winget_list_output output = Some records → r ∈ records →
     1 < len (PackageRecord.name r) ∧ PackageRecord.current_version r ≠ [])
  ∧ (∀ records r,
       parse_winget_upgrade_output output = Some records → r ∈ records →
       1 < len (UpgradeRecord.name r)
       ∧ UpgradeRecord.current_version r ≠ []).
Proof.
  split; intros records r Hparse Hr.
  - destruct (list_output_origin _ _ _ Hparse Hr)
      as (apps & c & line & _ & _ & Hv & Hl & Hn & _ & Hcv).
    rewrite Hn, Hcv. split; [done|].
    by apply cleanup_version_nonempty.
  - destruct (upgrade_output_origin _ _ _ Hparse Hr)
      as (apps & c & line & _ & _ & Hv & _ & Hl & Hn & _ & Hcv & _).
    rewrite Hn, Hcv. split; [done|].
    by apply cleanup_version_nonempty.
Qed.

Lemma parsed_records_valid_witness :
  (parse_winget_list_output sample_list = Some [sample_record]
   ∧ 1 < len (PackageRecord.name sample_record)
   ∧ PackageRecord.current_version sample_record ≠ [])
  ∧ (parse_winget_upgrade_output sample_upgrade_table
     = Some [sample_upgrade_record]
     ∧ 1 < len (UpgradeRecord.name sample_upgrade_record)
     ∧ UpgradeRecord.current_version sample_upgrade_record ≠ []).
Proof.
  split; (split; [vm_compute; reflexivity|]).
  - apply (proj1 (parsed_records_valid sample_list)
             [sample_record] sample_record);
      [vm_compute; reflexivity | left].
  - apply (proj2 (parsed_records_valid sample_upgrade_table)
             [sample_upgrade_record] sample_upgrade_record);
      [vm_compute; reflexivity | left].
Defined.

(** C10.  Every record returned by the upgrade parser has a non-empty
    available version: an accumulated record whose available-version field
    is empty is dropped by the second pass, whatever its other fields. *)
Theorem upgrade_available_nonempty (output : str) :
  (∀ records r,
     parse_winget_upgrade_output output = Some records → r ∈ records →
     UpgradeRecord.available_version r ≠ [])
  ∧ (∀ before app after,
       upgrade_accumulated output = Some (before ++ app :: after) →
       UpgradeRecord.available_version app = [] →
       parse_winget_upgrade_output output
       = Some (upgrade_validate before ++ upgrade_validate after)).
Proof.
  split.
  - intros records r Hparse Hr.
    destruct (upgrade_output_origin _ _ _ Hparse Hr)
      as (apps & c & line & _ & _ & _ & Ha & _ & _ & _ & _ & Hav).
    rewrite Hav. by apply cleanup_version_nonempty.
  - intros before app after Hacc Hempty.
    rewrite parse_upgrade_two_passes, Hacc. simpl.
    rewrite upgrade_validate_app. simpl. rewrite Hempty. simpl.
    by rewrite !andb_false_r.
Qed.

Lemma upgrade_available_nonempty_witness :
  (parse_winget_upgrade_output sample_upgrade_table
   = Some [sample_upgrade_record]
   ∧ UpgradeRecord.available_version sample_upgrade_record ≠ [])
  ∧ (upgrade_accumulated sample_upgrade_gap
     = Some ([] ++ gap_record :: [sample_upgrade_record])
     ∧ truthy (UpgradeRecord.name gap_record) = true
     ∧ truthy (UpgradeRecord.current_version gap_record) = true
     ∧ parse_winget_upgrade_output sample_upgrade_gap
       = Some (upgrade_validate [] ++ upgrade_validate [sample_upgrade_record])).
Proof.
  split.
  - split; [vm_compute; reflexivity|].
    apply (proj1 (upgrade_available_nonempty sample_upgrade_table)
             [sample_upgrade_record] sample_upgrade_record);
      [vm_compute; reflexivity | left].
  - split; [vm_compute; reflexivity|].
    split; [reflexivity|]. split; [reflexivity|].
    apply (proj2 (upgrade_available_nonempty sample_upgrade_gap)
             [] gap_record [sample_upgrade_record]);
      [vm_compute; reflexivity | reflexivity].
Defined.

(** C7.  The version fields of a returned record are the refinement, as
    the specification words it ([spec_refine_version]), of the cleaned
    fields of the accumulated record it comes from: the first token with a
    dot or made of digits once dots and dashes are removed, else the first
    token.  (The cleaned field of a record that passes the filter always
    has a token.) *)
Theorem version_refinement (output : str) :
  (∀ records r,
     parse_winget_list_output output = Some records → r ∈ records →
     ∃ apps c line,
       list_accumulated output = Some apps
       ∧ list_new_entry c line ∈ apps
       ∧ PackageRecord.name r = clean (list_name_field c line)
       ∧ PackageRecord.id r = clean (list_id_field c line)
       ∧ PackageRecord.current_version r
         = spec_refine_version (compact (clean (list_version_field c line))))
  ∧ (∀ records r,
       parse_winget_upgrade_output output = Some records → r ∈ records →
       ∃ apps c line,
         upgrade_accumulated output = Some apps
         ∧ upgrade_new_entry c line ∈ apps
         ∧ UpgradeRecord.name r = clean (upgrade_name_field c line)
         ∧ UpgradeRecord.id r = clean (upgrade_id_field c line)
         ∧ UpgradeRecord.current_version r
           = spec_refine_version
               (compact (clean (upgrade_version_field c line)))
         ∧ UpgradeRecord.available_version r
           = spec_refine_version
               (compact (clean (upgrade_available_field c line)))).
Proof.
  split; intros records r Hparse Hr.
  - destruct (list_output_origin _ _ _ Hparse Hr)
      as (apps & c & line & Hacc & Hin & Hv & _ & Hn & Hid & Hcv).
    exists apps, c, line. repeat split; try done.
    rewrite Hcv. by apply cleanup_version_compact.
  - destruct (upgrade_output_origin _ _ _ Hparse Hr)
      as (apps & c & line & Hacc & Hin & Hv & Ha & _ & Hn & Hid & Hcv & Hav).
    exists apps, c, line. repeat split; try done.
    + rewrite Hcv. by apply cleanup_version_compact.
    + rewrite Hav. by apply cleanup_version_compact.
Qed.

Lemma version_refinement_witness :
  (∃ apps c line,
     list_accumulated sample_list = Some apps
     ∧ list_new_entry c line ∈ apps
     ∧ PackageRecord.name sample_record = clean (list_name_field c line)
     ∧ PackageRecord.id sample_record = clean (list_id_field c line)
     ∧ PackageRecord.current_version sample_record
       = spec_refine_version (compact (clean (list_version_field c line))))
  ∧ (∃ apps c line,
       upgrade_accumulated sample_upgrade_table = Some apps
       ∧ upgrade_new_entry c line ∈ apps
       ∧ UpgradeRecord.name sample_upgrade_record
         = clean (upgrade_name_field c line)
       ∧ UpgradeRecord.id sample_upgrade_record
         = clean (upgrade_id_field c line)
       ∧ UpgradeRecord.current_version sample_upgrade_record
         = spec_refine_version
             (compact (clean (upgrade_version_field c line)))
       ∧ UpgradeRecord.available_version sample_upgrade_record
         = spec_refine_version
             (compact (clean (upgrade_available_field c line)))).
Proof.
  split.
  - apply (proj1 (version_refinement sample_list)
             [sample_record] sample_record);
      [vm_compute; reflexivity | left].
  - apply (proj2 (version_refinement sample_upgrade_table)
             [sample_upgrade_record] sample_upgrade_record);
      [vm_compute; reflexivity | left].
Defined.

(** * The sample table of the specification *)

Lemma lstrip_nonspace c t : isspace c = false → lstrip (c :: t) = c :: t.
Proof. intros H. simpl. by rewrite H. Qed.

Lemma rstrip_nonspace s c : isspace c = false → rstrip (s ++ [c]) = s ++ [c].
Proof.
  intros H. unfold rstrip. rewrite rev_app_distr. simpl. rewrite H.
  change (c :: rev s) with ([c] ++ rev s).
  by rewrite rev_app_distr, rev_involutive.
Qed.

Lemma strip_unchanged x c s d :
  x = c :: s ++ [d] → isspace c = false → isspace d = false →
  strip x = x.
Proof.
  intros -> Hc Hd. unfold strip. rewrite lstrip_nonspace by done.
  rewrite app_comm_cons. by apply rstrip_nonspace.
Qed.

Lemma splitlines_from_app_line acc t s :
  forallb (λ c, negb (islinebreak c)) t = true →
  splitlines_from acc (t ++ s) = splitlines_from (rev t ++ acc) s.
Proof.
  revert acc. induction t as [|c t IH]; intros acc Ht; [done|].
  simpl in Ht. apply andb_true_iff in Ht as [Hc Ht].
  apply negb_true_iff in Hc. simpl. rewrite Hc, IH by done.
  by rewrite <- app_assoc.
Qed.

Lemma splitlines_from_newline acc s :
  splitlines_from acc (nl ++ s) = rev acc :: splitlines_from [] s.
Proof. simpl. by destruct s. Qed.

(** Three lines separated by newlines, the last one not empty. *)
Lemma splitlines_three l1 l2 l3 :
  forallb (λ c, negb (islinebreak c)) l1 = true →
  forallb (λ c, negb (islinebreak c)) l2 = true →
  forallb (λ c, negb (islinebreak c)) l3 = true →
  l3 ≠ [] →
  splitlines (l1 ++ nl ++ l2 ++ nl ++ l3) = [l1; l2; l3].
Proof.
  intros H1 H2 H3 Hne. unfold splitlines.
  rewrite splitlines_from_app_line, splitlines_from_newline by done.
  rewrite splitlines_from_app_line, splitlines_from_newline by done.
  rewrite <- (app_nil_r l3), splitlines_from_app_line by done.
  rewrite !app_nil_r, !rev_involutive. simpl.
  destruct (rev_nonempty l3 Hne) as (a & r & Hr).
  rewrite Hr, <- Hr. by rewrite rev_involutive.
Qed.

(** C5, as the code has it.  The keyword offsets of the header line
    ["Name   Id   Version"] are 0, 7 and 12; followed by a separator line,
    whatever it holds, and the data row ["7-Zip  7zip.7zip  23.01"], the
    list parser returns exactly one record, with name ["7-Zip"], id
    ["7zip."] (the five characters of the row between offsets 7 and 12) and
    current version ["23.01"]. *)
Theorem sample_list_parse (rule : str) :
  forallb (λ c, negb (islinebreak c)) rule = true →
  find sample_header kw_Name = 0
  ∧ find sample_header kw_Id = 7
  ∧ find sample_header kw_Version = 12
  ∧ parse_winget_list_output (sample_header ++ nl ++ rule ++ nl ++ sample_row)
    = Some [sample_record].
Proof.
  intros Hrule.
  split; [by vm_compute|]. split; [by vm_compute|]. split; [by vm_compute|].
  unfold parse_winget_list_output.
  assert (strip (sample_header ++ nl ++ rule ++ nl ++ sample_row)
          = sample_header ++ nl ++ rule ++ nl ++ sample_row) as ->.
  { assert (∃ t, sample_header = 78%N :: t) as [t Ht]
      by (eexists; vm_compute; reflexivity).
    assert (∃ t', sample_row = t' ++ [49%N]) as [t' Ht']
      by (exists (removelast sample_row); vm_compute; reflexivity).
    apply (strip_unchanged _ 78%N (t ++ nl ++ rule ++ nl ++ t') 49%N);
      [|done|done].
    rewrite Ht, Ht'. simpl. rewrite <- !app_assoc. simpl.
    by rewrite <- ?app_assoc. }
  rewrite splitlines_three by (done || by vm_compute).
  by vm_compute.
Qed.

Lemma sample_list_parse_witness :
  parse_winget_list_output sample_list = Some [sample_record].
Proof.
  apply (sample_list_parse sample_rule). vm_compute. reflexivity.
Defined.

(** The record expected by the scenario, with id ["7zip.7zip"], is not what
    the parser returns. *)
Lemma sample_list_counterexample :
  parse_winget_list_output sample_list ≠ Some [expected_sample_record].
Proof. vm_compute. discriminate. Qed.

(** * Fields whose end-boundary keyword is absent *)

(** C6, as the code has it.  When ["Source"] is absent from the header
    line, the current-version slice of the list parser and the
    available-version slice of the upgrade parser run from the offset of
    their own keyword to the end of the line; when ["Available"] is absent,
    the current-version field of the upgrade parser is the empty string. *)
Theorem end_boundary_absent (header_line line : str) :
  (find header_line kw_Source = -1 →
   0 ≤ find header_line kw_Version →
   list_version_field (list_columns header_line) line
   = strip (skipn (Z.to_nat (find header_line kw_Version)) line))
  ∧ (find header_line kw_Source = -1 →
     0 ≤ find header_line kw_Available →
     upgrade_available_field (upgrade_columns header_line) line
     = strip (skipn (Z.to_nat (find header_line kw_Available)) line))
  ∧ (find header_line kw_Available = -1 →
     upgrade_version_field (upgrade_columns header_line) line = []).
Proof.
  split; [|split].
  - intros Hs Hv. unfold list_version_field, list_columns. simpl.
    rewrite Hs. destruct (Z.gtb_spec (-1) (find header_line kw_Version)); [lia|].
    by rewrite slice_from_nonneg.
  - intros Hs Ha. unfold upgrade_available_field, upgrade_columns. simpl.
    rewrite Hs.
    destruct (Z.gtb_spec (-1) (find header_line kw_Available)); [lia|].
    by rewrite slice_from_nonneg.
  - intros Ha. unfold upgrade_version_field, upgrade_columns. simpl.
    rewrite Ha. pose proof (find_lower header_line kw_Version).
    by destruct (Z.gtb_spec (-1) (find header_line kw_Version)); [lia|].
Qed.

Lemma end_boundary_absent_witness :
  list_version_field (list_columns no_source_list_header) no_source_list_row
  = lit "1.0 beta"
  ∧ upgrade_available_field (upgrade_columns no_source_upgrade_header)
      no_source_upgrade_row
    = lit "2.0 rc1"
  ∧ upgrade_version_field (upgrade_columns no_available_header)
      no_available_row
    = [].
Proof.
  split; [|split].
  - rewrite (proj1 (end_boundary_absent no_source_list_header
                      no_source_list_row));
      [vm_compute; reflexivity | vm_compute; reflexivity
      | vm_compute; discriminate].
  - rewrite (proj1 (proj2 (end_boundary_absent no_source_upgrade_header
                             no_source_upgrade_row)));
      [vm_compute; reflexivity | vm_compute; reflexivity
      | vm_compute; discriminate].
  - apply (proj2 (proj2 (end_boundary_absent no_available_header
                           no_available_row))).
    vm_compute. reflexivity.
Defined.

(** With ["Available"] absent from the header line, the current-version
    field of the upgrade parser is empty, not the rest of the line, and the
    row is not returned. *)
Lemma upgrade_version_field_counterexample :
  find no_available_header kw_Available = -1
  ∧ upgrade_version_field (upgrade_columns no_available_header)
      no_available_row
    ≠ strip (slice_from no_available_row
               (find no_available_header kw_Version))
  ∧ upgrade_version_field (upgrade_columns no_available_header)
      no_available_row
    = []
  ∧ strip (slice_from no_available_row
             (find no_available_header kw_Version))
    = lit "1.0      winget"
  ∧ parse_winget_upgrade_output no_available_table = Some [].
Proof.
  split; [vm_compute; reflexivity|].
  split; [vm_compute; discriminate|].
  repeat split; vm_compute; reflexivity.
Qed.

(** Without Available column every entry has an empty current version, so
    that the first pass of the upgrade parser keeps none. *)
Lemma upgrade_scan_no_version c lines :
  (∀ line, UpgradeRecord.current_version (upgrade_new_entry c line) = []) →
  ∀ current_app apps' current_app',
    (∀ a, current_app = Some a → UpgradeRecord.current_version a = []) →
    upgrade_scan c lines [] current_app = Some (apps', current_app') →
    apps' = []
    ∧ (∀ a, current_app' = Some a → UpgradeRecord.current_version a = []).
Proof.
  intros Hnew. induction lines as [|line rest IH];
    intros cur apps' cur' Hcur; cbn [upgrade_scan].
  - by intros [= <- <-].
  - destruct (skipped line); [by apply IH|].
    destruct (starts_entry line _) as [[|]|]; cbn; [|by apply IH|done].
    replace (upgrade_flush [] cur) with (@nil UpgradeRecord.t).
    + apply IH. intros a [= <-]. apply Hnew.
    + unfold upgrade_flush. destruct cur as [a|]; [|done].
      rewrite (Hcur a eq_refl). by rewrite andb_false_r.
Qed.

(** X25. An upgrade table whose header line lacks the word Available
    yields no record at all, whatever its rows: the current version of
    every entry is then empty, and the parser keeps no entry without
    current version. *)
Lemma upgrade_table_without_available output header_line data_start_index :
  find_header 0 (splitlines (strip output))
  = Some (header_line, data_start_index) →
  find header_line kw_Available = -1 →
  parse_winget_upgrade_output output = Some [].
Proof.
  intros Hfind Hno. unfold parse_winget_upgrade_output.
  destruct (len _ <? 3); [done|]. rewrite Hfind.
  apply find_header_is_header in Hfind as [Hh _].
  destruct (upgrade_accumulate_total header_line data_start_index
              (splitlines (strip output)) Hh) as [apps Happs].
  rewrite Happs. simpl. unfold upgrade_accumulate in Happs.
  destruct (upgrade_scan _ _ [] None) as [[apps0 cur]|] eqn:Hscan; [|done].
  simpl in Happs. injection Happs as <-.
  apply upgrade_scan_no_version in Hscan as [-> Hcur]; [| |done].
  - unfold upgrade_flush. destruct cur as [a|]; [|done].
    rewrite (Hcur a eq_refl). by rewrite andb_false_r.
  - intros line. unfold upgrade_new_entry, upgrade_version_field,
      upgrade_columns. simpl. rewrite Hno.
    pose proof (find_lower header_line kw_Version).
    by destruct (Z.gtb_spec (-1) (find header_line kw_Version)); [lia|].
Qed.

Lemma upgrade_table_without_available_witness :
  parse_winget_upgrade_output no_available_table = Some [].
Proof.
  apply (upgrade_table_without_available no_available_table
           no_available_header 2); vm_compute; reflexivity.
Defined.

(** * Lines of the text and lines of the stripped text *)

Lemma infix_refl s : infix s s.
Proof. exists [], []. by rewrite app_nil_r. Qed.

Lemma infix_trans a b c : infix a b → infix b c → infix a c.
Proof.
  intros (p & q & ->) (p' & q' & ->).
  exists (p' ++ p), (q ++ q'). by rewrite <- !app_assoc.
Qed.

Lemma infix_nil s : infix [] s.
Proof. by exists [], s. Qed.

Lemma lines_within_refl ls : lines_within ls ls.
Proof. split; [done|]. intros l Hl. exists l. split; [done | apply infix_refl]. Qed.

Lemma lines_within_trans ls1 ls2 ls3 :
  lines_within ls1 ls2 → lines_within ls2 ls3 → lines_within ls1 ls3.
Proof.
  intros [Hlen1 H1] [Hlen2 H2]. split; [lia|].
  intros l1 Hl1. destruct (H1 _ Hl1) as (l2 & Hl2 & Hi1).
  destruct (H2 _ Hl2) as (l3 & Hl3 & Hi2).
  exists l3. split; [done | by eapply infix_trans].
Qed.

Lemma lines_within_nil ls : lines_within [] ls.
Proof.
  split; [simpl; lia|]. intros l Hl. by apply elem_of_nil in Hl.
Qed.

Lemma lines_within_cons l' l ls' ls :
  infix l' l → lines_within ls' ls → lines_within (l' :: ls') (l :: ls).
Proof.
  intros Hi [Hlen H]. split; [simpl; lia|].
  intros x Hx. apply elem_of_cons in Hx as [->|Hx].
  - exists l. split; [left | done].
  - destruct (H _ Hx) as (y & Hy & Hxy). exists y. split; [by right | done].
Qed.

Lemma lines_within_skip l ls' ls :
  lines_within ls' ls → lines_within ls' (l :: ls).
Proof.
  intros [Hlen H]. split; [simpl; lia|].
  intros x Hx. destruct (H _ Hx) as (y & Hy & Hxy).
  exists y. split; [by right | done].
Qed.

Create HintDb lines.
#[local] Hint Resolve infix_refl infix_nil lines_within_refl lines_within_nil
  lines_within_cons lines_within_skip : lines.

Lemma startswith_spec s prefix :
  startswith s prefix = true ↔ ∃ rest, s = prefix ++ rest.
Proof.
  revert s. induction prefix as [|p ps IH]; intros s.
  - split; [intros _; by exists s | intros _; by destruct s].
  - destruct s as [|c s]; simpl.
    + split; [done | by intros [rest Hrest]].
    + rewrite andb_true_iff, N.eqb_eq, IH. split.
      * intros [-> [rest ->]]. by exists rest.
      * intros [rest [= -> ->]]. split; [done | by exists rest].
Qed.

Lemma contains_spec sub s : contains sub s = true ↔ infix sub s.
Proof.
  induction s as [|c s IH]; cbn [contains].
  - rewrite orb_false_r, startswith_spec. split.
    + intros [rest Hrest]. by exists [], rest.
    + intros (before & after & Heq).
      destruct before; [by exists after|done].
  - rewrite orb_true_iff, startswith_spec, IH. split.
    + intros [[rest Hrest]|(before & after & ->)].
      * by exists [], rest.
      * by exists (c :: before), after.
    + intros (before & after & Heq). destruct before as [|b before].
      * left. by exists after.
      * right. injection Heq as -> ->. by exists before, after.
Qed.

Lemma contains_infix sub l' l :
  contains sub l' = true → infix l' l → contains sub l = true.
Proof.
  rewrite !contains_spec. apply infix_trans.
Qed.

Lemma is_header_infix l' l :
  is_header l' = true → infix l' l → is_header l = true.
Proof.
  unfold is_header. rewrite !andb_true_iff. intros [[H1 H2] H3] Hi.
  repeat split; by eapply contains_infix.
Qed.

(** The pending characters of [splitlines_from] are a prefix of the first
    line it emits. *)
Lemma splitlines_from_acc acc s :
  splitlines_from acc s
  = match splitlines_from [] s with
    | [] => match acc with [] => [] | _ :: _ => [rev acc] end
    | l :: ls => (rev acc ++ l) :: ls
    end.
Proof.
  revert acc. induction s as [|c s IH]; intros acc; [done|].
  cbn [splitlines_from]. destruct (islinebreak c).
  - cbn [rev app]. by rewrite app_nil_r.
  - rewrite (IH (c :: acc)), (IH [c]).
    destruct (splitlines_from [] s) as [|l ls]; cbn [rev app].
    + done.
    + by rewrite <- app_assoc.
Qed.

Lemma lines_within_acc acc s :
  lines_within (splitlines_from [] s) (splitlines_from acc s).
Proof.
  rewrite (splitlines_from_acc acc s).
  destruct (splitlines_from [] s) as [|l ls]; [auto with lines|].
  apply lines_within_cons; [|auto with lines].
  exists (rev acc), []. by rewrite app_nil_r.
Qed.

(** Dropping the first character of a text. *)
Lemma lines_within_front c s :
  lines_within (splitlines s) (splitlines (c :: s)).
Proof.
  unfold splitlines. cbn [splitlines_from].
  destruct (islinebreak c); [|apply lines_within_acc].
  destruct s as [|c' s']; [auto with lines|].
  destruct ((c =? 13) && (c' =? 10))%N eqn:Hcr; [|auto with lines].
  apply andb_true_iff in Hcr as [_ Hlf]. apply N.eqb_eq in Hlf as ->.
  cbn [splitlines_from]. change (islinebreak 10%N) with true. cbn iota.
  destruct s' as [|c'' s'']; auto with lines.
Qed.

(** Dropping the last character of a text. *)
Lemma lines_within_back_n n : ∀ acc s c,
  (length s ≤ n)%nat →
  lines_within (splitlines_from acc s) (splitlines_from acc (s ++ [c])).
Proof.
  induction n as [|n IH]; intros acc s c Hlen.
  - destruct s; [|simpl in Hlen; lia]. cbn [app splitlines_from].
    destruct (islinebreak c); destruct acc as [|a acc]; auto with lines.
    apply lines_within_cons; [|auto with lines].
    cbn [rev]. exists [], [c]. by rewrite <- !app_assoc.
  - destruct s as [|c0 t].
    { apply (IH acc [] c). simpl. lia. }
    simpl in Hlen. cbn [app splitlines_from].
    destruct (islinebreak c0); [|apply IH; lia].
    apply lines_within_cons; [auto with lines|].
    destruct t as [|c' t']; cbn [app].
    + destruct ((c0 =? 13) && (c =? 10))%N; auto with lines.
    + destruct ((c0 =? 13) && (c' =? 10))%N.
      * apply IH. simpl in Hlen. lia.
      * apply (IH [] (c' :: t') c). simpl in *. lia.
Qed.

Lemma lines_within_back s c :
  lines_within (splitlines s) (splitlines (s ++ [c])).
Proof. by apply (lines_within_back_n (length s)). Qed.

Lemma lines_within_lstrip s :
  lines_within (splitlines (lstrip s)) (splitlines s).
Proof.
  induction s as [|c s IH]; [apply lines_within_refl|].
  simpl. destruct (isspace c); [|apply lines_within_refl].
  eapply lines_within_trans; [exact IH | apply lines_within_front].
Qed.

Lemma lines_within_app s tail :
  lines_within (splitlines s) (splitlines (s ++ tail)).
Proof.
  revert s. induction tail as [|c tail IH]; intros s.
  - rewrite app_nil_r. apply lines_within_refl.
  - eapply lines_within_trans; [apply (lines_within_back s c)|].
    replace (s ++ c :: tail) with ((s ++ [c]) ++ tail)
      by (by rewrite <- app_assoc).
    apply IH.
Qed.

Lemma lines_within_rstrip s :
  lines_within (splitlines (rstrip s)) (splitlines s).
Proof.
  destruct (rstrip_decomp s) as (ws & Heq & _).
  rewrite Heq at 2. apply lines_within_app.
Qed.

(** The lines the parsers work on, those of the stripped text, are no more
    than the lines of the text, and each lies within one of them. *)
Lemma lines_within_strip s :
  lines_within (splitlines (strip s)) (splitlines s).
Proof.
  unfold strip. eapply lines_within_trans;
    [apply lines_within_rstrip | apply lines_within_lstrip].
Qed.

Lemma find_header_none i lines :
  (∀ line, line ∈ lines → is_header line = false) →
  find_header i lines = None.
Proof.
  revert i. induction lines as [|line rest IH]; intros i Hall; [done|].
  simpl. rewrite (Hall line) by left. apply IH.
  intros l Hl. apply Hall. by right.
Qed.

Lemma existsb_is_header_within ls' ls :
  lines_within ls' ls →
  existsb is_header ls = false → existsb is_header ls' = false.
Proof.
  intros [_ Hin] Hnone.
  destruct (existsb is_header ls') eqn:Hex; [|done].
  apply existsb_exists in Hex as (l' & Hl' & Hh).
  apply list_elem_of_In in Hl'. destruct (Hin _ Hl') as (l & Hl & Hi).
  assert (existsb is_header ls = true) as Hyes; [|congruence].
  apply existsb_exists. exists l. split; [by apply list_elem_of_In|].
  by eapply is_header_infix.
Qed.

Lemma find_header_none_existsb i lines :
  existsb is_header lines = false → find_header i lines = None.
Proof.
  intros Hnone. apply find_header_none. intros line Hl.
  destruct (is_header line) eqn:Hh; [|done].
  assert (existsb is_header lines = true) as Hyes; [|congruence].
  apply existsb_exists. exists line. split; [by apply list_elem_of_In | done].
Qed.

(** C8.  A text with fewer than three lines (the empty text has none), or
    none of whose lines contains ["Name"], ["Id"] and ["Version"], makes
    both parsers return the empty sequence.  The lines may be counted and
    searched in the text as given or, as the parsers do, in the stripped
    text. *)
Theorem no_table_no_records (output : str) :
  (len (splitlines output) < 3
   ∨ len (splitlines (strip output)) < 3
   ∨ existsb is_header (splitlines output) = false
   ∨ existsb is_header (splitlines (strip output)) = false) →
  parse_winget_list_output output = Some []
  ∧ parse_winget_upgrade_output output = Some [].
Proof.
  intros H.
  assert (len (splitlines (strip output)) < 3
          ∨ find_header 0 (splitlines (strip output)) = None) as [Hfew|Hnone].
  { destruct (lines_within_strip output) as [Hlen Hin].
    destruct H as [H|[H|[H|H]]].
    - left. unfold len in *. lia.
    - by left.
    - right. apply find_header_none_existsb.
      eapply existsb_is_header_within; [|exact H]. by split.
    - right. by apply find_header_none_existsb. }
  - unfold parse_winget_list_output, parse_winget_upgrade_output.
    by destruct (Z.ltb_spec (len (splitlines (strip output))) 3); [|lia].
  - unfold parse_winget_list_output, parse_winget_upgrade_output.
    rewrite Hnone. by destruct (len _ <? 3).
Qed.

Lemma no_table_no_records_witness :
  (parse_winget_list_output [] = Some []
   ∧ parse_winget_upgrade_output [] = Some [])
  ∧ (parse_winget_list_output two_line_table = Some []
     ∧ parse_winget_upgrade_output two_line_table = Some [])
  ∧ (len (splitlines padded_two_line_table) = 5
     ∧ parse_winget_list_output padded_two_line_table = Some []
     ∧ parse_winget_upgrade_output padded_two_line_table = Some [])
  ∧ (len (splitlines no_header_table) = 3
     ∧ parse_winget_list_output no_header_table = Some []
     ∧ parse_winget_upgrade_output no_header_table = Some []).
Proof.
  split; [|split; [|split]].
  - apply (no_table_no_records []). left. vm_compute. reflexivity.
  - apply (no_table_no_records two_line_table). left. vm_compute. reflexivity.
  - split; [vm_compute; reflexivity|].
    apply (no_table_no_records padded_two_line_table).
    right. left. vm_compute. reflexivity.
  - split; [vm_compute; reflexivity|].
    apply (no_table_no_records no_header_table).
    right. right. left. vm_compute. reflexivity.
Defined.

(** * More on the reconciler *)

Lemma merge_as_map installed_apps upgradable_apps :
  merge_installed_with_upgradable installed_apps upgradable_apps
  = List.map (merge_app (upgrade_lookup upgradable_apps)) installed_apps.
Proof. unfold merge_installed_with_upgradable. by rewrite merge_loop_map. Qed.

Lemma merge_elem installed_apps upgradable_apps r :
  r ∈ merge_installed_with_upgradable installed_apps upgradable_apps →
  ∃ app, app ∈ installed_apps
         ∧ r = merge_app (upgrade_lookup upgradable_apps) app.
Proof.
  rewrite merge_as_map. intros Hr.
  apply list_elem_of_In, in_map_iff in Hr as (app & <- & Hin).
  exists app. split; [by apply list_elem_of_In | done].
Qed.

(** X1.  The update flag is sound: a merged record flagged
    [update_available] has a non-empty id, there is an upgradable record
    with this id whose available version is the record's latest version,
    and this latest version differs from the current one, neither being
    ["Unknown"]. *)
Theorem update_flag_sound (installed_apps : list PackageRecord.t)
    (upgradable_apps : list UpgradeRecord.t) (r : ReconciledRecord.t) :
  r ∈ merge_installed_with_upgradable installed_apps upgradable_apps →
  ReconciledRecord.update_available r = true →
  ReconciledRecord.id r ≠ []
  ∧ (∃ u, u ∈ upgradable_apps
          ∧ UpgradeRecord.id u = ReconciledRecord.id r
          ∧ UpgradeRecord.available_version u
            = ReconciledRecord.latest_version r)
  ∧ ReconciledRecord.current_version r ≠ ReconciledRecord.latest_version r
  ∧ ReconciledRecord.current_version r ≠ Unknown
  ∧ ReconciledRecord.latest_version r ≠ Unknown.
Proof.
  intros Hr Hflag. apply merge_elem in Hr as (app & _ & ->).
  unfold merge_app in *.
  destruct (upgrade_lookup upgradable_apps !! PackageRecord.id app)
    as [m|] eqn:Hm; [|done].
  simpl in *. apply upgrade_lookup_Some in Hm as (before & after & -> & Hid & Ht & _).
  rewrite !andb_true_iff, !neqb_true in Hflag.
  destruct Hflag as [[H1 H2] H3].
  split; [by apply truthy_nonempty|]. split; [|done].
  exists m. split; [|done]. apply elem_of_app. right. left.
Qed.

Lemma update_flag_sound_witness :
  ReconciledRecord.id sample_reconciled_outdated ≠ []
  ∧ (∃ u, u ∈ [other_upgrade; sample_upgrade_record]
          ∧ UpgradeRecord.id u = ReconciledRecord.id sample_reconciled_outdated
          ∧ UpgradeRecord.available_version u
            = ReconciledRecord.latest_version sample_reconciled_outdated)
  ∧ ReconciledRecord.current_version sample_reconciled_outdated
    ≠ ReconciledRecord.latest_version sample_reconciled_outdated
  ∧ ReconciledRecord.current_version sample_reconciled_outdated ≠ Unknown
  ∧ ReconciledRecord.latest_version sample_reconciled_outdated ≠ Unknown.
Proof.
  apply (update_flag_sound sample_installed_records
           [other_upgrade; sample_upgrade_record]).
  - vm_compute. left.
  - reflexivity.
Defined.

(** X2.  Installed records are reconciled one by one: merging a
    concatenation of installed sequences is concatenating the merges. *)
Theorem merge_app_installed (installed1 installed2 : list PackageRecord.t)
    (upgradable_apps : list UpgradeRecord.t) :
  merge_installed_with_upgradable (installed1 ++ installed2) upgradable_apps
  = merge_installed_with_upgradable installed1 upgradable_apps
    ++ merge_installed_with_upgradable installed2 upgradable_apps.
Proof. rewrite !merge_as_map. apply List.map_app. Qed.

(** The dictionary after one more record, when a later record has the
    same id. *)
Lemma upgrade_lookup_fold_shadow (m : gmap str UpgradeRecord.t) a after :
  (truthy (UpgradeRecord.id a) = false
   ∨ ∃ b, b ∈ after ∧ UpgradeRecord.id b = UpgradeRecord.id a) →
  foldl (λ m app, if truthy (UpgradeRecord.id app)
                  then <[UpgradeRecord.id app := app]> m else m)
    (if truthy (UpgradeRecord.id a)
     then <[UpgradeRecord.id a := a]> m else m) after
  = foldl (λ m app, if truthy (UpgradeRecord.id app)
                    then <[UpgradeRecord.id app := app]> m else m)
      m after.
Proof.
  intros [Hanon|Hlater]; [by rewrite Hanon|].
  destruct (truthy (UpgradeRecord.id a)) eqn:Ha; [|done].
  revert m. induction after as [|x after IH]; intros m.
  - destruct Hlater as (b & Hb & _). by apply elem_of_nil in Hb.
  - simpl. destruct (decide (UpgradeRecord.id x = UpgradeRecord.id a))
      as [Heq|Hne].
    + rewrite Heq, Ha. by rewrite insert_insert_eq.
    + assert (∃ b, b ∈ after ∧ UpgradeRecord.id b = UpgradeRecord.id a)
        as Hlater'.
      { destruct Hlater as (b & Hb & Hid).
        apply elem_of_cons in Hb as [->|Hb]; [done | eauto]. }
      destruct (truthy (UpgradeRecord.id x)); [|by apply IH].
      rewrite insert_insert_ne by done. by apply IH.
Qed.

(** X3.  An upgradable record without id, or followed by another record
    with the same id, has no effect on the merge. *)
Theorem merge_shadowed_upgrade (installed_apps : list PackageRecord.t)
    (before after : list UpgradeRecord.t) (a : UpgradeRecord.t) :
  (UpgradeRecord.id a = []
   ∨ ∃ b, b ∈ after ∧ UpgradeRecord.id b = UpgradeRecord.id a) →
  merge_installed_with_upgradable installed_apps (before ++ a :: after)
  = merge_installed_with_upgradable installed_apps (before ++ after).
Proof.
  intros H. rewrite !merge_as_map. f_equal. f_equal.
  unfold upgrade_lookup. rewrite !foldl_app. cbn [foldl].
  apply upgrade_lookup_fold_shadow.
  destruct H as [->|H]; [by left | by right].
Qed.

Lemma merge_shadowed_upgrade_witness :
  merge_installed_with_upgradable sample_installed_records
    ([anonymous_upgrade] ++ hit_upgrade :: [sample_upgrade_record])
  = merge_installed_with_upgradable sample_installed_records
      ([anonymous_upgrade] ++ [sample_upgrade_record])
  ∧ merge_installed_with_upgradable sample_installed_records
      ([] ++ anonymous_upgrade :: [sample_upgrade_record])
    = merge_installed_with_upgradable sample_installed_records
        ([] ++ [sample_upgrade_record]).
Proof.
  split.
  - apply merge_shadowed_upgrade. right.
    exists sample_upgrade_record. split; [left | reflexivity].
  - apply merge_shadowed_upgrade. left. reflexivity.
Defined.

(** * main *)

Lemma parse_list_returns output : is_Some (parse_winget_list_output output).
Proof.
  unfold parse_winget_list_output.
  destruct (len (splitlines (strip output)) <? 3); [eauto|].
  destruct (find_header 0 (splitlines (strip output)))
    as [[header_line data_start_index]|] eqn:Hfind; [|eauto].
  apply find_header_is_header in Hfind as [Hh _].
  destruct (list_accumulate_total header_line data_start_index
              (splitlines (strip output)) Hh) as [apps ->].
  simpl. eauto.
Qed.

Lemma parse_upgrade_returns output :
  is_Some (parse_winget_upgrade_output output).
Proof.
  unfold parse_winget_upgrade_output.
  destruct (len (splitlines (strip output)) <? 3); [eauto|].
  destruct (find_header 0 (splitlines (strip output)))
    as [[header_line data_start_index]|] eqn:Hfind; [|eauto].
  apply find_header_is_header in Hfind as [Hh _].
  destruct (upgrade_accumulate_total header_line data_start_index
              (splitlines (strip output)) Hh) as [apps ->].
  simpl. eauto.
Qed.

Lemma parse_list_empty : parse_winget_list_output [] = Some [].
Proof. reflexivity. Qed.

Lemma merge_app_no_lookup app :
  merge_app ∅ app
  = {| ReconciledRecord.name := PackageRecord.name app;
       ReconciledRecord.id := PackageRecord.id app;
       ReconciledRecord.current_version := PackageRecord.current_version app;
       ReconciledRecord.latest_version := PackageRecord.current_version app;
       ReconciledRecord.update_available := false |}.
Proof. unfold merge_app. by rewrite lookup_empty. Qed.

(** The loop of main for the case without update information does what
    the merge does with no upgradable record. *)
Lemma without_update_info_merge all_apps :
  without_update_info all_apps []
  = merge_installed_with_upgradable all_apps [].
Proof.
  rewrite merge_as_map. change (upgrade_lookup []) with (∅ : gmap str UpgradeRecord.t).
  assert (∀ acc, without_update_info all_apps acc
                 = acc ++ List.map (merge_app ∅) all_apps) as H; [|apply H].
  induction all_apps as [|app rest IH]; intros acc; simpl.
  - by rewrite app_nil_r.
  - by rewrite IH, merge_app_no_lookup, <- app_assoc.
Qed.

Lemma installed_part_merge_app lookup app :
  installed_part (merge_app lookup app) = app.
Proof. unfold merge_app, installed_part. destruct app. by destruct (lookup !! _). Qed.

Lemma installed_part_merge installed_apps upgradable_apps :
  List.map installed_part
    (merge_installed_with_upgradable installed_apps upgradable_apps)
  = installed_apps.
Proof.
  rewrite merge_as_map, List.map_map.
  induction installed_apps as [|app rest IH]; [done|].
  simpl. by rewrite IH, installed_part_merge_app.
Qed.

(** What main computes once the installed table has been read. *)
Lemma main_completed text winget_upgrade all_apps :
  parse_winget_list_output text = Some all_apps →
  main (Completed text) winget_upgrade
  = match all_apps with
    | [] => Some []
    | _ :: _ =>
        match winget_upgrade with
        | Completed upgradable_text =>
            outdated_apps ← parse_winget_upgrade_output upgradable_text;
            Some (merge_installed_with_upgradable all_apps
                    (if truthy upgradable_text then outdated_apps else []))
        | CalledProcessError =>
            Some (merge_installed_with_upgradable all_apps [])
        | OtherException => None
        end
    end.
Proof.
  intros Hparse. unfold main. simpl.
  destruct text as [|c text].
  - simpl. rewrite parse_list_empty in Hparse. by injection Hparse as <-.
  - cbn [truthy negb]. rewrite Hparse.
    cbn -[without_update_info merge_installed_with_upgradable].
    destruct all_apps as [|app rest]; [done|].
    destruct winget_upgrade as [upgradable_text| |];
      cbn -[without_update_info merge_installed_with_upgradable];
      [| |done].
    + destruct upgradable_text as [|c' t'];
        cbn -[without_update_info merge_installed_with_upgradable].
      * by rewrite without_update_info_merge.
      * done.
    + by rewrite without_update_info_merge.
Qed.

(** X4.  When the list command fails main reports nothing; when it
    completes and the upgrade command, if run, raises nothing else than
    [CalledProcessError], main reports exactly the installed records the
    list parser returns, in their order, each with its two new fields. *)
Theorem main_reports_parsed_apps (text : str) (winget_upgrade : run_outcome) :
  winget_upgrade ≠ OtherException →
  main CalledProcessError winget_upgrade = Some []
  ∧ ∃ all_apps records,
      parse_winget_list_output text = Some all_apps
      ∧ main (Completed text) winget_upgrade = Some records
      ∧ List.map installed_part records = all_apps.
Proof.
  intros Hup. split; [done|].
  destruct (parse_list_returns text) as [all_apps Hparse].
  exists all_apps. rewrite (main_completed _ _ _ Hparse).
  destruct all_apps as [|app rest]; [by exists []|].
  destruct winget_upgrade as [upgradable_text| |]; [| |done].
  - destruct (parse_upgrade_returns upgradable_text) as [outdated ->]. simpl.
    eexists. split; [done|]. split; [done|]. apply installed_part_merge.
  - eexists. split; [done|]. split; [done|]. apply installed_part_merge.
Qed.

Lemma main_reports_parsed_apps_witness :
  main CalledProcessError (Completed sample_upgrade_table) = Some []
  ∧ ∃ all_apps records,
      parse_winget_list_output sample_installed_table = Some all_apps
      ∧ main (Completed sample_installed_table)
          (Completed sample_upgrade_table) = Some records
      ∧ List.map installed_part records = all_apps.
Proof.
  apply (main_reports_parsed_apps sample_installed_table
           (Completed sample_upgrade_table)).
  discriminate.
Defined.

(** X5.  Without update information - the upgrade command fails, or what
    it prints is empty or holds no upgradable record - every record main
    reports has its current version as latest version and no update
    flagged. *)
Theorem main_without_update_info (winget_list winget_upgrade : run_outcome)
    (records : list ReconciledRecord.t) :
  (winget_upgrade = CalledProcessError
   ∨ ∃ upgradable_text,
       winget_upgrade = Completed upgradable_text
       ∧ parse_winget_upgrade_output upgradable_text = Some []) →
  main winget_list winget_upgrade = Some records →
  Forall (λ r, ReconciledRecord.latest_version r
               = ReconciledRecord.current_version r
               ∧ ReconciledRecord.update_available r = false) records.
Proof.
  intros Hup Hmain.
  assert (∀ all_apps,
            Forall (λ r, ReconciledRecord.latest_version r
                         = ReconciledRecord.current_version r
                         ∧ ReconciledRecord.update_available r = false)
              (merge_installed_with_upgradable all_apps [])) as Hnone.
  { intros all_apps. rewrite merge_as_map.
    change (upgrade_lookup []) with (∅ : gmap str UpgradeRecord.t).
    apply Forall_forall. intros r Hr.
    apply list_elem_of_In, in_map_iff in Hr as (app & <- & _).
    by rewrite merge_app_no_lookup. }
  destruct winget_list as [text| |]; [| |done].
  - destruct (parse_list_returns text) as [all_apps Hparse].
    rewrite (main_completed _ _ _ Hparse) in Hmain.
    destruct all_apps as [|app rest]; [by injection Hmain as <-|].
    destruct Hup as [->|(upgradable_text & -> & Hnothing)].
    + injection Hmain as <-. apply Hnone.
    + rewrite Hnothing in Hmain. simpl in Hmain. injection Hmain as <-.
      destruct (truthy upgradable_text); apply Hnone.
  - injection Hmain as <-. constructor.
Qed.

Lemma main_without_update_info_witness :
  (main (Completed sample_installed_table) CalledProcessError
   = Some (merge_installed_with_upgradable sample_installed_records [])
   ∧ main (Completed sample_installed_table) (Completed no_available_table)
     = Some (merge_installed_with_upgradable sample_installed_records []))
  ∧ Forall (λ r, ReconciledRecord.latest_version r
                 = ReconciledRecord.current_version r
                 ∧ ReconciledRecord.update_available r = false)
      (merge_installed_with_upgradable sample_installed_records []).
Proof.
  split; [split; vm_compute; reflexivity|].
  apply (main_without_update_info (Completed sample_installed_table)
           (Completed no_available_table)).
  - right. exists no_available_table. split; [done|].
    vm_compute. reflexivity.
  - vm_compute. reflexivity.
Defined.

(** * The fields of the returned records *)

Lemma lstrip_head s c t : lstrip s = c :: t → isspace c = false.
Proof.
  induction s as [|x s IH]; [done|]. simpl.
  destruct (isspace x) eqn:Hx; [done|]. by intros [= <- _].
Qed.

Lemma lstrip_idem s : lstrip (lstrip s) = lstrip s.
Proof.
  induction s as [|x s IH]; [done|]. simpl.
  destruct (isspace x) eqn:Hx; [done|]. simpl. by rewrite Hx.
Qed.

Lemma rstrip_idem s : rstrip (rstrip s) = rstrip s.
Proof. unfold rstrip. by rewrite rev_involutive, lstrip_idem. Qed.

(** Stripping twice is stripping once: what [strip] returns has no
    whitespace at either end. *)
Lemma strip_idem s : strip (strip s) = strip s.
Proof.
  unfold strip at 1.
  assert (lstrip (strip s) = strip s) as ->; [|unfold strip; apply rstrip_idem].
  unfold strip. destruct (rstrip (lstrip s)) as [|c u] eqn:Hu; [done|].
  destruct (rstrip_decomp (lstrip s)) as (ws & Heq & _).
  rewrite Hu in Heq. simpl in Heq.
  apply lstrip_head in Heq. by apply lstrip_nonspace.
Qed.

Lemma clean_stripped y : strip (clean y) = clean y.
Proof. apply strip_idem. Qed.

Lemma cleanup_version_token y :
  truthy (compact (clean y)) = true →
  is_token (cleanup_version (compact (clean y))).
Proof.
  intros Hv. destruct (cleanup_version_compact y Hv) as [_ Hin].
  pose proof (split_tokens (compact (clean y))) as Htok.
  pose proof (split_from_Forall (λ c, (c < 128)%N) [] (compact (clean y))
                (List.Forall_nil _) (new_entry_ascii y)) as Hascii.
  rewrite Forall_forall in Htok, Hascii.
  destruct (Htok _ Hin) as [Hne Hns].
  split; [done|]. split; [|done]. by apply Hascii.
Qed.

Lemma list_output_fields output records r :
  parse_winget_list_output output = Some records → r ∈ records →
  1 < len (PackageRecord.name r)
  ∧ is_ascii (PackageRecord.name r)
  ∧ strip (PackageRecord.name r) = PackageRecord.name r
  ∧ is_ascii (PackageRecord.id r)
  ∧ strip (PackageRecord.id r) = PackageRecord.id r
  ∧ is_token (PackageRecord.current_version r).
Proof.
  intros Hparse Hr.
  destruct (list_output_origin _ _ _ Hparse Hr)
    as (apps & c & line & _ & _ & Hv & Hl & Hn & Hid & Hcv).
  rewrite Hn, Hid, Hcv. simpl.
  repeat split; try apply clean_is_ascii; try apply clean_stripped;
    try done; by apply cleanup_version_token.
Qed.

Lemma upgrade_output_fields output records r :
  parse_winget_upgrade_output output = Some records → r ∈ records →
  1 < len (UpgradeRecord.name r)
  ∧ is_ascii (UpgradeRecord.name r)
  ∧ strip (UpgradeRecord.name r) = UpgradeRecord.name r
  ∧ is_ascii (UpgradeRecord.id r)
  ∧ strip (UpgradeRecord.id r) = UpgradeRecord.id r
  ∧ is_token (UpgradeRecord.current_version r)
  ∧ is_token (UpgradeRecord.available_version r).
Proof.
  intros Hparse Hr.
  destruct (upgrade_output_origin _ _ _ Hparse Hr)
    as (apps & c & line & _ & _ & Hv & Ha & Hl & Hn & Hid & Hcv & Hav).
  rewrite Hn, Hid, Hcv, Hav. simpl.
  repeat split; try apply clean_is_ascii; try apply clean_stripped;
    try done; by apply cleanup_version_token.
Qed.

(** X6.  In every record either parser returns, the name and the id are
    ASCII text without whitespace at either end, and each version is one
    non-empty word of ASCII characters: no space, no line break, no
    character beyond U+007F survives. *)
Theorem parsed_fields_clean (output : str) :
  (∀ records r,
     parse_winget_list_output output = Some records → r ∈ records →
     is_ascii (PackageRecord.name r)
     ∧ strip (PackageRecord.name r) = PackageRecord.name r
     ∧ is_ascii (PackageRecord.id r)
     ∧ strip (PackageRecord.id r) = PackageRecord.id r
     ∧ is_token (PackageRecord.current_version r))
  ∧ (∀ records r,
       parse_winget_upgrade_output output = Some records → r ∈ records →
       is_ascii (UpgradeRecord.name r)
       ∧ strip (UpgradeRecord.name r) = UpgradeRecord.name r
       ∧ is_ascii (UpgradeRecord.id r)
       ∧ strip (UpgradeRecord.id r) = UpgradeRecord.id r
       ∧ is_token (UpgradeRecord.current_version r)
       ∧ is_token (UpgradeRecord.available_version r)).
Proof.
  split; intros records r Hparse Hr.
  - by destruct (list_output_fields _ _ _ Hparse Hr) as (_ & H).
  - by destruct (upgrade_output_fields _ _ _ Hparse Hr) as (_ & H).
Qed.

Lemma parsed_fields_clean_witness :
  (is_ascii (PackageRecord.name sample_record)
   ∧ strip (PackageRecord.name sample_record) = PackageRecord.name sample_record
   ∧ is_ascii (PackageRecord.id sample_record)
   ∧ strip (PackageRecord.id sample_record) = PackageRecord.id sample_record
   ∧ is_token (PackageRecord.current_version sample_record))
  ∧ (is_ascii (UpgradeRecord.name sample_upgrade_record)
     ∧ strip (UpgradeRecord.name sample_upgrade_record)
       = UpgradeRecord.name sample_upgrade_record
     ∧ is_ascii (UpgradeRecord.id sample_upgrade_record)
     ∧ strip (UpgradeRecord.id sample_upgrade_record)
       = UpgradeRecord.id sample_upgrade_record
     ∧ is_token (UpgradeRecord.current_version sample_upgrade_record)
     ∧ is_token (UpgradeRecord.available_version sample_upgrade_record)).
Proof.
  split.
  - apply (proj1 (parsed_fields_clean sample_list) [sample_record]);
      [vm_compute; reflexivity | left].
  - apply (proj2 (parsed_fields_clean sample_upgrade_table)
             [sample_upgrade_record]);
      [vm_compute; reflexivity | left].
Defined.

(** X7.  Every record main reports has a name of more than one
    character, and its current and latest versions are each one non-empty
    word of ASCII characters. *)
Theorem main_records_wellformed (winget_list winget_upgrade : run_outcome)
    (records : list ReconciledRecord.t) (r : ReconciledRecord.t) :
  main winget_list winget_upgrade = Some records → r ∈ records →
  1 < len (ReconciledRecord.name r)
  ∧ is_token (ReconciledRecord.current_version r)
  ∧ is_token (ReconciledRecord.latest_version r).
Proof.
  intros Hmain Hr.
  destruct winget_list as [text| |]; [| |done];
    [|injection Hmain as <-; by apply elem_of_nil in Hr].
  destruct (parse_list_returns text) as [all_apps Hparse].
  rewrite (main_completed _ _ _ Hparse) in Hmain.
  destruct all_apps as [|app0 rest] eqn:Hall;
    [injection Hmain as <-; by apply elem_of_nil in Hr|].
  rewrite <- Hall in *. clear Hall app0 rest.
  assert (∃ outdated,
            (outdated = [] ∨ ∃ upgradable_text,
               parse_winget_upgrade_output upgradable_text = Some outdated)
            ∧ r ∈ merge_installed_with_upgradable all_apps outdated)
    as (outdated & Hout & Hin).
  { destruct winget_upgrade as [upgradable_text| |]; [| |done].
    - destruct (parse_winget_upgrade_output upgradable_text)
        as [outdated|] eqn:Hup; [|done].
      simpl in Hmain. injection Hmain as <-.
      destruct (truthy upgradable_text); eauto.
    - injection Hmain as <-. eauto. }
  apply merge_elem in Hin as (app & Happ & ->).
  destruct (list_output_fields _ _ _ Hparse Happ)
    as (Hl & _ & _ & _ & _ & Hcv).
  unfold merge_app.
  destruct (upgrade_lookup outdated !! PackageRecord.id app) as [m|] eqn:Hm;
    simpl; [|done].
  split; [done|]. split; [done|].
  apply upgrade_lookup_Some in Hm as (before & after & Heq & _).
  destruct Hout as [->|(upgradable_text & Hup)].
  - by destruct before.
  - assert (m ∈ outdated) as Hmin.
    { rewrite Heq. apply elem_of_app. right. left. }
    by destruct (upgrade_output_fields _ _ _ Hup Hmin)
      as (_ & _ & _ & _ & _ & _ & Hav).
Qed.

Lemma main_records_wellformed_witness :
  1 < len (ReconciledRecord.name sample_reconciled_outdated)
  ∧ is_token (ReconciledRecord.current_version sample_reconciled_outdated)
  ∧ is_token (ReconciledRecord.latest_version sample_reconciled_outdated).
Proof.
  apply (main_records_wellformed (Completed sample_installed_table)
           (Completed sample_upgrade_table)
           [sample_reconciled_outdated; sample_reconciled_current]).
  - vm_compute. reflexivity.
  - left.
Defined.

(** * How many records, and which lines count *)

Ltac flush_length :=
  match goal with
  | |- (length (_ ?apps ?cur) ≤ _)%nat =>
      destruct cur as [a|]; cbn beta iota delta [list_flush upgrade_flush pending];
      [destruct (_ && _); rewrite ?length_app; simpl; lia | lia]
  end.

Ltac scan_length flush_len :=
  match goal with
  | |- ∀ apps cur apps' cur', ?scan ?c ?lines apps cur = _ → _ =>
      induction lines as [|line rest IH]; intros apps cur apps' cur';
      cbn [list_scan upgrade_scan];
      [ intros [= <- <-]; simpl; lia
      | destruct (skipped line);
        [intros H; apply IH in H; simpl; lia|];
        destruct (starts_entry line _) as [[|]|]; cbn; [| |done];
        intros H; apply IH in H;
        [ pose proof (flush_len apps cur); simpl in *; lia
        | simpl; lia ] ]
  end.

Lemma list_flush_length apps (current_app : option PackageRecord.t) :
  (length (list_flush apps current_app)
   ≤ length apps + pending current_app)%nat.
Proof. flush_length. Qed.

Lemma upgrade_flush_length apps (current_app : option UpgradeRecord.t) :
  (length (upgrade_flush apps current_app)
   ≤ length apps + pending current_app)%nat.
Proof. flush_length. Qed.

Lemma list_scan_length c lines :
  ∀ apps current_app apps' current_app',
    list_scan c lines apps current_app = Some (apps', current_app') →
    (length apps' + pending current_app'
     ≤ length apps + pending current_app + length lines)%nat.
Proof. scan_length list_flush_length. Qed.

Lemma upgrade_scan_length c lines :
  ∀ apps current_app apps' current_app',
    upgrade_scan c lines apps current_app = Some (apps', current_app') →
    (length apps' + pending current_app'
     ≤ length apps + pending current_app + length lines)%nat.
Proof. scan_length upgrade_flush_length. Qed.

Lemma list_validate_length apps :
  (length (list_validate apps) ≤ length apps)%nat.
Proof.
  induction apps as [|app rest IH]; [done|]. simpl.
  destruct (_ && _); simpl; lia.
Qed.

Lemma upgrade_validate_length apps :
  (length (upgrade_validate apps) ≤ length apps)%nat.
Proof.
  induction apps as [|app rest IH]; [done|]. simpl.
  destruct (_ && _); simpl; lia.
Qed.

Lemma slice_from_length {A} (l : list A) d :
  2 ≤ d → (length (slice_from l d) ≤ length l - 2)%nat.
Proof.
  intros Hd. rewrite slice_from_nonneg by lia. rewrite length_skipn. lia.
Qed.

(** X8.  Either parser returns at most one record per line that follows
    the header line and its separator: at most the number of lines of the
    text minus two. *)
Theorem records_bounded_by_lines (output : str) :
  (∀ records,
     parse_winget_list_output output = Some records →
     (length records ≤ length (splitlines output) - 2)%nat)
  ∧ (∀ records,
       parse_winget_upgrade_output output = Some records →
       (length records ≤ length (splitlines output) - 2)%nat).
Proof.
  destruct (lines_within_strip output) as [Hstrip _].
  split; intros records.
  - unfold parse_winget_list_output.
    destruct (len _ <? 3); [by intros [= <-]; simpl; lia|].
    destruct (find_header 0 _) as [[header_line d]|] eqn:Hfind;
      [|by intros [= <-]; simpl; lia].
    apply find_header_index in Hfind. unfold list_accumulate.
    destruct (list_scan _ _ [] None) as [[apps cur]|] eqn:Hscan; [|done].
    simpl. intros [= <-]. apply list_scan_length in Hscan.
    pose proof (list_flush_length apps cur).
    pose proof (list_validate_length (list_flush apps cur)).
    pose proof (slice_from_length (splitlines (strip output)) d).
    simpl in *. lia.
  - unfold parse_winget_upgrade_output.
    destruct (len _ <? 3); [by intros [= <-]; simpl; lia|].
    destruct (find_header 0 _) as [[header_line d]|] eqn:Hfind;
      [|by intros [= <-]; simpl; lia].
    apply find_header_index in Hfind. unfold upgrade_accumulate.
    destruct (upgrade_scan _ _ [] None) as [[apps cur]|] eqn:Hscan; [|done].
    simpl. intros [= <-]. apply upgrade_scan_length in Hscan.
    pose proof (upgrade_flush_length apps cur).
    pose proof (upgrade_validate_length (upgrade_flush apps cur)).
    pose proof (slice_from_length (splitlines (strip output)) d).
    simpl in *. lia.
Qed.

Lemma records_bounded_by_lines_witness :
  (length sample_installed_records
   ≤ length (splitlines sample_installed_table) - 2)%nat
  ∧ (length [sample_upgrade_record]
     ≤ length (splitlines sample_upgrade_gap) - 2)%nat.
Proof.
  split.
  - apply (proj1 (records_bounded_by_lines sample_installed_table)).
    vm_compute. reflexivity.
  - apply (proj2 (records_bounded_by_lines sample_upgrade_gap)).
    vm_compute. reflexivity.
Defined.




(** * Reading back a table laid out in columns *)

Implicit Types (s sub rest v : str).

Ltac char_cases :=
  unfold isspace, islinebreak, ch_space;
  repeat match goal with
         | |- context [(?a <=? ?b)%N] =>
             destruct (N.leb_spec a b); try (exfalso; lia)
         | |- context [(?a =? ?b)%N] =>
             destruct (N.eqb_spec a b); try (exfalso; lia)
         | |- context [(?a <? ?b)%N] =>
             destruct (N.ltb_spec a b); try (exfalso; lia)
         end;
  try reflexivity; try (exfalso; lia).

Lemma printable_char_linebreak c :
  (32 <=? c)%N && (c <=? 126)%N = true → islinebreak c = false.
Proof. rewrite andb_true_iff, !N.leb_le. intros [? ?]. char_cases. Qed.

Lemma printable_char_space c :
  (32 <=? c)%N && (c <=? 126)%N = true → isspace c = (c =? ch_space)%N.
Proof. rewrite andb_true_iff, !N.leb_le. intros [? ?]. char_cases. Qed.

Lemma printable_char_ascii c :
  (32 <=? c)%N && (c <=? 126)%N = true → (c <? 128)%N = true.
Proof. rewrite andb_true_iff, !N.leb_le. intros [? ?]. char_cases. Qed.

Lemma word_char_printable c :
  (33 <=? c)%N && (c <=? 126)%N = true →
  (32 <=? c)%N && (c <=? 126)%N = true ∧ isspace c = false.
Proof.
  rewrite andb_true_iff, !N.leb_le. intros [? ?]. split; char_cases.
Qed.

Lemma printable_app s t :
  printable (s ++ t) = printable s && printable t.
Proof. apply forallb_app. Qed.

Lemma printable_repeat_space n : printable (repeat ch_space n) = true.
Proof. induction n; [done|]. simpl. by rewrite IHn. Qed.

Lemma printable_one_line s : printable s = true → one_line s = true.
Proof.
  induction s as [|c s IH]; [done|]. simpl.
  rewrite !andb_true_iff. intros [Hc Hs].
  rewrite (printable_char_linebreak c) by by apply andb_true_iff.
  by rewrite IH.
Qed.

Lemma printable_ascii_ignore s : printable s = true → ascii_ignore s = s.
Proof.
  induction s as [|c s IH]; [done|]. cbn [printable forallb].
  rewrite andb_true_iff. intros [Hc Hs]. unfold ascii_ignore in *. simpl.
  rewrite (printable_char_ascii c Hc). by rewrite IH.
Qed.

Lemma lstrip_spaces n s : lstrip (repeat ch_space n ++ s) = lstrip s.
Proof. induction n; [done|]. simpl. apply IHn. Qed.

Lemma rev_repeat {A} (x : A) n : rev (repeat x n) = repeat x n.
Proof.
  induction n as [|n IH]; [done|]. simpl. rewrite IH.
  clear IH. induction n as [|n IH]; [done|]. simpl. by rewrite IH.
Qed.

Lemma rstrip_spaces s n : rstrip (s ++ repeat ch_space n) = rstrip s.
Proof.
  unfold rstrip. by rewrite rev_app_distr, rev_repeat, lstrip_spaces.
Qed.

Lemma last_snoc_decomp {A} (s : list A) c :
  s ≠ [] → ∃ t, s = t ++ [List.last s c].
Proof.
  intros Hne. exists (removelast s). by apply app_removelast_last.
Qed.

(** A printable text without space at either end is left as it is by
    [strip]. *)
Lemma trimmed_strip s :
  printable s = true → trimmed s = true → strip s = s.
Proof.
  destruct s as [|c s]; [done|]. intros Hp Ht.
  cbn [trimmed] in Ht. apply andb_true_iff in Ht as [Hc Hl].
  pose proof Hp as Hp'. cbn [printable forallb] in Hp'.
  apply andb_true_iff in Hp' as [Hpc _].
  destruct (last_snoc_decomp (c :: s) c) as [t Ht]; [done|].
  assert (isspace (List.last (c :: s) c) = false) as Hlast.
  { rewrite printable_char_space; [by apply negb_true_iff|].
    rewrite Ht in Hp. rewrite printable_app in Hp.
    apply andb_true_iff in Hp as [_ Hp]. simpl in Hp.
    by rewrite andb_true_r in Hp. }
  unfold strip. rewrite lstrip_nonspace
    by (rewrite printable_char_space by done; by apply negb_true_iff).
  rewrite Ht. by apply rstrip_nonspace.
Qed.

Lemma strip_pad w s :
  printable s = true → trimmed s = true → strip (pad w s) = s.
Proof.
  intros Hp Ht. unfold pad. destruct s as [|c s].
  - simpl. unfold strip. rewrite <- (app_nil_r (repeat ch_space _)).
    by rewrite lstrip_spaces.
  - pose proof (trimmed_strip _ Hp Ht) as Hs.
    cbn [trimmed] in Ht. apply andb_true_iff in Ht as [Hc _].
    cbn [printable forallb] in Hp. apply andb_true_iff in Hp as [Hpc _].
    unfold strip in *. cbn [app].
    rewrite lstrip_nonspace in *
      by (rewrite printable_char_space by done; by apply negb_true_iff).
    by rewrite app_comm_cons, rstrip_spaces.
Qed.

Lemma length_pad w s : (length s ≤ w)%nat → length (pad w s) = w.
Proof. intros H. unfold pad. rewrite length_app, repeat_length. lia. Qed.

Lemma len_pad w s : (length s ≤ w)%nat → len (pad w s) = Z.of_nat w.
Proof. intros H. unfold len. by rewrite length_pad. Qed.

Lemma printable_pad w s : printable s = true → printable (pad w s) = true.
Proof.
  intros H. unfold pad. by rewrite printable_app, H, printable_repeat_space.
Qed.

(** The clean-up of a padded field gives the field back. *)
Lemma clean_strip_pad w s :
  printable s = true → trimmed s = true → clean (strip (pad w s)) = s.
Proof.
  intros Hp Ht. rewrite strip_pad by done. unfold clean.
  rewrite printable_ascii_ignore by done. by apply trimmed_strip.
Qed.

(** ** Slices of a line made of consecutive fields *)

Lemma slice_bound_in_range {A} (l : list A) i :
  0 ≤ i → i ≤ len l → slice_bound l i = i.
Proof.
  intros H0 Hi. unfold slice_bound.
  destruct (Z.ltb_spec i 0); [lia|]. lia.
Qed.

Lemma slice_middle {A} (a b c : list A) :
  slice (a ++ b ++ c) (len a) (len a + len b) = b.
Proof.
  unfold slice. rewrite !slice_bound_in_range;
    try (unfold len; rewrite ?length_app; lia).
  replace (len a + len b - len a) with (len b) by lia.
  unfold len. rewrite !Nat2Z.id.
  by rewrite drop_app_length, take_app_length.
Qed.

Lemma slice_first {A} (b c : list A) : slice (b ++ c) 0 (len b) = b.
Proof. apply (slice_middle [] b c). Qed.

Lemma slice_from_tail {A} (a b : list A) : slice_from (a ++ b) (len a) = b.
Proof.
  unfold slice_from. rewrite slice_bound_in_range;
    try (unfold len; rewrite ?length_app; lia).
  unfold len. by rewrite Nat2Z.id, drop_app_length.
Qed.

(** ** Offsets of the keywords in a header made of padded keywords *)

Lemma find_from_here i sub s : startswith s sub = true → find_from i sub s = i.
Proof. intros H. destruct s; cbn [find_from]; by rewrite H. Qed.

Lemma startswith_app sub rest : startswith (sub ++ rest) sub = true.
Proof. apply startswith_spec. by exists rest. Qed.

Lemma startswith_head_differs c0 sub x s :
  x ≠ c0 → startswith (x :: s) (c0 :: sub) = false.
Proof.
  intros Hne. simpl. destruct (N.eqb_spec c0 x); [congruence | done].
Qed.

Lemma find_from_skip i c0 sub x rest :
  Forall (λ c, c ≠ c0) x →
  find_from i (c0 :: sub) (x ++ rest)
  = find_from (i + len x) (c0 :: sub) rest.
Proof.
  intros Hx. revert i. induction Hx as [|c x Hc _ IH]; intros i.
  - simpl. f_equal. unfold len. simpl. lia.
  - cbn [app find_from]. rewrite startswith_head_differs by done.
    rewrite IH. f_equal. unfold len. simpl length. lia.
Qed.

Lemma contains_absent_head c0 sub s :
  Forall (λ c, c ≠ c0) s → contains (c0 :: sub) s = false.
Proof.
  induction 1 as [|c s Hc _ IH]; [done|].
  cbn [contains]. by rewrite startswith_head_differs, IH.
Qed.

Lemma find_nonneg_contains s sub : 0 ≤ find s sub → contains sub s = true.
Proof.
  intros H. destruct (contains sub s) eqn:Hc; [done|].
  rewrite (find_absent _ _ Hc) in H. lia.
Qed.

Lemma Forall_pad (P : char → Prop) w s :
  Forall P s → P ch_space → Forall P (pad w s).
Proof.
  intros Hs Hsp. unfold pad. apply Forall_app. split; [done|].
  apply Forall_forall. intros c Hc.
  apply list_elem_of_In, repeat_spec in Hc. by subst.
Qed.

(** ** Words *)

Lemma word_inv v :
  word v = true →
  v ≠ [] ∧ printable v = true ∧ Forall (λ c, isspace c = false) v.
Proof.
  unfold word. rewrite andb_true_iff. intros [Hne Hall].
  split; [by destruct v|].
  induction v as [|c v IH]; [done|].
  cbn [forallb] in Hall. apply andb_true_iff in Hall as [Hc Hv].
  destruct (word_char_printable c Hc) as [Hp Hs].
  assert (printable v = true ∧ Forall (λ c, isspace c = false) v) as [Hpv Hsv].
  { destruct v as [|c' v']; [by split|]. by apply IH. }
  split; [|by constructor].
  cbn [printable forallb]. rewrite Hp. exact Hpv.
Qed.

Lemma word_trimmed v : word v = true → trimmed v = true.
Proof.
  intros Hw. destruct (word_inv v Hw) as (Hne & Hp & Hs).
  destruct v as [|c v]; [done|]. cbn [trimmed].
  destruct (last_snoc_decomp (c :: v) c) as [t Ht]; [done|].
  rewrite Forall_forall in Hs.
  assert (∀ x, x ∈ c :: v → (x =? ch_space)%N = false) as Hns.
  { intros x Hx. specialize (Hs x Hx).
    destruct (N.eqb_spec x ch_space) as [->|]; [done | done]. }
  rewrite (Hns c) by left. rewrite Hns; [done|].
  rewrite Ht at 2. apply elem_of_app. right. left.
Qed.

Lemma split_word v : word v = true → split v = [v].
Proof.
  intros Hw. destruct (word_inv v Hw) as (Hne & _ & Hs).
  unfold split. rewrite <- (app_nil_r v) at 1.
  rewrite split_from_app_token by done. rewrite app_nil_r.
  destruct (rev_nonempty v Hne) as (a & r & Hr).
  rewrite Hr. cbn [split_from]. by rewrite <- Hr, rev_involutive.
Qed.

Lemma compact_word v : word v = true → compact v = v.
Proof. intros Hw. unfold compact. by rewrite split_word. Qed.

(** A version of one word is left as it is by the second pass. *)
Lemma cleanup_version_word v : word v = true → cleanup_version v = v.
Proof.
  intros Hw. destruct (word_inv v Hw) as (Hne & Hp & Hs).
  unfold cleanup_version.
  rewrite remove_bar_ascii.
  - rewrite split_strip, (split_word v Hw). cbn [first_version_like].
    by destruct (looks_like_version v).
  - rewrite <- (printable_ascii_ignore v Hp). apply ascii_ignore_is_ascii.
Qed.

Lemma clean_strip_word v : word v = true → compact (clean (strip v)) = v.
Proof.
  intros Hw. destruct (word_inv v Hw) as (_ & Hp & _).
  pose proof (word_trimmed v Hw) as Ht.
  rewrite (trimmed_strip v Hp Ht). unfold clean.
  rewrite printable_ascii_ignore, trimmed_strip by done.
  by apply compact_word.
Qed.

(** ** The lines of a text made of lines *)

Lemma splitlines_one_line l :
  one_line l = true → splitlines l = match l with [] => [] | _ => [l] end.
Proof.
  intros Hl. unfold splitlines. rewrite <- (app_nil_r l) at 1.
  rewrite splitlines_from_app_line by done. rewrite app_nil_r.
  destruct l as [|c l]; [done|].
  destruct (rev_nonempty (c :: l)) as (a & r & Hr); [done|].
  rewrite Hr. cbn [splitlines_from]. by rewrite <- Hr, rev_involutive.
Qed.

Lemma splitlines_join_cons l ls :
  one_line l = true →
  splitlines (join nl (l :: ls))
  = match ls with
    | [] => splitlines l
    | _ :: _ => l :: splitlines (join nl ls)
    end.
Proof.
  intros Hl. destruct ls as [|l' ls]; [done|].
  change (join nl (l :: l' :: ls)) with (l ++ nl ++ join nl (l' :: ls)).
  unfold splitlines.
  rewrite splitlines_from_app_line, splitlines_from_newline by done.
  by rewrite app_nil_r, rev_involutive.
Qed.

Lemma splitlines_join ls :
  Forall (λ l, one_line l = true) ls →
  List.last ls [ch_space] ≠ [] →
  splitlines (join nl ls) = ls.
Proof.
  induction 1 as [|l ls Hl Hls IH]; [done|]. intros Hlast.
  rewrite splitlines_join_cons by done.
  destruct ls as [|l' ls].
  - rewrite splitlines_one_line by done. simpl in Hlast. by destruct l.
  - f_equal. by apply IH.
Qed.

Lemma last_app_nonempty {A} (a b : list A) d :
  b ≠ [] → List.last (a ++ b) d = List.last b d.
Proof.
  intros Hb. destruct (last_snoc_decomp b d Hb) as [t Ht].
  rewrite Ht at 1. by rewrite app_assoc, last_last.
Qed.

Lemma join_nonempty sep ls :
  List.last ls [ch_space] ≠ [] → ls ≠ [] → join sep ls ≠ [].
Proof.
  induction ls as [|l ls IH]; [done|]. intros Hlast _.
  destruct ls as [|l' ls]; [done|].
  change (join sep (l :: l' :: ls)) with (l ++ sep ++ join sep (l' :: ls)).
  intros Hnil. apply app_eq_nil in Hnil as [_ Hnil].
  apply app_eq_nil in Hnil as [_ Hnil]. by apply IH in Hnil.
Qed.

Lemma last_join sep ls d :
  List.last ls [ch_space] ≠ [] → ls ≠ [] →
  List.last (join sep ls) d = List.last (List.last ls [ch_space]) d.
Proof.
  induction ls as [|l ls IH]; [done|]. intros Hlast _.
  destruct ls as [|l' ls]; [done|].
  change (join sep (l :: l' :: ls)) with (l ++ sep ++ join sep (l' :: ls)).
  assert (join sep (l' :: ls) ≠ []) as Hj by by apply join_nonempty.
  rewrite last_app_nonempty, last_app_nonempty; [by apply IH|done|].
  intros Hnil. by apply app_eq_nil in Hnil as [_ Hnil].
Qed.

Lemma strip_fixed s d :
  s ≠ [] → isspace (hd d s) = false → isspace (List.last s d) = false →
  strip s = s.
Proof.
  intros Hne Hhd Hlast. destruct s as [|c s]; [done|]. simpl in Hhd.
  destruct (last_snoc_decomp (c :: s) d) as [t Ht]; [done|].
  unfold strip. rewrite lstrip_nonspace by done.
  rewrite Ht. by apply rstrip_nonspace.
Qed.

(** The lines the parsers see when the text is made of lines joined by
    newlines, the first one starting and the last one ending with
    something else than whitespace. *)
Lemma lines_of_text l ls d :
  Forall (λ l, one_line l = true) (l :: ls) →
  l ≠ [] → isspace (hd d l) = false →
  List.last (l :: ls) [ch_space] ≠ [] →
  isspace (List.last (List.last (l :: ls) [ch_space]) d) = false →
  splitlines (strip (join nl (l :: ls))) = l :: ls.
Proof.
  intros Hlines Hne Hhd Hlast Hend.
  rewrite (strip_fixed _ d).
  - by apply splitlines_join.
  - by apply join_nonempty.
  - destruct l as [|c l]; [done|]. by destruct ls.
  - by rewrite last_join.
Qed.

Lemma find_header_here i l ls :
  is_header l = true → find_header i (l :: ls) = Some (l, i + 2).
Proof. intros H. simpl. by rewrite H. Qed.

(** ** The installed table *)

Section ListTable.

Variables w1 w2 : nat.
Hypothesis w1_wide : (4 ≤ w1)%nat.
Hypothesis w2_wide : (2 ≤ w2)%nat.

Let header := list_table_header w1 w2.

Lemma list_header_Name : find header kw_Name = 0.
Proof.
  unfold header, list_table_header, pad, find. rewrite <- !app_assoc.
  apply find_from_here, startswith_app.
Qed.

Lemma list_header_Id : find header kw_Id = Z.of_nat w1.
Proof.
  unfold header, list_table_header, find.
  change kw_Id with [73; 100]%N at 1.
  rewrite find_from_skip.
  - rewrite len_pad by (simpl; lia). unfold pad. rewrite <- !app_assoc.
    rewrite find_from_here; [lia | apply (startswith_app kw_Id)].
  - apply Forall_pad; [|done]. by repeat constructor.
Qed.

Lemma list_header_Version :
  find header kw_Version = Z.of_nat w1 + Z.of_nat w2.
Proof.
  unfold header, list_table_header, find.
  change kw_Version with (86%N :: lit "ersion") at 1.
  rewrite app_assoc, find_from_skip.
  - unfold len. rewrite length_app, !length_pad by (simpl; lia).
    rewrite find_from_here; [lia | apply (startswith_app kw_Version [])].
  - apply Forall_app. split; (apply Forall_pad; [|done]); by repeat constructor.
Qed.

Lemma list_header_Source : find header kw_Source = -1.
Proof.
  apply find_absent. change kw_Source with (83%N :: lit "ource").
  apply contains_absent_head. unfold header, list_table_header.
  rewrite !Forall_app. split; [|split].
  - apply Forall_pad; [|done]. by repeat constructor.
  - apply Forall_pad; [|done]. by repeat constructor.
  - by repeat constructor.
Qed.

Lemma list_header_is_header : is_header header = true.
Proof.
  unfold is_header. rewrite !andb_true_iff. repeat split;
    apply find_nonneg_contains.
  - rewrite list_header_Name. lia.
  - rewrite list_header_Id. lia.
  - rewrite list_header_Version. lia.
Qed.

Lemma list_header_one_line : one_line header = true.
Proof.
  apply printable_one_line. unfold header, list_table_header.
  rewrite !printable_app, !printable_pad; done.
Qed.

Lemma list_row_parts r :
  list_row_ok w1 w2 r = true →
  printable (PackageRecord.name r) = true
  ∧ trimmed (PackageRecord.name r) = true
  ∧ (2 ≤ length (PackageRecord.name r) ≤ w1)%nat
  ∧ startswith (PackageRecord.name r) [ch_dash] = false
  ∧ printable (PackageRecord.id r) = true
  ∧ trimmed (PackageRecord.id r) = true
  ∧ (length (PackageRecord.id r) ≤ w2)%nat
  ∧ word (PackageRecord.current_version r) = true.
Proof.
  unfold list_row_ok. rewrite !andb_true_iff, !Nat.leb_le, negb_true_iff.
  tauto.
Qed.

Lemma list_row_entry r :
  list_row_ok w1 w2 r = true →
  list_new_entry (list_columns header) (list_table_row w1 w2 r) = r.
Proof.
  intros Hok.
  destruct (list_row_parts r Hok) as (Hpn & Htn & Hln & _ & Hpi & Hti & Hli & Hw).
  destruct r as [name id version]. simpl in *.
  unfold list_new_entry, list_name_field, list_id_field, list_version_field,
    list_columns, list_table_row. cbn [l_name_start l_id_start
    l_version_start l_source_start PackageRecord.name PackageRecord.id
    PackageRecord.current_version].
  rewrite list_header_Name, list_header_Id, list_header_Version,
    list_header_Source.
  replace (Z.of_nat w1 >? 0) with true by lia.
  replace (Z.of_nat w1 + Z.of_nat w2 >? Z.of_nat w1) with true by lia.
  replace (-1 >? Z.of_nat w1 + Z.of_nat w2) with false by lia.
  f_equal.
  - rewrite <- (len_pad w1 name) by lia. rewrite slice_first.
    by apply clean_strip_pad.
  - rewrite <- (len_pad w1 name) at 1 2 by lia.
    rewrite <- (len_pad w2 id) at 1 by lia. rewrite slice_middle.
    by apply clean_strip_pad.
  - rewrite <- (len_pad w1 name), <- (len_pad w2 id) by lia.
    replace (len (pad w1 name) + len (pad w2 id))
      with (len (pad w1 name ++ pad w2 id))
      by (unfold len; rewrite length_app; lia).
    rewrite app_assoc, slice_from_tail. by apply clean_strip_word.
Qed.

End ListTable.

Lemma strip_truthy s c t :
  s = c :: t → isspace c = false → truthy (strip s) = true.
Proof.
  intros -> Hc. unfold strip. rewrite lstrip_nonspace by done.
  destruct (rstrip_decomp (c :: t)) as (ws & Heq & Hws).
  destruct (rstrip (c :: t)) as [|x u]; [|done].
  simpl in Heq. subst ws. apply Forall_cons in Hws as [Hws _]. congruence.
Qed.

(** A line whose first character is neither a space nor a dash opens an
    entry when the Name column starts the line. *)
Lemma line_opens_entry line c t :
  line = c :: t → isspace c = false → c ≠ ch_dash → c ≠ ch_space →
  skipped line = false ∧ starts_entry line 0 = Some true.
Proof.
  intros -> Hsp Hdash Hspace. split.
  - unfold skipped. rewrite (strip_truthy (c :: t) c t) by done.
    cbn [negb orb startswith].
    destruct (N.eqb_spec ch_dash c); [congruence | done].
  - unfold starts_entry.
    assert (0 < len (c :: t)) as Hlen by (unfold len; simpl; lia).
    destruct (Z.gtb_spec (len (c :: t)) 0); [|lia].
    unfold getitem. cbv zeta. change (0 <? 0) with false. cbv iota.
    destruct (Z.leb_spec (len (c :: t)) 0); [lia|].
    change (Z.to_nat 0) with 0%nat. cbn.
    destruct (N.eqb_spec c ch_space); [congruence | done].
Qed.

Lemma row_first_char name rest :
  printable name = true → trimmed name = true → (2 ≤ length name)%nat →
  startswith name [ch_dash] = false →
  ∃ c t, name ++ rest = c :: t ∧ isspace c = false
         ∧ c ≠ ch_dash ∧ c ≠ ch_space.
Proof.
  intros Hp Ht Hl Hd. destruct name as [|c name]; [simpl in Hl; lia|].
  exists c, (name ++ rest). split; [done|].
  cbn [printable forallb] in Hp. apply andb_true_iff in Hp as [Hpc _].
  cbn [trimmed] in Ht. apply andb_true_iff in Ht as [Hc _].
  apply negb_true_iff in Hc.
  rewrite (printable_char_space c Hpc). split; [done|].
  assert ((ch_dash =? c)%N = false) as Hd'.
  { cbn [startswith] in Hd. by destruct (ch_dash =? c)%N, name. }
  split.
  - intros ->. by rewrite N.eqb_refl in Hd'.
  - intros ->. by rewrite N.eqb_refl in Hc.
Qed.

Lemma list_row_opens w1 w2 r :
  list_row_ok w1 w2 r = true →
  skipped (list_table_row w1 w2 r) = false
  ∧ starts_entry (list_table_row w1 w2 r) 0 = Some true.
Proof.
  intros Hok.
  destruct (list_row_parts w1 w2 r Hok) as (Hpn & Htn & Hln & Hd & _).
  unfold list_table_row, pad. rewrite <- !app_assoc.
  destruct (row_first_char (PackageRecord.name r)
              (repeat ch_space (w1 - length (PackageRecord.name r)) ++
               PackageRecord.id r ++
               repeat ch_space (w2 - length (PackageRecord.id r)) ++
               PackageRecord.current_version r))
    as (c & t & Heq & Hs & Hdash & Hspace); [done|done|lia|done|].
  by apply (line_opens_entry _ c t).
Qed.

Lemma list_row_kept w1 w2 r :
  list_row_ok w1 w2 r = true →
  truthy (PackageRecord.name r) = true
  ∧ truthy (PackageRecord.current_version r) = true
  ∧ (len (PackageRecord.name r) >? 1) = true
  ∧ cleanup_version (PackageRecord.current_version r)
    = PackageRecord.current_version r.
Proof.
  intros Hok.
  destruct (list_row_parts w1 w2 r Hok) as (_ & _ & Hln & _ & _ & _ & _ & Hw).
  destruct (word_inv _ Hw) as (Hne & _).
  repeat split.
  - destruct (PackageRecord.name r); [simpl in Hln; lia | done].
  - by destruct (PackageRecord.current_version r).
  - unfold len. lia.
  - by apply cleanup_version_word.
Qed.

Lemma list_scan_rows w1 w2 rows :
  (4 ≤ w1)%nat → (2 ≤ w2)%nat →
  forallb (list_row_ok w1 w2) rows = true →
  ∀ apps current_app,
    (∀ a, current_app = Some a →
          truthy (PackageRecord.name a)
          && truthy (PackageRecord.current_version a) = true) →
    ∃ apps' current_app',
      list_scan (list_columns (list_table_header w1 w2))
        (List.map (list_table_row w1 w2) rows) apps current_app
      = Some (apps', current_app')
      ∧ list_flush apps' current_app' = list_flush apps current_app ++ rows.
Proof.
  intros Hw1 Hw2. induction rows as [|r rows IH]; intros Hok apps cur Hcur.
  - exists apps, cur. split; [done | by rewrite app_nil_r].
  - cbn [forallb] in Hok. apply andb_true_iff in Hok as [Hr Hrows].
    destruct (list_row_opens w1 w2 r Hr) as [Hskip Hstart].
    destruct (list_row_kept w1 w2 r Hr) as (Hn & Hv & _).
    assert (l_name_start (list_columns (list_table_header w1 w2)) = 0)
      as Hns by (by apply list_header_Name).
    cbn [List.map list_scan]. rewrite Hskip, Hns, Hstart.
    cbn [mbind option_bind]. rewrite list_row_entry by done.
    destruct (IH Hrows (list_flush apps cur) (Some r))
      as (apps' & cur' & Hscan & Hflush).
    { intros a [= <-]. by rewrite Hn, Hv. }
    exists apps', cur'. split; [exact Hscan|].
    rewrite Hflush. cbn [list_flush]. rewrite Hn, Hv. cbn.
    by rewrite <- app_assoc.
Qed.

Lemma list_validate_rows w1 w2 rows :
  forallb (list_row_ok w1 w2) rows = true → list_validate rows = rows.
Proof.
  induction rows as [|r rows IH]; [done|]. cbn [forallb list_validate].
  rewrite andb_true_iff. intros [Hr Hrows].
  destruct (list_row_kept w1 w2 r Hr) as (Hn & Hv & Hl & Hc).
  rewrite Hn, Hv, Hl, Hc. cbn. rewrite IH by done. by destruct r.
Qed.

Lemma last_of_rows {A} (f : A → str) (l1 l2 : str) (rows : list A) :
  rows ≠ [] →
  ∃ r, r ∈ rows
       ∧ List.last (l1 :: l2 :: List.map f rows) [ch_space] = f r.
Proof.
  intros Hne.
  assert (∀ l0, ∃ r, r ∈ rows
                     ∧ List.last (l0 :: List.map f rows) [ch_space] = f r)
    as H.
  { induction rows as [|r rows IH]; [done|]. intros l0.
    destruct rows as [|r' rows].
    - exists r. split; [left | done].
    - destruct (IH ltac:(done) (f r)) as (x & Hx & Hlast).
      exists x. split; [by right | exact Hlast]. }
  destruct (H l2) as (r & Hr & Hlast). exists r. split; [done|].
  destruct rows; [done | exact Hlast].
Qed.

Lemma list_row_printable w1 w2 r :
  list_row_ok w1 w2 r = true → printable (list_table_row w1 w2 r) = true.
Proof.
  intros Hok.
  destruct (list_row_parts w1 w2 r Hok) as (Hpn & _ & _ & _ & Hpi & _ & _ & Hw).
  destruct (word_inv _ Hw) as (_ & Hpv & _).
  unfold list_table_row. by rewrite !printable_app, !printable_pad, Hpv.
Qed.

Lemma list_row_end w1 w2 r d :
  list_row_ok w1 w2 r = true →
  list_table_row w1 w2 r ≠ []
  ∧ isspace (List.last (list_table_row w1 w2 r) d) = false.
Proof.
  intros Hok.
  destruct (list_row_parts w1 w2 r Hok) as (_ & _ & _ & _ & _ & _ & _ & Hw).
  destruct (word_inv _ Hw) as (Hne & _ & Hs).
  unfold list_table_row. split.
  - intros Hnil. apply app_eq_nil in Hnil as [_ Hnil].
    by apply app_eq_nil in Hnil as [_ Hnil].
  - rewrite app_assoc, last_app_nonempty by done.
    destruct (last_snoc_decomp (PackageRecord.current_version r) d Hne)
      as [t Ht].
    rewrite Forall_forall in Hs. apply Hs. rewrite Ht at 2.
    apply elem_of_app. right. left.
Qed.

(** X9.  An installed table laid out in columns is read back: with the
    header line made of ["Name"], ["Id"] and ["Version"] at the offsets 0,
    [w1] and [w1 + w2], any separator line, and one line per record holding
    its fields at these offsets, the list parser returns the records, in
    order - provided each name has two characters at least, does not start
    with a dash and fits its column, name and id are printable and have no
    space at either end, and the version is one printable word. *)
Theorem list_table_round_trip (w1 w2 : nat) (rule : str)
    (rows : list PackageRecord.t) :
  (4 ≤ w1)%nat → (2 ≤ w2)%nat →
  one_line rule = true →
  forallb (list_row_ok w1 w2) rows = true →
  parse_winget_list_output (list_table w1 w2 rule rows) = Some rows.
Proof.
  intros Hw1 Hw2 Hrule Hrows. unfold parse_winget_list_output, list_table.
  pose proof (list_header_one_line w1 w2) as Hh1.
  destruct rows as [|r0 rows0] eqn:Hrs.
  { cbn [List.map].
    destruct (lines_within_strip
                (join nl [list_table_header w1 w2; rule])) as [Hlen _].
    rewrite splitlines_join_cons in Hlen by done.
    change (join nl [rule]) with rule in Hlen.
    rewrite (splitlines_one_line rule Hrule) in Hlen.
    destruct (Z.ltb_spec (len (splitlines (strip
      (join nl [list_table_header w1 w2; rule])))) 3) as [|Hge]; [done|].
    exfalso. unfold len in Hge.
    assert (length (list_table_header w1 w2
                    :: match rule with [] => [] | _ :: _ => [rule] end)
            ≤ 2)%nat by (destruct rule; simpl; lia).
    lia. }
  rewrite <- Hrs in *. assert (rows ≠ []) as Hne by by rewrite Hrs.
  clear Hrs r0 rows0.
  rewrite (lines_of_text _ _ ch_space).
  - destruct (Z.ltb_spec (len (list_table_header w1 w2 :: rule
                :: List.map (list_table_row w1 w2) rows)) 3) as [Hlt|_].
    { unfold len in Hlt. cbn [length] in Hlt. rewrite length_map in Hlt.
      destruct rows; [done | simpl in Hlt; lia]. }
    rewrite find_header_here by by apply list_header_is_header.
    unfold list_accumulate.
    rewrite slice_from_nonneg by lia.
    change (Z.to_nat (0 + 2)) with 2%nat. cbn [skipn]. rewrite drop_0.
    destruct (list_scan_rows w1 w2 rows Hw1 Hw2 Hrows [] None)
      as (apps' & cur' & Hscan & Hflush); [done|].
    rewrite Hscan. cbn [mbind option_bind]. rewrite Hflush. cbn [list_flush app].
    by rewrite (list_validate_rows w1 w2).
  - constructor; [done|]. constructor; [done|].
    apply Forall_forall. intros l Hl.
    apply list_elem_of_In, in_map_iff in Hl as (r & <- & Hr).
    apply printable_one_line, list_row_printable.
    rewrite forallb_forall in Hrows. by apply Hrows.
  - unfold list_table_header, pad. by rewrite <- app_assoc.
  - unfold list_table_header, pad. by rewrite <- app_assoc.
  - destruct (last_of_rows (list_table_row w1 w2) (list_table_header w1 w2)
                rule rows Hne) as (r & Hr & ->).
    apply (list_row_end w1 w2 r ch_space).
    rewrite forallb_forall in Hrows. by apply Hrows, list_elem_of_In.
  - destruct (last_of_rows (list_table_row w1 w2) (list_table_header w1 w2)
                rule rows Hne) as (r & Hr & ->).
    apply (list_row_end w1 w2 r ch_space).
    rewrite forallb_forall in Hrows. by apply Hrows, list_elem_of_In.
Qed.

Lemma list_table_round_trip_witness :
  list_table 9 9 (lit "------------------------") sample_installed_records
  = sample_installed_table
  ∧ parse_winget_list_output
      (list_table 9 9 (lit "------------------------")
         sample_installed_records)
    = Some sample_installed_records.
Proof.
  split; [vm_compute; reflexivity|].
  apply list_table_round_trip; [lia | lia | |]; vm_compute; reflexivity.
Defined.

(** ** The upgrade table *)

Lemma slice_at {A} (x a b c : list A) lo hi :
  x = a ++ b ++ c → lo = len a → hi = len a + len b → slice x lo hi = b.
Proof. intros -> -> ->. apply slice_middle. Qed.

Section UpgradeTable.

Variables w1 w2 w3 w4 : nat.
Hypothesis w1_wide : (4 ≤ w1)%nat.
Hypothesis w2_wide : (2 ≤ w2)%nat.
Hypothesis w3_wide : (7 ≤ w3)%nat.
Hypothesis w4_wide : (9 ≤ w4)%nat.

Let header := upgrade_table_header w1 w2 w3 w4.

Ltac pads_lack_char :=
  rewrite ?Forall_app; repeat split;
  try (apply Forall_pad; [|done]); by repeat constructor.

Lemma upgrade_header_Name : find header kw_Name = 0.
Proof.
  unfold header, upgrade_table_header, pad, find. rewrite <- !app_assoc.
  apply find_from_here, startswith_app.
Qed.

Lemma upgrade_header_Id : find header kw_Id = Z.of_nat w1.
Proof.
  unfold header, upgrade_table_header, find.
  change kw_Id with [73; 100]%N at 1.
  rewrite find_from_skip by pads_lack_char.
  rewrite len_pad by (simpl; lia). unfold pad. rewrite <- !app_assoc.
  rewrite find_from_here; [lia | apply (startswith_app kw_Id)].
Qed.

Lemma upgrade_header_Version :
  find header kw_Version = Z.of_nat w1 + Z.of_nat w2.
Proof.
  unfold header, upgrade_table_header, find.
  change kw_Version with (86%N :: lit "ersion") at 1.
  rewrite app_assoc, find_from_skip by pads_lack_char.
  unfold len. rewrite length_app, !length_pad by (simpl; lia).
  unfold pad. rewrite <- !app_assoc.
  rewrite find_from_here; [lia | apply (startswith_app kw_Version)].
Qed.

Lemma upgrade_header_Available :
  find header kw_Available = Z.of_nat w1 + Z.of_nat w2 + Z.of_nat w3.
Proof.
  unfold header, upgrade_table_header, find.
  change kw_Available with (65%N :: lit "vailable") at 1.
  rewrite (app_assoc (pad w2 kw_Id)), app_assoc.
  rewrite find_from_skip by pads_lack_char.
  unfold len. rewrite !length_app, !length_pad by (simpl; lia).
  unfold pad. rewrite <- !app_assoc.
  rewrite find_from_here; [lia | apply (startswith_app kw_Available)].
Qed.

Lemma upgrade_header_Source :
  find header kw_Source
  = Z.of_nat w1 + Z.of_nat w2 + Z.of_nat w3 + Z.of_nat w4.
Proof.
  unfold header, upgrade_table_header, find.
  change kw_Source with (83%N :: lit "ource") at 1.
  rewrite (app_assoc (pad w3 kw_Version)), (app_assoc (pad w2 kw_Id)),
    app_assoc.
  rewrite find_from_skip by pads_lack_char.
  unfold len. rewrite !length_app, !length_pad by (simpl; lia).
  rewrite find_from_here; [lia | apply (startswith_app kw_Source [])].
Qed.

Lemma upgrade_header_is_header : is_header header = true.
Proof.
  unfold is_header. rewrite !andb_true_iff. repeat split;
    apply find_nonneg_contains.
  - rewrite upgrade_header_Name. lia.
  - rewrite upgrade_header_Id. lia.
  - rewrite upgrade_header_Version. lia.
Qed.

Lemma upgrade_header_one_line : one_line header = true.
Proof.
  apply printable_one_line. unfold header, upgrade_table_header.
  rewrite !printable_app, !printable_pad; done.
Qed.

Lemma upgrade_row_parts r :
  upgrade_row_ok w1 w2 w3 w4 r = true →
  printable (UpgradeRecord.name r) = true
  ∧ trimmed (UpgradeRecord.name r) = true
  ∧ (2 ≤ length (UpgradeRecord.name r) ≤ w1)%nat
  ∧ startswith (UpgradeRecord.name r) [ch_dash] = false
  ∧ printable (UpgradeRecord.id r) = true
  ∧ trimmed (UpgradeRecord.id r) = true
  ∧ (length (UpgradeRecord.id r) ≤ w2)%nat
  ∧ word (UpgradeRecord.current_version r) = true
  ∧ (length (UpgradeRecord.current_version r) ≤ w3)%nat
  ∧ word (UpgradeRecord.available_version r) = true
  ∧ (length (UpgradeRecord.available_version r) ≤ w4)%nat.
Proof.
  unfold upgrade_row_ok. rewrite !andb_true_iff, !Nat.leb_le, negb_true_iff.
  tauto.
Qed.

Lemma clean_strip_pad_word w v :
  word v = true → compact (clean (strip (pad w v))) = v.
Proof.
  intros Hw. destruct (word_inv v Hw) as (_ & Hp & _).
  rewrite clean_strip_pad by (done || by apply word_trimmed).
  by apply compact_word.
Qed.

Lemma upgrade_row_entry source r :
  upgrade_row_ok w1 w2 w3 w4 r = true →
  upgrade_new_entry (upgrade_columns header)
    (upgrade_table_row w1 w2 w3 w4 source r) = r.
Proof.
  intros Hok.
  destruct (upgrade_row_parts r Hok)
    as (Hpn & Htn & Hln & _ & Hpi & Hti & Hli & Hwc & Hlc & Hwa & Hla).
  destruct r as [name id current available]. simpl in *.
  unfold upgrade_new_entry, upgrade_name_field, upgrade_id_field,
    upgrade_version_field, upgrade_available_field, upgrade_columns,
    upgrade_table_row.
  cbn [u_name_start u_id_start u_version_start u_available_start
    u_source_start UpgradeRecord.name UpgradeRecord.id
    UpgradeRecord.current_version UpgradeRecord.available_version].
  rewrite upgrade_header_Name, upgrade_header_Id, upgrade_header_Version,
    upgrade_header_Available, upgrade_header_Source.
  replace (Z.of_nat w1 >? 0) with true by lia.
  replace (Z.of_nat w1 + Z.of_nat w2 >? Z.of_nat w1) with true by lia.
  replace (Z.of_nat w1 + Z.of_nat w2 + Z.of_nat w3
           >? Z.of_nat w1 + Z.of_nat w2) with true by lia.
  replace (Z.of_nat w1 + Z.of_nat w2 + Z.of_nat w3 + Z.of_nat w4
           >? Z.of_nat w1 + Z.of_nat w2 + Z.of_nat w3) with true by lia.
  f_equal.
  - rewrite (slice_at _ [] (pad w1 name)
               (pad w2 id ++ pad w3 current ++ pad w4 available ++ source));
      [by apply clean_strip_pad | done | done
      | rewrite len_pad by lia; unfold len; simpl; lia].
  - rewrite (slice_at _ (pad w1 name) (pad w2 id)
               (pad w3 current ++ pad w4 available ++ source));
      [by apply clean_strip_pad | done
      | by rewrite len_pad by lia
      | rewrite !len_pad by lia; lia].
  - rewrite (slice_at _ (pad w1 name ++ pad w2 id) (pad w3 current)
               (pad w4 available ++ source));
      [by apply clean_strip_pad_word
      | by rewrite <- !app_assoc
      | unfold len; rewrite length_app, !length_pad by lia; lia
      | unfold len; rewrite length_app, !length_pad by lia; lia].
  - rewrite (slice_at _ (pad w1 name ++ pad w2 id ++ pad w3 current)
               (pad w4 available) source);
      [by apply clean_strip_pad_word
      | by rewrite <- !app_assoc
      | unfold len; rewrite !length_app, !length_pad by lia; lia
      | unfold len; rewrite !length_app, !length_pad by lia; lia].
Qed.

End UpgradeTable.

Lemma upgrade_row_opens w1 w2 w3 w4 source r :
  upgrade_row_ok w1 w2 w3 w4 r = true →
  skipped (upgrade_table_row w1 w2 w3 w4 source r) = false
  ∧ starts_entry (upgrade_table_row w1 w2 w3 w4 source r) 0 = Some true.
Proof.
  intros Hok.
  destruct (upgrade_row_parts w1 w2 w3 w4 r Hok) as (Hpn & Htn & Hln & Hd & _).
  destruct (row_first_char (UpgradeRecord.name r)
              (repeat ch_space (w1 - length (UpgradeRecord.name r)) ++
               pad w2 (UpgradeRecord.id r) ++
               pad w3 (UpgradeRecord.current_version r) ++
               pad w4 (UpgradeRecord.available_version r) ++ source))
    as (c & t & Heq & Hs & Hdash & Hspace); [done|done|lia|done|].
  apply (line_opens_entry _ c t); [|done..].
  rewrite <- Heq. unfold upgrade_table_row, pad. by rewrite <- !app_assoc.
Qed.

Lemma upgrade_row_kept w1 w2 w3 w4 r :
  upgrade_row_ok w1 w2 w3 w4 r = true →
  truthy (UpgradeRecord.name r) = true
  ∧ truthy (UpgradeRecord.current_version r) = true
  ∧ truthy (UpgradeRecord.available_version r) = true
  ∧ (len (UpgradeRecord.name r) >? 1) = true
  ∧ cleanup_version (UpgradeRecord.current_version r)
    = UpgradeRecord.current_version r
  ∧ cleanup_version (UpgradeRecord.available_version r)
    = UpgradeRecord.available_version r.
Proof.
  intros Hok.
  destruct (upgrade_row_parts w1 w2 w3 w4 r Hok)
    as (_ & _ & Hln & _ & _ & _ & _ & Hwc & _ & Hwa & _).
  destruct (word_inv _ Hwc) as (Hnc & _).
  destruct (word_inv _ Hwa) as (Hna & _).
  repeat split; try by apply cleanup_version_word.
  - destruct (UpgradeRecord.name r); [simpl in Hln; lia | done].
  - by destruct (UpgradeRecord.current_version r).
  - by destruct (UpgradeRecord.available_version r).
  - unfold len. lia.
Qed.

Lemma upgrade_scan_rows w1 w2 w3 w4 source rows :
  (4 ≤ w1)%nat → (2 ≤ w2)%nat → (7 ≤ w3)%nat → (9 ≤ w4)%nat →
  forallb (upgrade_row_ok w1 w2 w3 w4) rows = true →
  ∀ apps current_app,
    (∀ a, current_app = Some a →
          truthy (UpgradeRecord.name a)
          && truthy (UpgradeRecord.current_version a) = true) →
    ∃ apps' current_app',
      upgrade_scan (upgrade_columns (upgrade_table_header w1 w2 w3 w4))
        (List.map (upgrade_table_row w1 w2 w3 w4 source) rows)
        apps current_app
      = Some (apps', current_app')
      ∧ upgrade_flush apps' current_app'
        = upgrade_flush apps current_app ++ rows.
Proof.
  intros Hw1 Hw2 Hw3 Hw4.
  induction rows as [|r rows IH]; intros Hok apps cur Hcur.
  - exists apps, cur. split; [done | by rewrite app_nil_r].
  - cbn [forallb] in Hok. apply andb_true_iff in Hok as [Hr Hrows].
    destruct (upgrade_row_opens w1 w2 w3 w4 source r Hr) as [Hskip Hstart].
    destruct (upgrade_row_kept w1 w2 w3 w4 r Hr) as (Hn & Hv & _).
    assert (u_name_start
              (upgrade_columns (upgrade_table_header w1 w2 w3 w4)) = 0)
      as Hns by (by apply upgrade_header_Name).
    cbn [List.map upgrade_scan]. rewrite Hskip, Hns, Hstart.
    cbn [mbind option_bind]. rewrite upgrade_row_entry by done.
    destruct (IH Hrows (upgrade_flush apps cur) (Some r))
      as (apps' & cur' & Hscan & Hflush).
    { intros a [= <-]. by rewrite Hn, Hv. }
    exists apps', cur'. split; [exact Hscan|].
    rewrite Hflush. cbn [upgrade_flush]. rewrite Hn, Hv. cbn.
    by rewrite <- app_assoc.
Qed.

Lemma upgrade_validate_rows w1 w2 w3 w4 rows :
  forallb (upgrade_row_ok w1 w2 w3 w4) rows = true →
  upgrade_validate rows = rows.
Proof.
  induction rows as [|r rows IH]; [done|]. cbn [forallb upgrade_validate].
  rewrite andb_true_iff. intros [Hr Hrows].
  destruct (upgrade_row_kept w1 w2 w3 w4 r Hr) as (Hn & Hv & Ha & Hl & Hc & Hc').
  rewrite Hn, Hv, Ha, Hl, Hc, Hc'. cbn. rewrite IH by done. by destruct r.
Qed.

Lemma upgrade_row_printable w1 w2 w3 w4 source r :
  word source = true →
  upgrade_row_ok w1 w2 w3 w4 r = true →
  printable (upgrade_table_row w1 w2 w3 w4 source r) = true.
Proof.
  intros Hsrc Hok.
  destruct (upgrade_row_parts w1 w2 w3 w4 r Hok)
    as (Hpn & _ & _ & _ & Hpi & _ & _ & Hwc & _ & Hwa & _).
  destruct (word_inv _ Hwc) as (_ & Hpc & _).
  destruct (word_inv _ Hwa) as (_ & Hpa & _).
  destruct (word_inv _ Hsrc) as (_ & Hps & _).
  unfold upgrade_table_row. by rewrite !printable_app, !printable_pad, Hps.
Qed.

Lemma upgrade_row_end w1 w2 w3 w4 source r d :
  word source = true →
  upgrade_table_row w1 w2 w3 w4 source r ≠ []
  ∧ isspace (List.last (upgrade_table_row w1 w2 w3 w4 source r) d) = false.
Proof.
  intros Hsrc. destruct (word_inv _ Hsrc) as (Hne & _ & Hs).
  unfold upgrade_table_row. rewrite !app_assoc. split.
  - intros Hnil. by apply app_eq_nil in Hnil as [_ Hnil].
  - rewrite last_app_nonempty by done.
    destruct (last_snoc_decomp source d Hne) as [t Ht].
    rewrite Forall_forall in Hs. apply Hs. rewrite Ht at 2.
    apply elem_of_app. right. left.
Qed.

(** X10.  An upgrade table laid out in columns is read back: with the
    header line made of ["Name"], ["Id"], ["Version"], ["Available"] and
    ["Source"] at the offsets 0, [w1], [w1 + w2], [w1 + w2 + w3] and
    [w1 + w2 + w3 + w4], any separator line, and one line per record holding
    its fields at these offsets and ending with the source, the upgrade
    parser returns the records, in order - provided each name has two
    characters at least, does not start with a dash and fits its column,
    name and id are printable and have no space at either end, and the two
    versions and the source are each one printable word. *)
Theorem upgrade_table_round_trip (w1 w2 w3 w4 : nat) (rule source : str)
    (rows : list UpgradeRecord.t) :
  (4 ≤ w1)%nat → (2 ≤ w2)%nat → (7 ≤ w3)%nat → (9 ≤ w4)%nat →
  one_line rule = true → word source = true →
  forallb (upgrade_row_ok w1 w2 w3 w4) rows = true →
  parse_winget_upgrade_output (upgrade_table w1 w2 w3 w4 rule source rows)
  = Some rows.
Proof.
  intros Hw1 Hw2 Hw3 Hw4 Hrule Hsrc Hrows.
  unfold parse_winget_upgrade_output, upgrade_table.
  pose proof (upgrade_header_one_line w1 w2 w3 w4) as Hh1.
  destruct rows as [|r0 rows0] eqn:Hrs.
  { cbn [List.map].
    destruct (lines_within_strip
                (join nl [upgrade_table_header w1 w2 w3 w4; rule]))
      as [Hlen _].
    rewrite splitlines_join_cons in Hlen by done.
    change (join nl [rule]) with rule in Hlen.
    rewrite (splitlines_one_line rule Hrule) in Hlen.
    destruct (Z.ltb_spec (len (splitlines (strip
      (join nl [upgrade_table_header w1 w2 w3 w4; rule])))) 3)
      as [|Hge]; [done|].
    exfalso. unfold len in Hge.
    assert (length (upgrade_table_header w1 w2 w3 w4
                    :: match rule with [] => [] | _ :: _ => [rule] end)
            ≤ 2)%nat by (destruct rule; simpl; lia).
    lia. }
  rewrite <- Hrs in *. assert (rows ≠ []) as Hne by by rewrite Hrs.
  clear Hrs r0 rows0.
  rewrite (lines_of_text _ _ ch_space).
  - destruct (Z.ltb_spec (len (upgrade_table_header w1 w2 w3 w4 :: rule
                :: List.map (upgrade_table_row w1 w2 w3 w4 source) rows)) 3)
      as [Hlt|_].
    { unfold len in Hlt. cbn [length] in Hlt. rewrite length_map in Hlt.
      destruct rows; [done | simpl in Hlt; lia]. }
    rewrite find_header_here by by apply upgrade_header_is_header.
    unfold upgrade_accumulate.
    rewrite slice_from_nonneg by lia.
    change (Z.to_nat (0 + 2)) with 2%nat. cbn [skipn]. rewrite drop_0.
    destruct (upgrade_scan_rows w1 w2 w3 w4 source rows Hw1 Hw2 Hw3 Hw4
                Hrows [] None)
      as (apps' & cur' & Hscan & Hflush); [done|].
    rewrite Hscan. cbn [mbind option_bind]. rewrite Hflush.
    cbn [upgrade_flush app].
    by rewrite (upgrade_validate_rows w1 w2 w3 w4).
  - constructor; [done|]. constructor; [done|].
    apply Forall_forall. intros l Hl.
    apply list_elem_of_In, in_map_iff in Hl as (r & <- & Hr).
    apply printable_one_line, upgrade_row_printable; [done|].
    rewrite forallb_forall in Hrows. by apply Hrows.
  - unfold upgrade_table_header, pad. by rewrite <- app_assoc.
  - unfold upgrade_table_header, pad. by rewrite <- app_assoc.
  - destruct (last_of_rows (upgrade_table_row w1 w2 w3 w4 source)
                (upgrade_table_header w1 w2 w3 w4) rule rows Hne)
      as (r & Hr & ->).
    by apply (upgrade_row_end w1 w2 w3 w4 source r ch_space).
  - destruct (last_of_rows (upgrade_table_row w1 w2 w3 w4 source)
                (upgrade_table_header w1 w2 w3 w4) rule rows Hne)
      as (r & Hr & ->).
    by apply (upgrade_row_end w1 w2 w3 w4 source r ch_space).
Qed.

Lemma upgrade_table_round_trip_witness :
  upgrade_table 9 9 9 11
    (lit "---------------------------------------------") (lit "winget")
    [sample_upgrade_record]
  = sample_upgrade_table
  ∧ parse_winget_upgrade_output
      (upgrade_table 9 9 9 11
         (lit "---------------------------------------------")
         (lit "winget") [sample_upgrade_record])
    = Some [sample_upgrade_record].
Proof.
  split; [vm_compute; reflexivity|].
  apply upgrade_table_round_trip; try lia; vm_compute; reflexivity.
Defined.

(** * Lines the parsers pass over *)


Lemma find_header_bound i lines header_line d :
  find_header i lines = Some (header_line, d) → d ≤ i + len lines + 1.
Proof.
  revert i. induction lines as [|l lines IH]; intros i; [done|].
  cbn [find_header]. unfold len in *. cbn [length].
  destruct (is_header l).
  - intros [= <- <-]. lia.
  - intros H. apply IH in H. lia.
Qed.




(** * extract_download_url *)

Lemma split_once_from_colon sep acc p rest :
  Forall (λ c, c ≠ sep) p →
  split_once_from sep acc (p ++ sep :: rest) = [rev acc ++ p; rest].
Proof.
  intros Hp. revert acc. induction Hp as [|c p Hc _ IH]; intros acc.
  - cbn [app split_once_from]. by rewrite N.eqb_refl, app_nil_r.
  - cbn [app split_once_from]. destruct (N.eqb_spec c sep); [done|].
    rewrite IH. cbn [rev]. by rewrite <- app_assoc.
Qed.

(** What follows the first colon of a line that starts with a label. *)
Lemma url_after_label label line :
  startswith line (label ++ [ch_colon]) = true →
  Forall (λ c, c ≠ ch_colon) label →
  url_after_colon line
  = Some (strip (skipn (length (label ++ [ch_colon])) line)).
Proof.
  intros Hstart Hlabel. apply startswith_spec in Hstart as [rest ->].
  unfold url_after_colon, split_once. rewrite <- app_assoc. cbn [app].
  rewrite split_once_from_colon by done.
  rewrite (cons_middle ch_colon label rest), app_assoc, drop_app_length.
  done.
Qed.

Lemma url_after_Homepage line :
  startswith line kw_Homepage = true →
  url_after_colon line = Some (strip (skipn (length kw_Homepage) line)).
Proof.
  intros H. apply (url_after_label (lit "Homepage")); [done|].
  by repeat constructor.
Qed.

Lemma url_after_Download_URL line :
  startswith line kw_Download_URL = true →
  url_after_colon line = Some (strip (skipn (length kw_Download_URL) line)).
Proof.
  intros H. apply (url_after_label (lit "Download URL")); [done|].
  by repeat constructor.
Qed.

Lemma scan_labelled_first lines :
  scan_labelled lines = Some (first_shown_url lines).
Proof.
  induction lines as [|line rest IH]; [done|].
  cbn [scan_labelled first_shown_url]. unfold shown_url.
  destruct (startswith (strip line) kw_Homepage) eqn:Hh.
  - cbn [orb]. rewrite url_after_Homepage by done. cbn [mbind option_bind].
    by destruct (_ && _).
  - cbn [orb]. destruct (startswith (strip line) kw_Download_URL) eqn:Hd;
      [|done].
    rewrite url_after_Download_URL by done. cbn [mbind option_bind].
    by destruct (_ && _).
Qed.

Lemma first_shown_url_valid lines url :
  first_shown_url lines = Some url →
  url ≠ [] ∧ url ≠ not_available ∧ strip url = url.
Proof.
  induction lines as [|line rest IH]; [done|]. cbn [first_shown_url].
  destruct (shown_url line) as [u|] eqn:Hu; [|done]. intros [= ->].
  unfold shown_url in Hu.
  assert (∀ label : str,
            (let url0 := strip (skipn (length label) (strip line)) in
             if truthy url0 && neqb url0 not_available
             then Some url0 else None) = Some url →
            url ≠ [] ∧ url ≠ not_available ∧ strip url = url) as Hafter.
  { intros label. cbv zeta.
    set (u := strip (skipn (length label) (strip line))).
    destruct (truthy u) eqn:Ht; [|by cbn].
    destruct (neqb u not_available) eqn:Hn; [|by cbn].
    cbn. intros [= <-].
    split; [by apply truthy_nonempty|]. split; [by apply neqb_true|].
    apply strip_idem. }
  destruct (startswith (strip line) kw_Homepage); [by eapply Hafter|].
  destruct (startswith (strip line) kw_Download_URL); [by eapply Hafter|done].
Qed.

Lemma scan_homepage_nothing lines :
  first_shown_url lines = None → scan_homepage lines = Some None.
Proof.
  induction lines as [|line rest IH]; [done|].
  cbn [first_shown_url scan_homepage].
  destruct (shown_url line) as [u|] eqn:Hu; [done|]. intros Hrest.
  unfold shown_url in Hu.
  destruct (startswith (strip line) kw_Homepage) eqn:Hh; [|by apply IH].
  rewrite url_after_Homepage by done. cbn [mbind option_bind].
  cbv zeta in Hu. destruct (_ && _); [done | by apply IH].
Qed.

(** X12.  [extract_download_url] raises nothing and answers the URL shown
    by the first line that shows one: a line that, stripped, starts with
    ["Homepage:"] or ["Download URL:"] followed, once stripped, by
    something else than nothing or ["N/A"].  Without text, or without such
    a line, it answers [None]. *)
Theorem extract_download_url_first (app_info : option str) :
  extract_download_url app_info
  = Some match app_info with
         | None => None
         | Some info => first_shown_url (splitlines info)
         end.
Proof.
  destruct app_info as [info|]; [|done]. unfold extract_download_url.
  destruct info as [|c info]; [done|]. cbn [truthy negb].
  rewrite scan_labelled_first. cbn [mbind option_bind].
  destruct (first_shown_url (splitlines (c :: info))) as [url|] eqn:Hfirst.
  - destruct (first_shown_url_valid _ _ Hfirst) as (Hne & _).
    by destruct url.
  - by rewrite scan_homepage_nothing.
Qed.

(** X13.  The second loop of [extract_download_url], the one for the home
    page alone, never finds anything: when the first loop ends without
    URL, so does the second. *)
Theorem homepage_fallback_finds_nothing (lines : list str) :
  scan_labelled lines = Some None → scan_homepage lines = Some None.
Proof.
  rewrite scan_labelled_first. intros [= H]. by apply scan_homepage_nothing.
Qed.

Lemma homepage_fallback_finds_nothing_witness :
  scan_homepage [lit "Homepage: N/A"; lit "Homepage:"; lit "Publisher: x"]
  = Some None.
Proof.
  apply homepage_fallback_finds_nothing. vm_compute. reflexivity.
Defined.

(** X14.  A URL answered by [extract_download_url] is never empty, never
    ["N/A"], and has no whitespace at either end. *)
Theorem extracted_url_valid (app_info : option str) (url : str) :
  extract_download_url app_info = Some (Some url) →
  url ≠ [] ∧ url ≠ not_available ∧ strip url = url.
Proof.
  destruct app_info as [info|]; [|done]. unfold extract_download_url.
  destruct info as [|c info]; [done|]. cbn [truthy negb].
  rewrite scan_labelled_first. cbn [mbind option_bind].
  destruct (first_shown_url (splitlines (c :: info))) as [u|] eqn:Hfirst.
  - destruct (first_shown_url_valid _ _ Hfirst) as (Hne & Hna & Hs).
    destruct u as [|x u]; [done|]. cbn [truthy]. by intros [= <-].
  - by rewrite scan_homepage_nothing.
Qed.

Lemma extracted_url_valid_witness :
  lit "https://www.7-zip.org/" ≠ []
  ∧ lit "https://www.7-zip.org/" ≠ not_available
  ∧ strip (lit "https://www.7-zip.org/") = lit "https://www.7-zip.org/".
Proof.
  apply (extracted_url_valid (Some sample_app_info)).
  vm_compute. reflexivity.
Defined.

Lemma strip_indented n s d :
  s ≠ [] → isspace (hd d s) = false → isspace (List.last s d) = false →
  strip (repeat ch_space n ++ s) = s.
Proof.
  intros Hne Hhd Hlast. unfold strip. rewrite lstrip_spaces.
  by apply (strip_fixed s d).
Qed.

Lemma stripped_ends url d :
  url ≠ [] → strip url = url →
  isspace (hd d url) = false ∧ isspace (List.last url d) = false.
Proof.
  intros Hne Hs. split.
  - destruct url as [|c u]; [done|]. cbn [hd].
    unfold strip in Hs.
    destruct (rstrip_decomp (lstrip (c :: u))) as (ws & Heq & _).
    rewrite Hs in Heq. cbn [app] in Heq. by apply lstrip_head in Heq.
  - destruct (last_snoc_decomp url d Hne) as [t Ht].
    destruct (isspace (List.last url d)) eqn:Hl; [|done].
    exfalso. unfold strip, rstrip in Hs.
    apply (f_equal (@rev _)) in Hs. rewrite rev_involutive in Hs.
    rewrite Ht in Hs at 2. rewrite rev_app_distr in Hs. cbn [rev app] in Hs.
    by apply lstrip_head in Hs; congruence.
Qed.

Lemma labelled_line_shown indent label url :
  label = kw_Homepage ∨ label = kw_Download_URL →
  url ≠ [] → url ≠ not_available → strip url = url →
  shown_url (repeat ch_space indent ++ label ++ [ch_space] ++ url)
  = Some url.
Proof.
  intros Hlabel Hne Hna Hs.
  destruct (stripped_ends url ch_space Hne Hs) as [_ Hlast].
  assert (strip (repeat ch_space indent ++ label ++ [ch_space] ++ url)
          = label ++ [ch_space] ++ url) as Hline.
  { apply (strip_indented _ _ ch_space).
    - by destruct Hlabel as [-> | ->].
    - by destruct Hlabel as [-> | ->].
    - rewrite app_assoc, last_app_nonempty by done. exact Hlast. }
  assert (strip (skipn (length label) (label ++ [ch_space] ++ url)) = url)
    as Hurl.
  { rewrite drop_app_length. cbn [app].
    unfold strip. cbn [lstrip isspace]. change (isspace ch_space) with true.
    cbn iota. exact Hs. }
  unfold shown_url. rewrite Hline.
  assert (truthy url && neqb url not_available = true) as Hok.
  { apply andb_true_iff. split; [by apply truthy_nonempty | by apply neqb_true]. }
  destruct Hlabel as [-> | ->].
  - rewrite startswith_app. cbv zeta. by rewrite Hurl, Hok.
  - assert (startswith (kw_Download_URL ++ [ch_space] ++ url) kw_Homepage
            = false) as -> by done.
    rewrite startswith_app. cbv zeta. by rewrite Hurl, Hok.
Qed.

Lemma first_shown_url_here before line after url :
  Forall (λ l, shown_url l = None) before →
  shown_url line = Some url →
  first_shown_url (before ++ line :: after) = Some url.
Proof.
  intros Hbefore Hline. induction Hbefore as [|l before Hl _ IH].
  - cbn [app first_shown_url]. by rewrite Hline.
  - cbn [app first_shown_url]. by rewrite Hl.
Qed.

(** X15.  A URL is read back from the line that shows it: when a line of
    the text is, after any indentation, ["Homepage: "] or
    ["Download URL: "] followed by a URL - any text without whitespace at
    either end other than nothing and ["N/A"], colons allowed - and no
    earlier line shows a URL, [extract_download_url] answers this URL. *)
Theorem labelled_url_read_back (info : str) (before after : list str)
    (indent : nat) (label url : str) :
  splitlines info
  = before ++ (repeat ch_space indent ++ label ++ [ch_space] ++ url) :: after →
  label = kw_Homepage ∨ label = kw_Download_URL →
  Forall (λ l, shown_url l = None) before →
  url ≠ [] → url ≠ not_available → strip url = url →
  extract_download_url (Some info) = Some (Some url).
Proof.
  intros Hlines Hlabel Hbefore Hne Hna Hs.
  assert (first_shown_url (splitlines info) = Some url) as Hfirst.
  { rewrite Hlines. apply first_shown_url_here; [done|].
    by apply labelled_line_shown. }
  unfold extract_download_url.
  destruct info as [|c info]; [by destruct before|]. cbn [truthy negb].
  rewrite scan_labelled_first, Hfirst. cbn [mbind option_bind].
  by destruct url.
Qed.

Lemma labelled_url_read_back_witness :
  extract_download_url (Some sample_app_info)
  = Some (Some (lit "https://www.7-zip.org/")).
Proof.
  apply (labelled_url_read_back sample_app_info
           [lit "Found 7-Zip [7zip.7zip]"; lit "Version: 23.01"] []
           2 kw_Homepage).
  - vm_compute. reflexivity.
  - by left.
  - repeat constructor.
  - discriminate.
  - discriminate.
  - vm_compute. reflexivity.
Defined.

(** * main: when an update is reported *)

(** X16.  main flags an update only on evidence: the upgrade command
    completed, and the records parsed from what it printed hold one with
    the id of the reported record, whose available version is the latest
    version reported, different from the current one. *)
Theorem main_update_flag_sound (winget_list winget_upgrade : run_outcome)
    (records : list ReconciledRecord.t) (r : ReconciledRecord.t) :
  main winget_list winget_upgrade = Some records → r ∈ records →
  ReconciledRecord.update_available r = true →
  ∃ upgradable_text outdated_apps u,
    winget_upgrade = Completed upgradable_text
    ∧ parse_winget_upgrade_output upgradable_text = Some outdated_apps
    ∧ u ∈ outdated_apps
    ∧ UpgradeRecord.id u = ReconciledRecord.id r
    ∧ UpgradeRecord.available_version u = ReconciledRecord.latest_version r
    ∧ ReconciledRecord.current_version r ≠ ReconciledRecord.latest_version r.
Proof.
  intros Hmain Hr Hflag.
  destruct winget_list as [text| |]; [| |done];
    [|injection Hmain as <-; by apply elem_of_nil in Hr].
  destruct (parse_list_returns text) as [all_apps Hparse].
  rewrite (main_completed _ _ _ Hparse) in Hmain.
  destruct all_apps as [|app0 rest] eqn:Hall;
    [injection Hmain as <-; by apply elem_of_nil in Hr|].
  rewrite <- Hall in *. clear Hall app0 rest.
  assert (∀ app, ReconciledRecord.update_available
                   (merge_app (upgrade_lookup []) app) = false) as Hnone.
  { intros app. change (upgrade_lookup []) with (∅ : gmap str UpgradeRecord.t).
    by rewrite merge_app_no_lookup. }
  destruct winget_upgrade as [upgradable_text| |]; [| |done].
  - destruct (parse_winget_upgrade_output upgradable_text)
      as [outdated|] eqn:Hup; [|done].
    simpl in Hmain. injection Hmain as <-.
    apply merge_elem in Hr as (app & _ & ->).
    destruct (truthy upgradable_text); [|by rewrite Hnone in Hflag].
    unfold merge_app in *.
    destruct (upgrade_lookup outdated !! PackageRecord.id app) as [m|] eqn:Hm;
      [|done].
    simpl in *. apply upgrade_lookup_Some in Hm as (before & after & -> & Hid & _).
    rewrite !andb_true_iff, !neqb_true in Hflag. destruct Hflag as [[H1 _] _].
    exists upgradable_text, (before ++ m :: after), m.
    repeat split; try done. apply elem_of_app. right. left.
  - injection Hmain as <-. apply merge_elem in Hr as (app & _ & ->).
    by rewrite Hnone in Hflag.
Qed.

Lemma main_update_flag_sound_witness :
  ∃ upgradable_text outdated_apps u,
    Completed sample_upgrade_table = Completed upgradable_text
    ∧ parse_winget_upgrade_output upgradable_text = Some outdated_apps
    ∧ u ∈ outdated_apps
    ∧ UpgradeRecord.id u = ReconciledRecord.id sample_reconciled_outdated
    ∧ UpgradeRecord.available_version u
      = ReconciledRecord.latest_version sample_reconciled_outdated
    ∧ ReconciledRecord.current_version sample_reconciled_outdated
      ≠ ReconciledRecord.latest_version sample_reconciled_outdated.
Proof.
  apply (main_update_flag_sound (Completed sample_installed_table)
           (Completed sample_upgrade_table)
           [sample_reconciled_outdated; sample_reconciled_current]).
  - vm_compute. reflexivity.
  - left.
  - reflexivity.
Defined.

(** * Lines before the header, and the line after it *)





(** * The agent's installation protocol (auto_agent.py) *)

Ltac unfold_action :=
  cbv [try_except subprocess_run send_status raised_or
       mbind action_bind mret action_ret].

(** X18. Whatever the commands do, [install_application] returns a
    boolean and raises nothing; it posts INSTALLING first, then runs at
    most two commands, then posts exactly one more status, which is
    SUCCESS when it returns [True] and FAILED when it returns [False]. *)
Theorem install_application_protocol (run : runner)
    (app_name app_id installation_method : str) (log : list event) :
  ∃ (installed : bool) (commands : list (list str)) (message : str),
    install_application run app_name app_id installation_method log
    = (inl installed,
       log ++ Sent st_INSTALLING (lit "Installing " ++ app_name)
           :: map Ran commands
           ++ [Sent (if installed then st_SUCCESS else st_FAILED) message])
    ∧ (length commands ≤ 2)%nat.
Proof.
  unfold install_application. unfold_action.
  destruct (bool_decide (installation_method = m_WINGET)).
  - destruct (run (winget_upgrade_command (lit "--id") app_id))
      as [out|[o r| |m|m]] eqn:Hid.
    + eexists true, [_], _. rewrite <- !app_assoc. split; [reflexivity|].
      simpl. lia.
    + destruct (run (winget_upgrade_command (lit "--name") app_id))
        as [out|[o' r'| |m|m]] eqn:Hname.
      * eexists true, [_; _], _. rewrite <- !app_assoc.
        split; [reflexivity|]. simpl. lia.
      * eexists false, [_; _], _. rewrite <- !app_assoc.
        split; [reflexivity|]. simpl. lia.
      * eexists false, [_; _], _. rewrite <- !app_assoc.
        split; [reflexivity|]. simpl. lia.
      * eexists false, [_; _], _. rewrite <- !app_assoc.
        split; [reflexivity|]. simpl. lia.
      * eexists false, [_; _], _. rewrite <- !app_assoc.
        split; [reflexivity|]. simpl. lia.
    + eexists false, [_], _. rewrite <- !app_assoc. split; [reflexivity|].
      simpl. lia.
    + eexists false, [_], _. rewrite <- !app_assoc. split; [reflexivity|].
      simpl. lia.
    + eexists false, [_], _. rewrite <- !app_assoc. split; [reflexivity|].
      simpl. lia.
  - destruct (bool_decide (installation_method = m_CHOCOLATEY)).
    + destruct (run (choco_upgrade_command app_id))
        as [out|[o r| |m|m]] eqn:Hc.
      1: eexists true, [_], _.
      2-5: eexists false, [_], _.
      all: rewrite <- !app_assoc; (split; [reflexivity | simpl; lia]).
    + eexists false, [], _. rewrite <- !app_assoc. split; [reflexivity|].
      simpl. lia.
Qed.

(** X19. [install_application] returns [True] only through a command
    that completed: the last thing it ran exited with status 0, and was
    either one of the two [winget upgrade] commands (method WINGET, the
    [--name] one only after the [--id] one) or the [choco upgrade]
    command (method CHOCOLATEY); SUCCESS is the status posted after it. *)
Theorem install_application_success (run : runner)
    (app_name app_id installation_method : str) (log log' : list event) :
  install_application run app_name app_id installation_method log
  = (inl true, log') →
  ∃ (earlier : list (list str)) (command : list str) (stdout message : str),
    log' = log ++ Sent st_INSTALLING (lit "Installing " ++ app_name)
               :: map Ran earlier ++ [Ran command; Sent st_SUCCESS message]
    ∧ run command = inl stdout
    ∧ (installation_method = m_WINGET
       ∧ (command = winget_upgrade_command (lit "--id") app_id
          ∧ earlier = []
          ∨ command = winget_upgrade_command (lit "--name") app_id
            ∧ earlier = [winget_upgrade_command (lit "--id") app_id])
       ∨ installation_method = m_CHOCOLATEY
         ∧ command = choco_upgrade_command app_id ∧ earlier = []).
Proof.
  unfold install_application. unfold_action.
  destruct (bool_decide (installation_method = m_WINGET)) eqn:Hw.
  - apply bool_decide_eq_true in Hw.
    destruct (run (winget_upgrade_command (lit "--id") app_id))
      as [out|[o r| |m|m]] eqn:Hid; try (intros [= ?]; done).
    + intros [= <-]. eexists [], _, out, _. rewrite <- !app_assoc.
      split; [reflexivity|]. split; [exact Hid|]. left. by split; [|left].
    + destruct (run (winget_upgrade_command (lit "--name") app_id))
        as [out|[o' r'| |m|m]] eqn:Hname; try (intros [= ?]; done).
      intros [= <-]. eexists [_], _, out, _. rewrite <- !app_assoc.
      split; [reflexivity|]. split; [exact Hname|]. left.
      by split; [|right].
  - destruct (bool_decide (installation_method = m_CHOCOLATEY)) eqn:Hc.
    + apply bool_decide_eq_true in Hc.
      destruct (run (choco_upgrade_command app_id))
        as [out|[o r| |m|m]] eqn:Hrun; try (intros [= ?]; done).
      intros [= <-]. eexists [], _, out, _. rewrite <- !app_assoc.
      split; [reflexivity|]. split; [exact Hrun|]. by right.
    + intros [= ?]; done.
Qed.

Lemma install_application_success_witness :
  install_application sample_runner (lit "App") (lit "Vendor.App") m_WINGET
    []
  = (inl true,
     [Sent st_INSTALLING (lit "Installing App");
      Ran (winget_upgrade_command (lit "--id") (lit "Vendor.App"));
      Ran (winget_upgrade_command (lit "--name") (lit "Vendor.App"));
      Sent st_SUCCESS (lit "Successfully installed App")])
  ∧ ∃ (earlier : list (list str)) (command : list str)
      (stdout message : str),
      [Sent st_INSTALLING (lit "Installing App");
       Ran (winget_upgrade_command (lit "--id") (lit "Vendor.App"));
       Ran (winget_upgrade_command (lit "--name") (lit "Vendor.App"));
       Sent st_SUCCESS (lit "Successfully installed App")]
      = [] ++ Sent st_INSTALLING (lit "Installing " ++ lit "App")
              :: map Ran earlier ++ [Ran command; Sent st_SUCCESS message]
      ∧ sample_runner command = inl stdout
      ∧ (m_WINGET = m_WINGET
         ∧ (command = winget_upgrade_command (lit "--id") (lit "Vendor.App")
            ∧ earlier = []
            ∨ command
              = winget_upgrade_command (lit "--name") (lit "Vendor.App")
              ∧ earlier
                = [winget_upgrade_command (lit "--id") (lit "Vendor.App")])
         ∨ m_WINGET = m_CHOCOLATEY
           ∧ command = choco_upgrade_command (lit "Vendor.App")
           ∧ earlier = []).
Proof.
  split; [vm_compute; reflexivity|].
  apply (install_application_success sample_runner (lit "App")
           (lit "Vendor.App") m_WINGET []).
  vm_compute; reflexivity.
Defined.

(** X20. With method WINGET, the [--name] command is run exactly when
    the [--id] command raised [CalledProcessError]: a time-out or any
    other exception of the first command is not followed by a second
    attempt. *)
Theorem winget_name_fallback (run : runner) (app_name app_id : str)
    (log : list event) :
  ∃ events : list event,
    (install_application run app_name app_id m_WINGET log).2 = log ++ events
    ∧ (Ran (winget_upgrade_command (lit "--name") app_id) ∈ events
       ↔ ∃ stdout stderr,
           run (winget_upgrade_command (lit "--id") app_id)
           = inr (CalledProcessErrorExn stdout stderr)).
Proof.
  assert (Hne : Ran (winget_upgrade_command (lit "--name") app_id)
                ≠ Ran (winget_upgrade_command (lit "--id") app_id))
    by (intros [= ?]; done).
  unfold install_application. unfold_action.
  rewrite bool_decide_eq_true_2 by done.
  destruct (run (winget_upgrade_command (lit "--id") app_id))
    as [out|[o r| |m|m]] eqn:Hid.
  2: { destruct (run (winget_upgrade_command (lit "--name") app_id))
         as [out|[o' r'| |m|m]] eqn:Hname.
       all: cbn [snd]; rewrite <- !app_assoc; eexists; (split; [reflexivity|]).
       all: split; [by eauto|]; intros _; cbn [app];
         rewrite !elem_of_cons; auto. }
  all: cbn [snd]; rewrite <- !app_assoc; eexists; (split; [reflexivity|]).
  all: split; [|by intros (? & ? & [=])].
  all: cbn [app]; rewrite !elem_of_cons, elem_of_nil.
  all: intros [[=]|[?|[[=]|[]]]]; done.
Qed.



(** * The installation cascade (install_update.py) *)


(** * Looking up the download URL (get_download_url.py) *)

Lemma extract_download_url_of_text (info : str) :
  truthy info = true →
  extract_download_url (Some info)
  = Some (first_shown_url (splitlines info)).
Proof.
  intros Ht. unfold extract_download_url. rewrite Ht. cbn [negb].
  rewrite scan_labelled_first. cbn [mbind option_bind].
  destruct (first_shown_url (splitlines info)) as [url|] eqn:Hfirst.
  - destruct (first_shown_url_valid _ _ Hfirst) as (Hne & _).
    by destruct url.
  - by rewrite scan_homepage_nothing.
Qed.

Lemma shown_message (info app_id : str) :
  (if match first_shown_url (splitlines info) with
      | Some url => truthy url
      | None => false
      end
   then lit "Download URL found for " ++ app_id
   else lit "No download URL found for " ++ app_id)
  = match first_shown_url (splitlines info) with
    | Some _ => lit "Download URL found for "
    | None => lit "No download URL found for "
    end ++ app_id.
Proof.
  destruct (first_shown_url (splitlines info)) as [url|] eqn:Hfirst; [|done].
  destruct (first_shown_url_valid _ _ Hfirst) as (Hne & _).
  by destruct url.
Qed.

(** X23. [get_download_url] returns a dictionary and raises nothing.  It
    runs [winget show --id], and [winget show --name] only when the first
    raised [CalledProcessError].  It reports success exactly when the
    last command it ran completed with some output; the [download_url]
    is then the first URL that output shows, and [None] with the message
    "No download URL found" when it shows none. *)
Theorem get_download_url_shows (str_e : exn → str) (run : runner)
    (app_id : str) (log : list event) :
  ∃ (result : download_result) (commands : list (list str)),
    get_download_url str_e run app_id log
    = (inl result, log ++ map Ran commands)
    ∧ (commands = [winget_show_command (lit "--id") app_id]
       ∨ commands = [winget_show_command (lit "--id") app_id;
                     winget_show_command (lit "--name") app_id]
         ∧ ∃ stdout stderr,
             run (winget_show_command (lit "--id") app_id)
             = inr (CalledProcessErrorExn stdout stderr))
    ∧ match result with
      | Shown id download_url message =>
          id = app_id
          ∧ ∃ (command : list str) (info : str),
              last commands = Some command
              ∧ run command = inl info ∧ info ≠ []
              ∧ download_url = first_shown_url (splitlines info)
              ∧ message
                = match download_url with
                  | Some _ => lit "Download URL found for "
                  | None => lit "No download URL found for "
                  end ++ app_id
      | NotShown id _ =>
          id = app_id
          ∧ ∀ (command : list str) (info : str),
              last commands = Some command →
              run command = inl info → info = []
      end.
Proof.
  unfold get_download_url, get_app_info. unfold_action.
  destruct (run (winget_show_command (lit "--id") app_id))
    as [out|e1] eqn:H1.
  { destruct (truthy out) eqn:Ht.
    - rewrite extract_download_url_of_text by done. rewrite shown_message.
      eexists _, [_]. split; [reflexivity|]. split; [by left|].
      split; [done|]. exists (winget_show_command (lit "--id") app_id), out.
      split; [done|]. split; [done|]. split; [by destruct out|]. done.
    - eexists _, [_]. split; [reflexivity|]. split; [by left|].
      split; [done|]. intros c info [= <-]. rewrite H1. intros [= <-].
      by destruct out. }
  destruct e1 as [o1 r1| |m|m].
  2-4: eexists _, [_]; (split; [reflexivity|]); (split; [by left|]);
       (split; [done|]); intros c info [= <-]; by rewrite H1.
  destruct (run (winget_show_command (lit "--name") app_id))
    as [out|e2] eqn:H2.
  { destruct (truthy out) eqn:Ht.
    - rewrite extract_download_url_of_text by done. rewrite shown_message.
      eexists _, [_; _]. rewrite <- app_assoc. split; [reflexivity|].
      split; [right; eauto|]. split; [done|].
      exists (winget_show_command (lit "--name") app_id), out.
      split; [done|]. split; [done|]. split; [by destruct out|]. done.
    - eexists _, [_; _]. rewrite <- app_assoc. split; [reflexivity|].
      split; [right; eauto|]. split; [done|].
      intros c info [= <-]. rewrite H2. intros [= <-]. by destruct out. }
  destruct e2 as [o2 r2| |m|m].
  all: eexists _, [_; _]; rewrite <- app_assoc; (split; [reflexivity|]);
       (split; [right; eauto|]); (split; [done|]);
       intros c info [= <-]; by rewrite H2.
Qed.

(** * What the remote agent advertises (remote_agent.py) *)

Lemma check_command_outcome (run : runner) (command : str)
    (log : list event) :
  (∃ found : bool,
     check_command run command log
     = (inl found, log ++ [Ran [command; lit "--version"]]))
  ∨ (∃ e : exn,
       check_command run command log
       = (inr e, log ++ [Ran [command; lit "--version"]])).
Proof.
  unfold check_command. unfold_action.
  destruct (run [command; lit "--version"]) as [out|[o r| |m|m]]; eauto.
Qed.

Lemma capability_dispatched (system : str) (capabilities : list str) :
  Forall (λ m, ∃ i, installer_for m system = Some i
                    ∧ installer_capability i = m) capabilities →
  ∀ m, m ∈ capabilities →
       ∃ i, installer_for m system = Some i ∧ installer_capability i = m.
Proof. intros H m Hm. by apply (proj1 (Forall_forall _ _) H). Qed.

(** X24. Every capability the remote agent detects is one that
    [execute_installation] hands to an installation method on the same
    system, namely the method of that name; MANUAL is always among the
    capabilities, and none is listed twice. *)
Theorem advertised_capabilities_dispatched (run : runner) (system : str)
    (log log' : list event) (capabilities : list str) :
  detect_capabilities run system log = (inl capabilities, log') →
  NoDup capabilities
  ∧ m_MANUAL ∈ capabilities
  ∧ ∀ m : str, m ∈ capabilities →
      ∃ i : installer,
        installer_for m system = Some i ∧ installer_capability i = m.
Proof.
  unfold detect_capabilities.
  unfold mbind at 1, action_bind at 1.
  destruct (bool_decide (system = sys_WINDOWS)) eqn:Hwin.
  { apply bool_decide_eq_true in Hwin as ->.
    unfold mbind at 1, action_bind at 1.
    destruct (check_command_outcome run (lit "winget") log)
      as [[winget ->]|[e ->]]; [|done].
    unfold mbind at 1, action_bind at 1.
    destruct (check_command_outcome run (lit "choco")
                (log ++ [Ran [lit "winget"; lit "--version"]]))
      as [[choco ->]|[e ->]]; [|done].
    cbv [mret action_ret]. intros [= <- _].
    destruct winget, choco; cbn [appended_if app].
    all: split; [apply (bool_decide_unpack _); vm_compute; exact I|].
    all: split; [rewrite !elem_of_cons; auto 6|].
    all: apply capability_dispatched; repeat constructor.
    all: eexists; split; vm_compute; reflexivity. }
  destruct (bool_decide (system = sys_LINUX)) eqn:Hlin.
  { apply bool_decide_eq_true in Hlin as ->.
    unfold mbind at 1, action_bind at 1.
    destruct (check_command_outcome run (lit "apt") log)
      as [[apt ->]|[e ->]]; [|done].
    unfold mbind at 1, action_bind at 1.
    destruct (check_command_outcome run (lit "brew")
                (log ++ [Ran [lit "apt"; lit "--version"]]))
      as [[brew ->]|[e ->]]; [|done].
    cbv [mret action_ret]. intros [= <- _].
    destruct apt, brew; cbn [appended_if app].
    all: split; [apply (bool_decide_unpack _); vm_compute; exact I|].
    all: split; [rewrite !elem_of_cons; auto 6|].
    all: apply capability_dispatched; repeat constructor.
    all: eexists; split; vm_compute; reflexivity. }
  destruct (bool_decide (system = sys_MACOS)) eqn:Hmac.
  { apply bool_decide_eq_true in Hmac as ->.
    unfold mbind at 1, action_bind at 1.
    destruct (check_command_outcome run (lit "brew") log)
      as [[brew ->]|[e ->]]; [|done].
    cbv [mret action_ret]. intros [= <- _].
    destruct brew; cbn [appended_if app].
    all: split; [apply (bool_decide_unpack _); vm_compute; exact I|].
    all: split; [rewrite !elem_of_cons; auto 6|].
    all: apply capability_dispatched; repeat constructor.
    all: eexists; split; vm_compute; reflexivity. }
  cbv [mret action_ret]. intros [= <- _]. cbn [app].
  split; [apply (bool_decide_unpack _); vm_compute; exact I|].
  split; [rewrite !elem_of_cons; auto|].
  apply capability_dispatched; repeat constructor.
  exists install_manual. split; [|done]. unfold installer_for.
  by rewrite !(bool_decide_eq_false_2 (m_MANUAL = _)),
    (bool_decide_eq_true_2 (m_MANUAL = m_MANUAL)) by done.
Qed.

Lemma advertised_capabilities_dispatched_witness :
  detect_capabilities sample_runner sys_WINDOWS []
  = (inl [m_WINGET; m_CHOCOLATEY; m_MANUAL],
     [Ran [lit "winget"; lit "--version"];
      Ran [lit "choco"; lit "--version"]])
  ∧ NoDup [m_WINGET; m_CHOCOLATEY; m_MANUAL]
  ∧ m_MANUAL ∈ [m_WINGET; m_CHOCOLATEY; m_MANUAL]
  ∧ ∀ m : str, m ∈ [m_WINGET; m_CHOCOLATEY; m_MANUAL] →
      ∃ i : installer,
        installer_for m sys_WINDOWS = Some i ∧ installer_capability i = m.
Proof.
  split; [vm_compute; reflexivity|].
  apply (advertised_capabilities_dispatched sample_runner sys_WINDOWS []
           [Ran [lit "winget"; lit "--version"];
            Ran [lit "choco"; lit "--version"]]).
  vm_compute. reflexivity.
Defined.
